(** * A shallow embedding of the streaming chat client [src/App.jsx]

    The client keeps a transcript of role-tagged entries, sends the prompt to
    [/generate_stream], decodes the streamed bytes with a [TextDecoder] and
    appends every decoded chunk to the last entry of the transcript.

    Conventions of the embedding.
    - A JavaScript string is the list of its UTF-16 code units, each a [Z].
    - A [Uint8Array] is the list of its bytes, each a [Z].
    - A React state variable is a field of [State]; a state setter called with
      a function applies the function to the current value, in call order.
    - An [async] function is cut at its [await]s: the part that runs up to the
      next [await] is one function of the state, and the environment decides
      how the awaited promise settles. *)

From Stdlib Require Import ZArith List Bool Ascii String DecimalString Lia.
From stdpp Require Import base list gmap.
Import ListNotations.

Local Open Scope Z_scope.

(** ** JavaScript strings *)

Abbreviation jsstring := (list Z).
Abbreviation bytes := (list Z).

(** An ASCII literal of the source, as code units. *)
Definition lit (s : string) : jsstring :=
  map (fun a => Z.of_N (N_of_ascii a)) (list_ascii_of_string s).

(** [String(n)] for a non-negative integer [n]. *)
Definition decimal (n : N) : jsstring :=
  lit (NilZero.string_of_uint (N.to_uint n)).

(** The code units [String.prototype.trim] strips: ECMAScript's WhiteSpace
    and LineTerminator productions. *)
Definition is_white (c : Z) : bool :=
  (c =? 0x0009) || (c =? 0x000A) || (c =? 0x000B) || (c =? 0x000C)
  || (c =? 0x000D) || (c =? 0x0020) || (c =? 0x00A0) || (c =? 0x1680)
  || ((0x2000 <=? c) && (c <=? 0x200A))
  || (c =? 0x2028) || (c =? 0x2029) || (c =? 0x202F) || (c =? 0x205F)
  || (c =? 0x3000) || (c =? 0xFEFF).

Fixpoint trimStart (s : jsstring) : jsstring :=
  match s with
  | c :: s' => if is_white c then trimStart s' else s
  | [] => []
  end.

Definition trimEnd (s : jsstring) : jsstring := rev (trimStart (rev s)).

Definition trim (s : jsstring) : jsstring := trimEnd (trimStart s).

(** JavaScript truthiness of a string: the empty string is the only falsy one. *)
Definition truthy (s : jsstring) : bool :=
  match s with [] => false | _ :: _ => true end.

(** ** The text decoder

    [new TextDecoder()] is the platform's UTF-8 decoder in replacement mode
    with [ignoreBOM = false].  The definitions below follow the steps of the
    Encoding Standard: the UTF-8 decoder's handler, and [decode] with
    [{stream: true}]. *)

Record Utf8Decoder := {
  code_point : Z;
  bytes_seen : Z;
  bytes_needed : Z;
  lower_boundary : Z;
  upper_boundary : Z
}.

Definition utf8_new : Utf8Decoder :=
  {| code_point := 0; bytes_seen := 0; bytes_needed := 0;
     lower_boundary := 0x80; upper_boundary := 0xBF |}.

Definition in_range (lo hi b : Z) : bool := (lo <=? b) && (b <=? hi).

Definition REPLACEMENT : Z := 0xFFFD.
Definition BOM : Z := 0xFEFF.

(** The handler when no continuation byte is awaited (step 3). *)
Definition utf8_lead (d : Utf8Decoder) (b : Z) : Utf8Decoder * list Z :=
  if in_range 0x00 0x7F b then (d, [b])
  else if in_range 0xC2 0xDF b then
    ({| code_point := Z.land b 0x1F; bytes_seen := bytes_seen d;
        bytes_needed := 1;
        lower_boundary := lower_boundary d;
        upper_boundary := upper_boundary d |}, [])
  else if in_range 0xE0 0xEF b then
    ({| code_point := Z.land b 0xF; bytes_seen := bytes_seen d;
        bytes_needed := 2;
        lower_boundary := if b =? 0xE0 then 0xA0 else lower_boundary d;
        upper_boundary := if b =? 0xED then 0x9F else upper_boundary d |}, [])
  else if in_range 0xF0 0xF4 b then
    ({| code_point := Z.land b 0x7; bytes_seen := bytes_seen d;
        bytes_needed := 3;
        lower_boundary := if b =? 0xF0 then 0x90 else lower_boundary d;
        upper_boundary := if b =? 0xF4 then 0x8F else upper_boundary d |}, [])
  else (d, [REPLACEMENT]).

(** The handler on one byte, with the code points it emits.  A byte outside
    the boundaries resets the decoder, emits U+FFFD and is read again
    (steps 4 to 9). *)
Definition utf8_handler (d : Utf8Decoder) (b : Z) : Utf8Decoder * list Z :=
  if bytes_needed d =? 0 then utf8_lead d b
  else if negb (in_range (lower_boundary d) (upper_boundary d) b) then
    let '(d', out) := utf8_lead utf8_new b in (d', REPLACEMENT :: out)
  else
    let cp := Z.lor (Z.shiftl (code_point d) 6) (Z.land b 0x3F) in
    let seen := bytes_seen d + 1 in
    if negb (seen =? bytes_needed d) then
      ({| code_point := cp; bytes_seen := seen;
          bytes_needed := bytes_needed d;
          lower_boundary := 0x80; upper_boundary := 0xBF |}, [])
    else (utf8_new, [cp]).

Fixpoint utf8_run (d : Utf8Decoder) (input : bytes) : Utf8Decoder * list Z :=
  match input with
  | [] => (d, [])
  | b :: rest =>
      let '(d1, out1) := utf8_handler d b in
      let '(d2, out2) := utf8_run d1 rest in
      (d2, out1 ++ out2)
  end.

(** A scalar value as the code units of a JavaScript string. *)
Definition utf16 (cp : Z) : jsstring :=
  if cp <? 0x10000 then [cp]
  else [0xD800 + Z.shiftr (cp - 0x10000) 10;
        0xDC00 + Z.land (cp - 0x10000) 0x3FF].

Definition utf16s (cps : list Z) : jsstring := concat (map utf16 cps).

(** "Serialize I/O queue": the first code point of the stream is dropped
    when it is U+FEFF. *)
Definition serialize (seen : bool) (items : list Z) : bool * jsstring :=
  if seen then (true, utf16s items)
  else match items with
       | [] => (false, [])
       | cp :: rest =>
           (true, if cp =? BOM then utf16s rest else utf16s (cp :: rest))
       end.

Record TextDecoder := {
  utf8 : Utf8Decoder;
  do_not_flush : bool;
  bom_seen : bool
}.

Definition new_TextDecoder : TextDecoder :=
  {| utf8 := utf8_new; do_not_flush := false; bom_seen := false |}.

(** [decoder.decode(value, { stream: true })]. *)
Definition decode (td : TextDecoder) (value : bytes) : TextDecoder * jsstring :=
  let td0 := if do_not_flush td then td
             else {| utf8 := utf8_new; do_not_flush := false;
                     bom_seen := false |} in
  let '(d', items) := utf8_run (utf8 td0) value in
  let '(seen', text) := serialize (bom_seen td0) items in
  ({| utf8 := d'; do_not_flush := true; bom_seen := seen' |}, text).

(** The UTF-8 encoding of a scalar value, used to state what the server put
    on the wire. *)
Definition utf8_encode (cp : Z) : bytes :=
  if cp <? 0x80 then [cp]
  else if cp <? 0x800 then
    [Z.lor 0xC0 (Z.shiftr cp 6); Z.lor 0x80 (Z.land cp 0x3F)]
  else if cp <? 0x10000 then
    [Z.lor 0xE0 (Z.shiftr cp 12);
     Z.lor 0x80 (Z.land (Z.shiftr cp 6) 0x3F);
     Z.lor 0x80 (Z.land cp 0x3F)]
  else
    [Z.lor 0xF0 (Z.shiftr cp 18);
     Z.lor 0x80 (Z.land (Z.shiftr cp 12) 0x3F);
     Z.lor 0x80 (Z.land (Z.shiftr cp 6) 0x3F);
     Z.lor 0x80 (Z.land cp 0x3F)].

Definition utf8_encodes (cps : list Z) : bytes := concat (map utf8_encode cps).

(** Unicode scalar values: code points that are not surrogates. *)
Definition scalar (cp : Z) : Prop :=
  0 <= cp <= 0x10FFFF /\ ~ (0xD800 <= cp <= 0xDFFF).

(** ** The transcript *)

Inductive Role := user | assistant.

Record ChatEntry := { role : Role; content : jsstring }.

Definition welcome : jsstring :=
  [0xD83D; 0xDC4B] ++ lit " Ready when you are. Type a prompt and hit Send.".

Definition cleared : jsstring :=
  [0xD83E; 0xDDF9] ++ lit " Chat history cleared. Fresh start!".

(** The updater passed to [setMessages] for a decoded chunk: copy the array
    and overwrite its last slot.  On an empty array [out[out.length - 1]] is
    [undefined] and reading its [content] throws: [None]. *)
Definition appendToLast (chunk : jsstring) (m : list ChatEntry)
  : option (list ChatEntry) :=
  let out := m in
  match out !! (length out - 1)%nat with
  | Some e =>
      Some (<[(length out - 1)%nat :=
               {| role := assistant; content := content e ++ chunk |}]> out)
  | None => None
  end.

(** ** Exceptions, responses and requests *)

Record Exn := { name : jsstring; message : jsstring }.

Definition AbortError : jsstring := lit "AbortError".

(** [new Error(`HTTP ${status}`)]. *)
Definition http_error (status : N) : Exn :=
  {| name := lit "Error"; message := lit "HTTP " ++ decimal status |}.

(** [Error.prototype.toString]. *)
Definition Error_toString (e : Exn) : jsstring :=
  if negb (truthy (name e)) then message e
  else if negb (truthy (message e)) then name e
  else name e ++ lit ": " ++ message e.

(** [String(e.message || e)]. *)
Definition describe (e : Exn) : jsstring :=
  if truthy (message e) then message e else Error_toString e.

Record Response := { ok : bool; status : N; body : bool }.

(** What [reader.read()] resolves to. *)
Record ReadResult := { value : option bytes; done : bool }.

Inductive ReqBody := NoBody | JsonPrompt (prompt : jsstring).

Record Request := {
  url : jsstring;
  method : jsstring;
  headers : list (jsstring * jsstring);
  req_body : ReqBody;
  signal : option nat
}.

(** ** The state of the component

    [controllers] is the heap of [AbortController]s created so far, each with
    the [aborted] flag of its signal; [abortRef] and the suspended [send]
    refer to a controller by its index, so that [cancel] and the stream see
    the same object.  [sending] is the call of [send] that is suspended at an
    [await]; [resetting] counts the calls of [resetChat] awaiting their
    [fetch]; [requests] is the log of the requests issued. *)

Inductive SendPhase :=
| AwaitFetch
| AwaitRead (td : TextDecoder).

Record SendTask := { controller : nat; phase : SendPhase }.

Record State := {
  apiBase : jsstring;
  token : jsstring;
  input : jsstring;
  messages : list ChatEntry;
  isSending : bool;
  error : jsstring;
  abortRef : option nat;
  controllers : list bool;
  sending : option SendTask;
  resetting : nat;
  requests : list Request
}.

Definition initial (base tok : jsstring) : State :=
  {| apiBase := base; token := tok; input := [];
     messages := [{| role := assistant; content := welcome |}];
     isSending := false; error := []; abortRef := None;
     controllers := []; sending := None; resetting := 0%nat;
     requests := [] |}.

Definition setApiBase (v : jsstring) (st : State) : State :=
  {| apiBase := v; token := token st; input := input st;
     messages := messages st; isSending := isSending st; error := error st;
     abortRef := abortRef st; controllers := controllers st;
     sending := sending st; resetting := resetting st;
     requests := requests st |}.

Definition setToken (v : jsstring) (st : State) : State :=
  {| apiBase := apiBase st; token := v; input := input st;
     messages := messages st; isSending := isSending st; error := error st;
     abortRef := abortRef st; controllers := controllers st;
     sending := sending st; resetting := resetting st;
     requests := requests st |}.

Definition setInput (v : jsstring) (st : State) : State :=
  {| apiBase := apiBase st; token := token st; input := v;
     messages := messages st; isSending := isSending st; error := error st;
     abortRef := abortRef st; controllers := controllers st;
     sending := sending st; resetting := resetting st;
     requests := requests st |}.

Definition setMessages (m : list ChatEntry) (st : State) : State :=
  {| apiBase := apiBase st; token := token st; input := input st;
     messages := m; isSending := isSending st; error := error st;
     abortRef := abortRef st; controllers := controllers st;
     sending := sending st; resetting := resetting st;
     requests := requests st |}.

Definition setIsSending (b : bool) (st : State) : State :=
  {| apiBase := apiBase st; token := token st; input := input st;
     messages := messages st; isSending := b; error := error st;
     abortRef := abortRef st; controllers := controllers st;
     sending := sending st; resetting := resetting st;
     requests := requests st |}.

Definition setError (v : jsstring) (st : State) : State :=
  {| apiBase := apiBase st; token := token st; input := input st;
     messages := messages st; isSending := isSending st; error := v;
     abortRef := abortRef st; controllers := controllers st;
     sending := sending st; resetting := resetting st;
     requests := requests st |}.

Definition set_abortRef (r : option nat) (st : State) : State :=
  {| apiBase := apiBase st; token := token st; input := input st;
     messages := messages st; isSending := isSending st; error := error st;
     abortRef := r; controllers := controllers st;
     sending := sending st; resetting := resetting st;
     requests := requests st |}.

Definition set_controllers (cs : list bool) (st : State) : State :=
  {| apiBase := apiBase st; token := token st; input := input st;
     messages := messages st; isSending := isSending st; error := error st;
     abortRef := abortRef st; controllers := cs;
     sending := sending st; resetting := resetting st;
     requests := requests st |}.

Definition set_sending (t : option SendTask) (st : State) : State :=
  {| apiBase := apiBase st; token := token st; input := input st;
     messages := messages st; isSending := isSending st; error := error st;
     abortRef := abortRef st; controllers := controllers st;
     sending := t; resetting := resetting st;
     requests := requests st |}.

Definition set_resetting (n : nat) (st : State) : State :=
  {| apiBase := apiBase st; token := token st; input := input st;
     messages := messages st; isSending := isSending st; error := error st;
     abortRef := abortRef st; controllers := controllers st;
     sending := sending st; resetting := n;
     requests := requests st |}.

(** [fetch(...)] up to the point where it returns its promise. *)
Definition issue (r : Request) (st : State) : State :=
  {| apiBase := apiBase st; token := token st; input := input st;
     messages := messages st; isSending := isSending st; error := error st;
     abortRef := abortRef st; controllers := controllers st;
     sending := sending st; resetting := resetting st;
     requests := requests st ++ [r] |}.

(** [setMessages] called with an updater; [None] when the updater throws. *)
Definition updateMessages (f : list ChatEntry -> option (list ChatEntry))
    (st : State) : option State :=
  match f (messages st) with
  | Some m => Some (setMessages m st)
  | None => None
  end.

(** Whether the signal of controller [c] has been aborted. *)
Definition aborted (st : State) (c : nat) : bool :=
  match controllers st !! c with
  | Some b => b
  | None => false
  end.

(** ** [send], [cancel], [resetChat] *)

Definition canSend (st : State) : bool :=
  truthy (apiBase st) && truthy (token st)
  && (0 <? Z.of_nat (length (trim (input st))))
  && negb (isSending st).

Definition generate_request (st : State) (c : nat) : Request :=
  {| url := apiBase st ++ lit "/generate_stream";
     method := lit "POST";
     headers := [(lit "Content-Type", lit "application/json");
                 (lit "Authorization", lit "Bearer " ++ token st)];
     req_body := JsonPrompt (input st);
     signal := Some c |}.

Definition reset_request (st : State) : Request :=
  {| url := apiBase st ++ lit "/reset";
     method := lit "POST";
     headers := [(lit "Authorization", lit "Bearer " ++ token st)];
     req_body := NoBody;
     signal := None |}.

(** The [finally] block of [send]. *)
Definition send_finally (st : State) : State :=
  set_sending None (set_abortRef None (setIsSending false st)).

(** The [catch] block of [send], followed by [finally]. *)
Definition send_catch (e : Exn) (st : State) : State :=
  send_finally
    (if negb (bool_decide (name e = AbortError))
     then setError (describe e) st
     else st).

(** [send] from the guard to the first [await]. *)
Definition send (st : State) : State :=
  if negb (canSend st) then st
  else
    let st1 := setError [] st in
    let userMsg := {| role := user; content := input st |} in
    let assistantMsg := {| role := assistant; content := [] |} in
    let st2 := setMessages (messages st1 ++ [userMsg; assistantMsg]) st1 in
    let st3 := setInput [] st2 in
    let c := length (controllers st3) in
    let st4 := set_abortRef (Some c)
                 (set_controllers (controllers st3 ++ [false]) st3) in
    let st5 := setIsSending true st4 in
    set_sending (Some {| controller := c; phase := AwaitFetch |})
      (issue (generate_request st c) st5).

(** [send] resumed with the response of [fetch]. *)
Definition send_fetched (c : nat) (res : Response) (st : State) : State :=
  if negb (ok res) || negb (body res)
  then send_catch (http_error (status res)) st
  else set_sending
         (Some {| controller := c; phase := AwaitRead new_TextDecoder |}) st.

(** One turn of the [while] loop, resumed with the result of
    [reader.read()]. *)
Definition send_read (c : nat) (td : TextDecoder) (r : ReadResult)
    (st : State) : option State :=
  let appended :=
    match value r with
    | Some v =>
        let '(td', chunk) := decode td v in
        match updateMessages (appendToLast chunk) st with
        | Some st' => Some (td', st')
        | None => None
        end
    | None => Some (td, st)
    end in
  match appended with
  | Some (td', st') =>
      if done r then Some (send_finally st')
      else Some (set_sending
                   (Some {| controller := c; phase := AwaitRead td' |}) st')
  | None => None
  end.

Definition cancel (st : State) : State :=
  match abortRef st with
  | Some c => set_controllers (<[c := true]> (controllers st)) st
  | None => st
  end.

Definition onKeyDown (key : jsstring) (shiftKey : bool) (st : State) : State :=
  if bool_decide (key = lit "Enter") && negb shiftKey then send st else st.

(** [resetChat] up to its [await]. *)
Definition resetChat (st : State) : State :=
  set_resetting (S (resetting st)) (issue (reset_request st) (setError [] st)).

Definition reset_catch (e : Exn) (st : State) : State :=
  setError (describe e) st.

(** [resetChat] resumed with the response of [fetch]. *)
Definition reset_fetched (res : Response) (st : State) : State :=
  if negb (ok res) then reset_catch (http_error (status res)) st
  else setMessages [{| role := assistant; content := cleared |}] st.

(** The "Reset" button of the settings bar (its two [removeItem] calls act
    on the storage, which is modelled apart, below). *)
Definition clearSettings (st : State) : State :=
  setToken [] (setApiBase [] st).

(** ** Events

    User events are always possible.  A promise of the suspended [send] can
    only settle while [send] is suspended on it, and once the signal of its
    controller is aborted it can only reject with an [AbortError]. *)

Inductive Event :=
| SetApiBase (v : jsstring)
| SetToken (v : jsstring)
| ClearSettings
| SetInput (v : jsstring)
| Send
| KeyDown (key : jsstring) (shiftKey : bool)
| Cancel
| ResetChat
| FetchResolved (res : Response)
| FetchRejected (e : Exn)
| ReadResolved (r : ReadResult)
| ReadRejected (e : Exn)
| ResetResolved (res : Response)
| ResetRejected (e : Exn).

Definition may_reject (st : State) (c : nat) (e : Exn) : bool :=
  negb (aborted st c) || bool_decide (name e = AbortError).

(** One event; [None] when the event cannot occur in [st], or when a state
    updater throws. *)
Definition step (st : State) (ev : Event) : option State :=
  match ev with
  | SetApiBase v => Some (setApiBase v st)
  | SetToken v => Some (setToken v st)
  | ClearSettings => Some (clearSettings st)
  | SetInput v => Some (setInput v st)
  | Send => Some (send st)
  | KeyDown key shiftKey => Some (onKeyDown key shiftKey st)
  | Cancel => Some (cancel st)
  | ResetChat => Some (resetChat st)
  | FetchResolved res =>
      match sending st with
      | Some {| controller := c; phase := AwaitFetch |} =>
          if aborted st c then None else Some (send_fetched c res st)
      | _ => None
      end
  | FetchRejected e =>
      match sending st with
      | Some {| controller := c; phase := AwaitFetch |} =>
          if may_reject st c e then Some (send_catch e st) else None
      | _ => None
      end
  | ReadResolved r =>
      match sending st with
      | Some {| controller := c; phase := AwaitRead td |} =>
          if aborted st c then None else send_read c td r st
      | _ => None
      end
  | ReadRejected e =>
      match sending st with
      | Some {| controller := c; phase := AwaitRead td |} =>
          if may_reject st c e then Some (send_catch e st) else None
      | _ => None
      end
  | ResetResolved res =>
      match resetting st with
      | S n => Some (set_resetting n (reset_fetched res st))
      | O => None
      end
  | ResetRejected e =>
      match resetting st with
      | S n => Some (set_resetting n (reset_catch e st))
      | O => None
      end
  end.

Fixpoint run (st : State) (evs : list Event) : option State :=
  match evs with
  | [] => Some st
  | ev :: evs' =>
      match step st ev with
      | Some st' => run st' evs'
      | None => None
      end
  end.

(** The events of the stream of one [send]. *)
Definition chunk_read (v : bytes) : Event :=
  ReadResolved {| value := Some v; done := false |}.

Definition end_of_stream : Event :=
  ReadResolved {| value := None; done := true |}.

(** The texts that the loop of [send] computes from the byte chunks: the
    successive values of its variable [chunk]. *)
Fixpoint decoded_chunks (td : TextDecoder) (vs : list bytes) : list jsstring :=
  match vs with
  | [] => []
  | v :: vs' => let '(td', chunk) := decode td v in
                chunk :: decoded_chunks td' vs'
  end.

Fixpoint decoder_after (td : TextDecoder) (vs : list bytes) : TextDecoder :=
  match vs with
  | [] => td
  | v :: vs' => decoder_after (fst (decode td v)) vs'
  end.

(** ** [useLocalStorage]

    [localStorage] is a map from keys to strings whose operations may throw
    (access denied, quota exceeded).  Each operation takes the exception the
    storage layer raises on that call, if any. *)

Module LocalStorage.

Inductive Outcome (A : Type) :=
| Returns (a : A)
| Throws (e : Exn).
Arguments Returns {A} a.
Arguments Throws {A} e.

(** The values the hook can hold. *)
Inductive JsVal :=
| Undefined
| Null
| Str (s : jsstring).

Definition getItem (fault : option Exn) (key : jsstring)
    (store : gmap (list Z) (list Z)) : Outcome (option jsstring) :=
  match fault with
  | Some e => Throws e
  | None => Returns (store !! key)
  end.

Definition setItem (fault : option Exn) (key v : jsstring)
    (store : gmap (list Z) (list Z))
  : Outcome unit * gmap (list Z) (list Z) :=
  match fault with
  | Some e => (Throws e, store)
  | None => (Returns tt, <[key := v]> store)
  end.

Definition removeItem (fault : option Exn) (key : jsstring)
    (store : gmap (list Z) (list Z))
  : Outcome unit * gmap (list Z) (list Z) :=
  match fault with
  | Some e => (Throws e, store)
  | None => (Returns tt, delete key store)
  end.

(** The initialiser passed to [useState]. *)
Definition load (fault : option Exn) (key : jsstring) (initialValue : JsVal)
    (store : gmap (list Z) (list Z)) : Outcome JsVal :=
  match getItem fault key store with
  | Returns (Some v) => Returns (Str v)
  | Returns None => Returns initialValue
  | Throws _ => Returns initialValue
  end.

(** The body of the [try] in the effect. *)
Definition persist_body (fault : option Exn) (key : jsstring) (val : JsVal)
    (store : gmap (list Z) (list Z))
  : Outcome unit * gmap (list Z) (list Z) :=
  match val with
  | Undefined | Null | Str [] => removeItem fault key store
  | Str s => setItem fault key s store
  end.

(** The effect that runs after [val] changes: [try { ... } catch {}]. *)
Definition persist (fault : option Exn) (key : jsstring) (val : JsVal)
    (store : gmap (list Z) (list Z))
  : Outcome unit * gmap (list Z) (list Z) :=
  match persist_body fault key val store with
  | (Returns u, store') => (Returns u, store')
  | (Throws _, store') => (Returns tt, store')
  end.

(** [setVal(v)] followed by the effect: the new in-memory value, how the
    call ends, and the new store. *)
Definition set (fault : option Exn) (key : jsstring) (v : JsVal)
    (store : gmap (list Z) (list Z))
  : JsVal * Outcome unit * gmap (list Z) (list Z) :=
  let '(o, store') := persist fault key v store in (v, o, store').

End LocalStorage.

(** ** The two settings of [App] and the "Reset" button of the settings bar

    [App] calls [useLocalStorage] twice, for the base URL and for the token.
    A render runs the effect of a hook when its value has changed; the first
    render runs both. *)

Module Settings.
Import LocalStorage.

#[global] Instance JsVal_eq_dec : EqDecision JsVal.
Proof. solve_decision. Defined.

Definition KEY_BASE : jsstring := lit "vc_apiBase".
Definition KEY_TOKEN : jsstring := lit "vc_apiToken".
Definition DEFAULT_BASE : jsstring := lit "http://localhost:8000".

(** The two build-time variables read from [import.meta.env]; [None] when a
    variable is not defined. *)
Record Env := {
  VITE_API_BASE : option jsstring;
  VITE_API_TOKEN : option jsstring
}.

(** [import.meta.env.X || d]: an undefined or empty variable gives [d]. *)
Definition or_default (x : option jsstring) (d : jsstring) : jsstring :=
  match x with
  | Some (c :: s) => c :: s
  | Some [] | None => d
  end.

(** The values of the two hooks and the storage. *)
Record Saved := {
  apiBase : JsVal;
  token : JsVal;
  store : gmap (list Z) (list Z)
}.

(** The value a hook starts with. *)
Definition initial_value (fault : option Exn) (key : jsstring)
    (initialValue : JsVal) (st : gmap (list Z) (list Z)) : JsVal :=
  match load fault key initialValue st with
  | Returns v => v
  | Throws _ => initialValue
  end.

(** The first render of [App]: the two initialisers, then the two effects.
    The four faults are those of the two [getItem] and of the two writes. *)
Definition mount (env : Env) (g1 g2 w1 w2 : option Exn)
    (st : gmap (list Z) (list Z)) : Saved :=
  let b := initial_value g1 KEY_BASE
             (Str (or_default (VITE_API_BASE env) DEFAULT_BASE)) st in
  let t := initial_value g2 KEY_TOKEN
             (Str (or_default (VITE_API_TOKEN env) [])) st in
  let st1 := snd (persist w1 KEY_BASE b st) in
  let st2 := snd (persist w2 KEY_TOKEN t st1) in
  {| apiBase := b; token := t; store := st2 |}.

(** [setApiBase(v)] from the input of the settings bar, and the render that
    follows; setting the value a hook already has changes nothing. *)
Definition change_base (w : option Exn) (v : jsstring) (s : Saved) : Saved :=
  if decide (Str v = apiBase s) then s
  else {| apiBase := Str v; token := token s;
          store := snd (persist w KEY_BASE (Str v) (store s)) |}.

Definition change_token (w : option Exn) (v : jsstring) (s : Saved) : Saved :=
  if decide (Str v = token s) then s
  else {| apiBase := apiBase s; token := Str v;
          store := snd (persist w KEY_TOKEN (Str v) (store s)) |}.

(** The click handler of "Reset": two [removeItem] outside any [try], then
    the two setters; with the render that follows when it returns. *)
Definition clearSaved (r1 r2 w1 w2 : option Exn) (s : Saved)
  : Outcome unit * Saved :=
  match removeItem r1 KEY_BASE (store s) with
  | (Throws e, st1) =>
      (Throws e, {| apiBase := apiBase s; token := token s; store := st1 |})
  | (Returns _, st1) =>
      match removeItem r2 KEY_TOKEN st1 with
      | (Throws e, st2) =>
          (Throws e,
           {| apiBase := apiBase s; token := token s; store := st2 |})
      | (Returns _, st2) =>
          (Returns tt,
           change_token w2 []
             (change_base w1 []
                {| apiBase := apiBase s; token := token s; store := st2 |}))
      end
  end.

(** No key is stored with the empty string. *)
Definition no_blank (st : gmap (list Z) (list Z)) : Prop :=
  forall k v, st !! k = Some v -> v <> [].

(** What the storage holds for a value once its effect has run. *)
Definition stored (v : JsVal) : option jsstring :=
  match v with
  | Str (c :: s) => Some (c :: s)
  | Str [] | Undefined | Null => None
  end.

End Settings.

(** ** What the composer shows

    The button at the right of the composer is Cancel while [isSending] and
    Send otherwise, the latter disabled when [canSend] is false; the banner
    above the composer shows the error when it is not empty. *)

Inductive Control :=
| CancelButton
| SendButton (disabled : bool).

Definition control (st : State) : Control :=
  if isSending st then CancelButton else SendButton (negb (canSend st)).

Definition banner (st : State) : option jsstring :=
  if truthy (error st) then Some (error st) else None.

(** A click on the button shown; a disabled button gets no click. *)
Definition click_control (st : State) : State :=
  match control st with
  | CancelButton => cancel st
  | SendButton true => st
  | SendButton false => send st
  end.

(** ** The body of the request

    [JSON.stringify({ prompt })] is the text [{"prompt":<string>}], where
    the string is what ECMAScript's QuoteJSONString makes of the prompt: it
    goes through the code points of the string, writes the seven escapes of
    the table, writes any other code unit below U+0020 and any lone
    surrogate as a lower-case [\uXXXX], and copies everything else. *)

Definition is_lead_surrogate (c : Z) : bool := (0xD800 <=? c) && (c <=? 0xDBFF).
Definition is_trail_surrogate (c : Z) : bool := (0xDC00 <=? c) && (c <=? 0xDFFF).

Definition hex_digit (n : Z) : Z :=
  if n <? 10 then 0x30 + n else 0x61 + (n - 10).

Definition BACKSLASH : Z := 0x5C.
Definition QUOTE : Z := 0x22.

Definition UnicodeEscape (c : Z) : jsstring :=
  [BACKSLASH; 0x75;
   hex_digit (Z.land (Z.shiftr c 12) 0xF);
   hex_digit (Z.land (Z.shiftr c 8) 0xF);
   hex_digit (Z.land (Z.shiftr c 4) 0xF);
   hex_digit (Z.land c 0xF)].

(** One code unit that is not a surrogate. *)
Definition quote_unit (c : Z) : jsstring :=
  if c =? 0x08 then [BACKSLASH; 0x62]
  else if c =? 0x09 then [BACKSLASH; 0x74]
  else if c =? 0x0A then [BACKSLASH; 0x6E]
  else if c =? 0x0C then [BACKSLASH; 0x66]
  else if c =? 0x0D then [BACKSLASH; 0x72]
  else if c =? QUOTE then [BACKSLASH; QUOTE]
  else if c =? BACKSLASH then [BACKSLASH; BACKSLASH]
  else if c <? 0x20 then UnicodeEscape c
  else [c].

Fixpoint quote_units (s : jsstring) : jsstring :=
  match s with
  | [] => []
  | c :: rest =>
      if is_lead_surrogate c then
        match rest with
        | d :: rest' =>
            if is_trail_surrogate d then c :: d :: quote_units rest'
            else UnicodeEscape c ++ quote_units rest
        | [] => UnicodeEscape c
        end
      else if is_trail_surrogate c then UnicodeEscape c ++ quote_units rest
      else quote_unit c ++ quote_units rest
  end.

Definition QuoteJSONString (s : jsstring) : jsstring :=
  [QUOTE] ++ quote_units s ++ [QUOTE].

(** The text of a request body. *)
Definition body_text (b : ReqBody) : option jsstring :=
  match b with
  | NoBody => None
  | JsonPrompt p =>
      Some (lit "{" ++ [QUOTE] ++ lit "prompt" ++ [QUOTE] ++ lit ":"
            ++ QuoteJSONString p ++ lit "}")
  end.

(** A reader of the characters of a JSON string, as a server has it: the
    inverse the statements compare [quote_units] with. *)
Inductive ReadState :=
| Plain
| Escaped
| Hex (digits : list Z).

Definition hex_value (c : Z) : option Z :=
  if (0x30 <=? c) && (c <=? 0x39) then Some (c - 0x30)
  else if (0x61 <=? c) && (c <=? 0x66) then Some (c - 0x61 + 10)
  else if (0x41 <=? c) && (c <=? 0x46) then Some (c - 0x41 + 10)
  else None.

Definition unescape (c : Z) : option Z :=
  if c =? 0x62 then Some 0x08
  else if c =? 0x74 then Some 0x09
  else if c =? 0x6E then Some 0x0A
  else if c =? 0x66 then Some 0x0C
  else if c =? 0x72 then Some 0x0D
  else if c =? QUOTE then Some QUOTE
  else if c =? BACKSLASH then Some BACKSLASH
  else if c =? 0x2F then Some 0x2F
  else None.

Fixpoint read_units (st : ReadState) (s : jsstring) : option jsstring :=
  match s with
  | [] => match st with Plain => Some [] | _ => None end
  | c :: rest =>
      match st with
      | Plain =>
          if c =? BACKSLASH then read_units Escaped rest
          else if (c <? 0x20) || (c =? QUOTE) then None
          else cons c <$> read_units Plain rest
      | Escaped =>
          if c =? 0x75 then read_units (Hex []) rest
          else match unescape c with
               | Some x => cons x <$> read_units Plain rest
               | None => None
               end
      | Hex ds =>
          match hex_value c with
          | None => None
          | Some v =>
              match ds with
              | [d3; d2; d1] =>
                  cons (((d3 * 16 + d2) * 16 + d1) * 16 + v)
                    <$> read_units Plain rest
              | _ => read_units (Hex (ds ++ [v])) rest
              end
          end
      end
  end.

(** A JavaScript string: its code units are 16-bit. *)
Definition code_units (s : jsstring) : Prop :=
  Forall (fun c => 0 <= c < 65536) s.

(** ** Vocabulary of the statements *)

(** The last entry after the chunks [chunks] have been appended to [e], one
    updater call per chunk. *)
Definition absorb (e : ChatEntry) (chunks : list jsstring) : ChatEntry :=
  fold_left (fun e chunk =>
               {| role := assistant; content := content e ++ chunk |})
            chunks e.

(** [st] with [send] suspended in its loop and the transcript [m]. *)
Definition streaming (c : nat) (td : TextDecoder) (m : list ChatEntry)
    (st : State) : State :=
  set_sending (Some {| controller := c; phase := AwaitRead td |})
    (setMessages m st).

(** A response that lets [send] enter its loop. *)
Definition streamable (res : Response) : bool := ok res && body res.

(** No [send] is suspended only if the sending flag is off and [abortRef]
    holds no controller. *)
Definition idle_clean (st : State) : Prop :=
  sending st = None -> isSending st = false /\ abortRef st = None.

(** An exception that the [catch] of [send] takes for a cancellation. *)
Definition abort_exn (msg : jsstring) : Exn :=
  {| name := AbortError; message := msg |}.

(** The postcondition of [send]: no suspended call, sending flag off,
    [abortRef] cleared. *)
Definition finished (st : State) : Prop :=
  sending st = None /\ isSending st = false /\ abortRef st = None.

(** Whether the next code point that [td] emits is checked against U+FEFF:
    at the start of the stream, and as long as nothing has been emitted. *)
Definition bom_pending (td : TextDecoder) : bool :=
  negb (do_not_flush td && bom_seen td).

(** Whether [td] drops the first of the code points [cps] as a byte-order
    mark. *)
Definition bom_dropped (td : TextDecoder) (cps : list Z) : bool :=
  bom_pending td && match cps with
                    | cp :: _ => cp =? BOM
                    | [] => false
                    end.

(** The states the UTF-8 decoder can be in: at a character boundary, or in
    the middle of a character with boundaries among the continuation
    bytes. *)
Definition utf8_wf (d : Utf8Decoder) : Prop :=
  d = utf8_new
  \/ (bytes_needed d <> 0
      /\ 0x80 <= lower_boundary d /\ upper_boundary d <= 0xBF).

Definition td_wf (td : TextDecoder) : Prop :=
  do_not_flush td = true -> utf8_wf (utf8 td).

(** What [td] emits for a character it was left in the middle of, when the
    next byte starts a new character: U+FFFD, or nothing at a boundary. *)
Definition resync (td : TextDecoder) : list Z :=
  if do_not_flush td && negb (bytes_needed (utf8 td) =? 0)
  then [REPLACEMENT] else [].

(** What holds of every state the component can reach: the transcript is
    not empty, and the sending flag and [abortRef] tell whether a call of
    [send] is suspended, and on which controller. *)
Definition consistent (st : State) : Prop :=
  messages st <> []
  /\ match sending st with
     | Some t =>
         isSending st = true
         /\ abortRef st = Some (controller t)
         /\ (controller t < length (controllers st))%nat
     | None => isSending st = false /\ abortRef st = None
     end.

(** Whether [cp], coming after the characters [pre], is the code point that
    [td] drops as a byte-order mark: it is U+FEFF and the first code point
    of the stream. *)
Definition dropped_as_bom (td : TextDecoder) (pre : list Z) (cp : Z) : bool :=
  match resync td ++ pre with
  | [] => bom_dropped td [cp]
  | _ :: _ => false
  end.

(** The code points that [td] lets through, of those in [cps]. *)
Definition kept (td : TextDecoder) (cps : list Z) : list Z :=
  if bom_dropped td cps then tail cps else cps.

(** The states the component can be in: those a sequence of events leads to
    from the first render, whatever the settings found at startup. *)
Definition reachable (st : State) : Prop :=
  exists (base tok : jsstring) (evs : list Event),
    run (initial base tok) evs = Some st.

(** The open entry of the transcript is an assistant entry. *)
Definition last_is_assistant (m : list ChatEntry) : Prop :=
  exists e, last m = Some e /\ role e = assistant.

(** [m'] keeps every entry of [m] but the last as it is, keeps the text of
    the last one as a prefix, and may have more entries after it. *)
Definition grows (m m' : list ChatEntry) : Prop :=
  exists (h : list ChatEntry) (e e' : ChatEntry) (more : list ChatEntry),
    m = h ++ [e] /\ m' = h ++ e' :: more
    /\ content e `prefix_of` content e'.

(** The two shapes of request the component builds. *)
Definition generate_shaped (r : Request) : Prop :=
  exists (base tok prompt : jsstring) (c : nat),
    base <> [] /\ tok <> [] /\ trim prompt <> []
    /\ r = {| url := base ++ lit "/generate_stream";
              method := lit "POST";
              headers := [(lit "Content-Type", lit "application/json");
                          (lit "Authorization", lit "Bearer " ++ tok)];
              req_body := JsonPrompt prompt;
              signal := Some c |}.

Definition reset_shaped (r : Request) : Prop :=
  exists base tok : jsstring,
    r = {| url := base ++ lit "/reset";
           method := lit "POST";
           headers := [(lit "Authorization", lit "Bearer " ++ tok)];
           req_body := NoBody;
           signal := None |}.

(** The requests that the event [ev] issues in [st]. *)
Definition issued (st : State) (ev : Event) : list Request :=
  match ev with
  | Send =>
      if canSend st then [generate_request st (length (controllers st))]
      else []
  | KeyDown key shiftKey =>
      if bool_decide (key = lit "Enter") && negb shiftKey && canSend st
      then [generate_request st (length (controllers st))]
      else []
  | ResetChat => [reset_request st]
  | _ => []
  end.

(** What holds of the request log: the shapes of its entries, and one
    controller of the heap per signal. *)
Definition log_ok (st : State) : Prop :=
  Forall (fun r => generate_shaped r \/ reset_shaped r) (requests st)
  /\ Forall (fun c => (c < length (controllers st))%nat)
       (omap signal (requests st))
  /\ NoDup (omap signal (requests st)).



(** The error after the event [ev] in [st]: what the handlers and the
    [catch] blocks set it to. *)
Definition error_after (st : State) (ev : Event) : jsstring :=
  let caught (e : Exn) :=
    if bool_decide (name e = AbortError) then error st else describe e in
  match ev with
  | Send => if canSend st then [] else error st
  | KeyDown key shiftKey =>
      if bool_decide (key = lit "Enter") && negb shiftKey && canSend st
      then [] else error st
  | ResetChat => []
  | FetchResolved res =>
      if streamable res then error st
      else lit "HTTP " ++ decimal (status res)
  | FetchRejected e | ReadRejected e => caught e
  | ResetResolved res =>
      if ok res then error st else lit "HTTP " ++ decimal (status res)
  | ResetRejected e => describe e
  | SetApiBase _ | SetToken _ | ClearSettings | SetInput _ | Cancel
  | ReadResolved _ => error st
  end.

(** ** Events between those of a stream *)

(** The settling of a promise that [send] awaits. *)
Definition stream_event (ev : Event) : bool :=
  match ev with
  | FetchResolved _ | FetchRejected _ | ReadResolved _ | ReadRejected _ => true
  | _ => false
  end.

(** The success of a [resetChat]. *)
Definition reset_success (ev : Event) : bool :=
  match ev with
  | ResetResolved res => ok res
  | _ => false
  end.

(** What may happen between two events of a stream, the success of a reset
    apart: edits, clicks, keys, [cancel], and resets that fail. *)
Definition bystander (ev : Event) : bool :=
  negb (stream_event ev) && negb (reset_success ev).

(** The user events that are possible in every state and leave the stream
    alive: all of them but [cancel]. *)
Definition user_edit (ev : Event) : bool :=
  match ev with
  | SetApiBase _ | SetToken _ | ClearSettings | SetInput _
  | Send | KeyDown _ _ | ResetChat => true
  | _ => false
  end.

(** The events [evs] with the events of [gaps] between them: the first gap
    before the first event, and so on; a missing gap is empty. *)
Fixpoint weave (gaps : list (list Event)) (evs : list Event) : list Event :=
  match evs with
  | [] => []
  | ev :: evs' =>
      match gaps with
      | gap :: gaps' => gap ++ ev :: weave gaps' evs'
      | [] => ev :: weave [] evs'
      end
  end.

(** [send] is suspended on controller [c] in phase [ph], with the
    transcript [m]. *)
Definition in_flight (c : nat) (ph : SendPhase) (m : list ChatEntry)
    (st : State) : Prop :=
  sending st = Some {| controller := c; phase := ph |}
  /\ isSending st = true
  /\ messages st = m.

(** * Properties *)

(** ** The guard *)

Lemma truthy_false (s : jsstring) : truthy s = false <-> s = [].
Proof. destruct s; simpl; split; congruence. Qed.

Lemma truthy_true (s : jsstring) : truthy s = true <-> s <> [].
Proof. destruct s; simpl; split; congruence. Qed.

Lemma length_pos_false (s : jsstring) :
  (0 <? Z.of_nat (length s)) = false <-> s = [].
Proof.
  destruct s as [|c s]; simpl length.
  - split; reflexivity.
  - split; [|discriminate]. intros H. apply Z.ltb_ge in H. lia.
Qed.

(** C2: [canSend] is false exactly when the endpoint base is empty, or the
    token is empty, or the trimmed input is empty, or a send is in progress;
    in every other state it is true. *)
Theorem canSend_spec (st : State) :
  (canSend st = false <->
     apiBase st = [] \/ token st = [] \/ trim (input st) = []
     \/ isSending st = true)
  /\ (canSend st = true <->
        apiBase st <> [] /\ token st <> [] /\ trim (input st) <> []
        /\ isSending st = false).
Proof.
  unfold canSend. split.
  - rewrite !andb_false_iff, negb_false_iff, !truthy_false, length_pos_false.
    tauto.
  - rewrite !andb_true_iff, negb_true_iff, !truthy_true.
    rewrite <- (not_false_iff_true (0 <? _)), length_pos_false. tauto.
Qed.

Example canSend_blank_input :
  canSend (setInput (lit "  ") (initial (lit "http://x") (lit "t"))) = false.
Proof. reflexivity. Qed.

Example canSend_ready :
  canSend (setInput (lit " hello ") (initial (lit "http://x") (lit "t"))) = true.
Proof. reflexivity. Qed.

(** C3: when [canSend] is false, [send] changes nothing: the transcript, the
    input, the error, the sending flag and every other field are as before,
    and the request log has no new entry.  The same holds for a click on
    Send and for Enter in the composer. *)
Theorem send_blocked_noop (st : State) :
  canSend st = false ->
  send st = st
  /\ step st Send = Some st
  /\ (forall shiftKey, step st (KeyDown (lit "Enter") shiftKey) = Some st)
  /\ messages (send st) = messages st
  /\ input (send st) = input st
  /\ error (send st) = error st
  /\ isSending (send st) = isSending st
  /\ requests (send st) = requests st.
Proof.
  intros H.
  assert (Hs : send st = st) by (unfold send; rewrite H; reflexivity).
  rewrite !Hs. repeat split; try reflexivity.
  - simpl. now rewrite Hs.
  - intros sh. simpl. unfold onKeyDown.
    destruct (_ && _); now rewrite ?Hs.
Qed.

Lemma send_blocked_noop_witness :
  let st := setInput (lit "anything") (initial (lit "http://x") []) in
  canSend st = false /\ send st = st /\ requests (send st) = [].
Proof.
  intros st.
  assert (H : canSend st = false) by reflexivity.
  split; [exact H|].
  pose proof (send_blocked_noop st H) as (Hs & _ & _ & _ & _ & _ & _ & Hr).
  split; [exact Hs|]. rewrite Hr. reflexivity.
Defined.

(** ** [resetChat] *)

(** C6: after [resetChat], a success status replaces the whole transcript by
    the single confirmation entry; a non-success status or a rejected
    [fetch] leaves the transcript as it was and sets the error to the
    failure's text. *)
Theorem resetChat_outcome (st : State) :
  (forall res, exists st',
      run st [ResetChat; ResetResolved res] = Some st'
      /\ if ok res
         then messages st' = [{| role := assistant; content := cleared |}]
              /\ error st' = []
         else messages st' = messages st
              /\ error st' = lit "HTTP " ++ decimal (status res))
  /\ (forall e, exists st',
         run st [ResetChat; ResetRejected e] = Some st'
         /\ messages st' = messages st
         /\ error st' = describe e).
Proof.
  split.
  - intros res. simpl. unfold reset_fetched.
    destruct (ok res); simpl; eexists; (split; [reflexivity|]); simpl; auto.
  - intros e. simpl. eexists. split; [reflexivity|]. simpl; auto.
Qed.

Example resetChat_500 :
  error <$> run (initial (lit "http://x") (lit "t"))
          [ResetChat; ResetResolved {| ok := false; status := 500; body := true |}]
  = Some (lit "HTTP 500").
Proof. reflexivity. Qed.

(** ** Settings storage *)

Module LocalStorageFacts.
Import LocalStorage.

Lemma persist_returns (fault : option Exn) (key : jsstring) (val : JsVal)
    (store : gmap (list Z) (list Z)) :
  fst (persist fault key val store) = Returns tt.
Proof.
  unfold persist.
  destruct (persist_body fault key val store) as [[[]|e] s']; reflexivity.
Qed.

Lemma load_returns (fault : option Exn) (key : jsstring) (init : JsVal)
    (store : gmap (list Z) (list Z)) :
  exists v, load fault key init store = Returns v.
Proof.
  unfold load, getItem. destruct fault; [eauto|].
  destruct (store !! key); eauto.
Qed.

End LocalStorageFacts.

(** C8: for every key, setting a non-empty value stores it under the key;
    setting the empty string, [null] or [undefined] removes the key; the
    effect and the load never throw, whatever the storage layer raises: the
    in-memory value is kept on a failed write and the default is used on a
    failed read. *)
Theorem useLocalStorage_best_effort (key : jsstring)
    (store : gmap (list Z) (list Z)) :
  (forall c s, exists store',
      LocalStorage.set None key (LocalStorage.Str (c :: s)) store
      = (LocalStorage.Str (c :: s), LocalStorage.Returns tt, store')
      /\ store' !! key = Some (c :: s))
  /\ Forall (fun v => exists store',
                LocalStorage.set None key v store
                = (v, LocalStorage.Returns tt, store')
                /\ store' !! key = None)
       [LocalStorage.Undefined; LocalStorage.Null; LocalStorage.Str []]
  /\ (forall fault v,
        exists store',
          LocalStorage.set fault key v store
          = (v, LocalStorage.Returns tt, store'))
  /\ (forall e v,
        LocalStorage.set (Some e) key v store
        = (v, LocalStorage.Returns tt, store))
  /\ (forall init,
        LocalStorage.load None key init store
        = LocalStorage.Returns
            (match store !! key with
             | Some s => LocalStorage.Str s
             | None => init
             end))
  /\ (forall e init,
        LocalStorage.load (Some e) key init store = LocalStorage.Returns init).
Proof.
  split_and!.
  - intros c s. eexists. split; [reflexivity|]. apply lookup_insert_eq.
  - repeat constructor;
      (eexists; split; [reflexivity|]; apply lookup_delete_eq).
  - intros fault v. unfold LocalStorage.set.
    pose proof (LocalStorageFacts.persist_returns fault key v store) as H.
    destruct (LocalStorage.persist fault key v store) as [o s'].
    simpl in H. subst o. eauto.
  - intros e v. destruct v as [| |[|c s]]; reflexivity.
  - intros init. unfold LocalStorage.load. simpl.
    destruct (store !! key); reflexivity.
  - intros e init. reflexivity.
Qed.

(** ** Appending to the last entry *)

Lemma appendToLast_snoc (chunk : jsstring) (m : list ChatEntry) (e : ChatEntry) :
  appendToLast chunk (m ++ [e])
  = Some (m ++ [{| role := assistant; content := content e ++ chunk |}]).
Proof.
  unfold appendToLast.
  assert (Hlen : (length (m ++ [e]) - 1)%nat = length m)
    by (rewrite length_app; simpl; lia).
  rewrite Hlen, list_lookup_middle by reflexivity.
  f_equal. rewrite insert_app_r_alt by lia.
  replace (length m - length m)%nat with 0%nat by lia. reflexivity.
Qed.

Lemma appendToLast_empty (chunk : jsstring) : appendToLast chunk [] = None.
Proof. reflexivity. Qed.

Lemma appendToLast_length (chunk : jsstring) (m m' : list ChatEntry) :
  appendToLast chunk m = Some m' -> length m' = length m.
Proof.
  unfold appendToLast. destruct (m !! _); [|discriminate].
  intros [= <-]. apply length_insert.
Qed.

Lemma absorb_cons (c : jsstring) (chunks : list jsstring) (e : ChatEntry) :
  absorb e (c :: chunks)
  = absorb {| role := assistant; content := content e ++ c |} chunks.
Proof. reflexivity. Qed.

Lemma absorb_content (chunks : list jsstring) (e : ChatEntry) :
  content (absorb e chunks) = content e ++ concat chunks.
Proof.
  revert e. induction chunks as [|c cs IH]; intros e.
  - simpl. now rewrite app_nil_r.
  - rewrite absorb_cons, IH. simpl. now rewrite app_assoc.
Qed.

Lemma absorb_role (c : jsstring) (chunks : list jsstring) (e : ChatEntry) :
  role (absorb e (c :: chunks)) = assistant.
Proof.
  rewrite absorb_cons. generalize (content e ++ c). clear e c.
  induction chunks as [|c cs IH]; intros s; [reflexivity|].
  rewrite absorb_cons. apply IH.
Qed.

Lemma absorb_assistant (chunks : list jsstring) (s : jsstring) :
  absorb {| role := assistant; content := s |} chunks
  = {| role := assistant; content := s ++ concat chunks |}.
Proof.
  revert s. induction chunks as [|c cs IH]; intros s.
  - simpl. now rewrite app_nil_r.
  - rewrite absorb_cons, IH. simpl. now rewrite app_assoc.
Qed.

(** ** The loop of [send] *)

(** One chunk: the decoded text goes to whatever entry is last. *)
Lemma step_chunk (c : nat) (td : TextDecoder) (m : list ChatEntry)
    (e : ChatEntry) (v : bytes) (st : State) :
  aborted st c = false ->
  step (streaming c td (m ++ [e]) st) (chunk_read v)
  = Some (streaming c (fst (decode td v))
            (m ++ [{| role := assistant;
                      content := content e ++ snd (decode td v) |}]) st).
Proof.
  intros Ha. unfold chunk_read. cbn [step streaming set_sending sending].
  replace (aborted _ c) with (aborted st c) by reflexivity. rewrite Ha.
  unfold send_read. cbn [value done].
  destruct (decode td v) as [td' chunk]. unfold updateMessages.
  change (messages (streaming c td (m ++ [e]) st)) with (m ++ [e]).
  rewrite appendToLast_snoc. reflexivity.
Qed.

Lemma run_chunks (vs : list bytes) : forall (c : nat) (td : TextDecoder)
    (m : list ChatEntry) (e : ChatEntry) (st : State),
  aborted st c = false ->
  run (streaming c td (m ++ [e]) st) (map chunk_read vs)
  = Some (streaming c (decoder_after td vs)
            (m ++ [absorb e (decoded_chunks td vs)]) st).
Proof.
  induction vs as [|v vs IH]; intros c td m e st Ha.
  - reflexivity.
  - cbn [map run]. rewrite step_chunk by exact Ha.
    rewrite IH by exact Ha. cbn [decoder_after decoded_chunks].
    destruct (decode td v) as [td' chunk]. reflexivity.
Qed.

Lemma run_app (evs1 evs2 : list Event) (st st1 : State) :
  run st evs1 = Some st1 -> run st (evs1 ++ evs2) = run st1 evs2.
Proof.
  revert st. induction evs1 as [|ev evs1 IH]; intros st; simpl.
  - now intros [= ->].
  - destruct (step st ev); [apply IH|discriminate].
Qed.

Lemma new_controller_live (cs : list bool) :
  (cs ++ [false]) !! length cs = Some false.
Proof. now apply list_lookup_middle. Qed.

(** [send] from a state that passes the guard, up to its loop. *)
Lemma send_enters_loop (st : State) (res : Response) :
  canSend st = true -> streamable res = true ->
  exists st0,
    run st [Send; FetchResolved res]
    = Some (streaming (length (controllers st)) new_TextDecoder
              (messages st
               ++ [{| role := user; content := input st |}]
               ++ [{| role := assistant; content := [] |}]) st0)
    /\ aborted st0 (length (controllers st)) = false
    /\ error st0 = [] /\ isSending st0 = true
    /\ abortRef st0 = Some (length (controllers st))
    /\ controllers st0 = controllers st ++ [false]
    /\ input st0 = [] /\ resetting st0 = resetting st
    /\ requests st0
       = requests st ++ [generate_request st (length (controllers st))].
Proof.
  intros Hc Hres. unfold streamable in Hres.
  apply andb_true_iff in Hres as [Hok Hbody].
  exists (send st). cbn [run step]. unfold send. rewrite Hc. cbn [negb].
  cbn [set_sending sending set_abortRef set_controllers setInput setMessages
       setError setIsSending issue controllers].
  unfold aborted. cbn [controllers]. rewrite new_controller_live.
  unfold send_fetched. rewrite Hok, Hbody. cbn [negb orb].
  split_and!; reflexivity.
Qed.

Lemma streaming_eq (st : State) (c : nat) (td : TextDecoder)
    (m : list ChatEntry) :
  sending st = Some {| controller := c; phase := AwaitRead td |} ->
  messages st = m ->
  st = streaming c td m st.
Proof. destruct st; simpl; intros -> ->; reflexivity. Qed.

Lemma step_end (c : nat) (td : TextDecoder) (m : list ChatEntry) (st : State) :
  aborted st c = false ->
  step (streaming c td m st) end_of_stream
  = Some (send_finally (setMessages m st)).
Proof.
  intros Ha. unfold end_of_stream. cbn [step streaming set_sending sending].
  replace (aborted _ c) with (aborted st c) by reflexivity. rewrite Ha.
  reflexivity.
Qed.

Lemma decode_nil (td : TextDecoder) : snd (decode td []) = [].
Proof.
  unfold decode. cbn [utf8_run].
  destruct (do_not_flush td); cbn [bom_seen]; [|reflexivity].
  destruct (bom_seen td); reflexivity.
Qed.

(** The send alone, with no other event between those of its stream: a
    send that passes the guard, gets a streamable response and reads the
    chunks [vs] up to the end of the stream leaves, after the entries that
    were there, the user entry and an assistant entry whose content is the
    concatenation of the decoded chunks, in the order of arrival. *)
Theorem stream_concatenates (st : State) (res : Response) (vs : list bytes) :
  canSend st = true ->
  streamable res = true ->
  exists st',
    run st (Send :: FetchResolved res :: map chunk_read vs ++ [end_of_stream])
    = Some st'
    /\ messages st'
       = messages st
         ++ [{| role := user; content := input st |};
             {| role := assistant;
                content := concat (decoded_chunks new_TextDecoder vs) |}]
    /\ sending st' = None.
Proof.
  intros Hc Hres.
  destruct (send_enters_loop st res Hc Hres) as (st0 & Hrun & Ha & _).
  change (Send :: FetchResolved res :: map chunk_read vs ++ [end_of_stream])
    with ([Send; FetchResolved res] ++ map chunk_read vs ++ [end_of_stream]).
  rewrite (run_app _ _ _ _ Hrun).
  rewrite app_assoc.
  rewrite (run_app _ _ _ _ (run_chunks vs _ _ _ _ _ Ha)).
  cbn [run]. rewrite step_end by exact Ha.
  eexists. split; [reflexivity|]. split; [|reflexivity].
  cbn [messages send_finally set_sending set_abortRef setIsSending setMessages].
  rewrite absorb_assistant. cbn [app]. now rewrite <- app_assoc.
Qed.

Lemma stream_concatenates_witness :
  exists st',
    run (setInput (lit "hello") (initial (lit "http://x") (lit "t")))
      (Send :: FetchResolved {| ok := true; status := 200; body := true |}
            :: map chunk_read [lit "Hi"; lit " there"] ++ [end_of_stream])
    = Some st'
    /\ messages st'
       = [{| role := assistant; content := welcome |};
          {| role := user; content := lit "hello" |};
          {| role := assistant; content := lit "Hi there" |}]
    /\ sending st' = None.
Proof.
  exact (stream_concatenates
           (setInput (lit "hello") (initial (lit "http://x") (lit "t")))
           {| ok := true; status := 200; body := true |}
           [lit "Hi"; lit " there"] eq_refl eq_refl).
Defined.

(** C9, amended: while [send] is in its loop, each chunk replaces the last
    entry's content by that content followed by the text the chunk decodes
    to: the old content is a prefix of the new one, strictly shorter when
    that text is not empty and equal to it when that text is empty (as for
    a zero-length array); after any sequence of chunks the content is the
    old content followed by the decoded texts in arrival order. *)
Theorem stream_append_only (st : State) (c : nat) (td : TextDecoder)
    (m : list ChatEntry) (e : ChatEntry) :
  sending st = Some {| controller := c; phase := AwaitRead td |} ->
  aborted st c = false ->
  messages st = m ++ [e] ->
  (forall v, exists st',
      step st (chunk_read v) = Some st'
      /\ messages st'
         = m ++ [{| role := assistant;
                    content := content e ++ snd (decode td v) |}]
      /\ content e `prefix_of` content e ++ snd (decode td v)
      /\ if decide (snd (decode td v) = [])
         then content e ++ snd (decode td v) = content e
         else (length (content e)
               < length (content e ++ snd (decode td v)))%nat)
  /\ (exists st',
         step st (chunk_read []) = Some st'
         /\ messages st' = m ++ [{| role := assistant; content := content e |}])
  /\ (forall vs, exists st' e',
         run st (map chunk_read vs) = Some st'
         /\ messages st' = m ++ [e']
         /\ content e' = content e ++ concat (decoded_chunks td vs)).
Proof.
  intros Hs Ha Hm.
  pose proof (streaming_eq st c td (m ++ [e]) Hs Hm) as Hst.
  split_and!.
  - intros v. pose proof (step_chunk c td m e v st Ha) as Hstep.
    rewrite <- Hst in Hstep. eexists. split; [exact Hstep|].
    split; [reflexivity|]. split; [now exists (snd (decode td v))|].
    destruct (decide (snd (decode td v) = [])) as [->|Hne].
    + apply app_nil_r.
    + rewrite length_app. destruct (snd (decode td v)); [congruence|].
      simpl. lia.
  - pose proof (step_chunk c td m e [] st Ha) as Hstep.
    rewrite <- Hst in Hstep. eexists. split; [exact Hstep|].
    cbn [messages streaming set_sending setMessages].
    now rewrite decode_nil, app_nil_r.
  - intros vs. pose proof (run_chunks vs c td m e st Ha) as Hrun.
    rewrite <- Hst in Hrun. do 2 eexists. split; [exact Hrun|].
    split; [reflexivity|]. apply absorb_content.
Qed.

Lemma stream_append_only_witness :
  let st := streaming 0 new_TextDecoder
              [{| role := assistant; content := lit "Hi" |}]
              (initial (lit "http://x") (lit "t")) in
  exists st',
    step st (chunk_read (lit " there")) = Some st'
    /\ messages st' = [{| role := assistant; content := lit "Hi there" |}].
Proof.
  intros st.
  destruct (stream_append_only st 0%nat new_TextDecoder []
              {| role := assistant; content := lit "Hi" |}
              eq_refl eq_refl eq_refl) as (H & _).
  destruct (H (lit " there")) as (st' & Hstep & Hm & _).
  exists st'. split; [exact Hstep|exact Hm].
Defined.

(** C9 as stated fails for a chunk that is not empty and decodes to no
    text: the first byte of the euro sign, alone in its chunk, leaves the
    content as it was, so the content has not grown. *)
Lemma lone_lead_byte_adds_nothing :
  let st := streaming 0 new_TextDecoder
              [{| role := assistant; content := lit "Hi" |}]
              (initial (lit "http://x") (lit "t")) in
  length [0xE2] = 1%nat
  /\ (messages <$> step st (chunk_read [0xE2]))
     = Some [{| role := assistant; content := lit "Hi" |}]
  /\ ~ (exists st' e',
          step st (chunk_read [0xE2]) = Some st'
          /\ last (messages st') = Some e'
          /\ (length (lit "Hi") < length (content e'))%nat).
Proof.
  split_and!; [reflexivity|reflexivity|].
  intros (st' & e' & Hstep & Hlast & Hlt).
  vm_compute in Hstep. injection Hstep as <-.
  vm_compute in Hlast. injection Hlast as <-.
  vm_compute in Hlt. lia.
Qed.

(** ** [resetChat] during a stream *)

Lemma step_reset_click (c : nat) (td : TextDecoder) (m : list ChatEntry)
    (st : State) :
  step (streaming c td m st) ResetChat
  = Some (streaming c td m (resetChat st)).
Proof. reflexivity. Qed.

Lemma step_reset_ok (c : nat) (td : TextDecoder) (m : list ChatEntry)
    (st : State) (n : nat) (res : Response) :
  resetting st = S n -> ok res = true ->
  step (streaming c td m st) (ResetResolved res)
  = Some (streaming c td [{| role := assistant; content := cleared |}]
            (set_resetting n st)).
Proof.
  intros Hn Hok. cbn [step streaming set_sending setMessages resetting].
  rewrite Hn. unfold reset_fetched. rewrite Hok. reflexivity.
Qed.

(** C10: a chunk goes to whatever entry is last when it is applied;
    [resetChat] runs whatever the sending flag is, and when its request
    succeeds during a stream, the chunks that follow are appended to the
    confirmation entry, which stays the only entry. *)
Theorem reset_during_stream (st : State) (c : nat) (td : TextDecoder)
    (m : list ChatEntry) (e : ChatEntry) (res : Response)
    (vs1 vs2 : list bytes) :
  sending st = Some {| controller := c; phase := AwaitRead td |} ->
  aborted st c = false ->
  messages st = m ++ [e] ->
  ok res = true ->
  (forall v, exists st',
      step st (chunk_read v) = Some st'
      /\ messages st'
         = m ++ [{| role := assistant;
                    content := content e ++ snd (decode td v) |}])
  /\ step st ResetChat = Some (resetChat st)
  /\ requests (resetChat st) = requests st ++ [reset_request st]
  /\ exists st',
       run st (ResetChat :: map chunk_read vs1
               ++ ResetResolved res :: map chunk_read vs2)
       = Some st'
       /\ messages st'
          = [{| role := assistant;
                content := cleared
                           ++ concat (decoded_chunks (decoder_after td vs1)
                                        vs2) |}]
       /\ sending st'
          = Some {| controller := c;
                    phase := AwaitRead (decoder_after td (vs1 ++ vs2)) |}.
Proof.
  intros Hs Ha Hm Hok.
  pose proof (streaming_eq st c td (m ++ [e]) Hs Hm) as Hst.
  split_and!.
  - intros v. pose proof (step_chunk c td m e v st Ha) as Hstep.
    rewrite <- Hst in Hstep. eexists. split; [exact Hstep|reflexivity].
  - reflexivity.
  - reflexivity.
  - assert (Ha' : aborted (resetChat st) c = false) by exact Ha.
    assert (Hrun :
      run (streaming c td (m ++ [e]) st)
        (ResetChat :: map chunk_read vs1
         ++ ResetResolved res :: map chunk_read vs2)
      = Some (streaming c (decoder_after (decoder_after td vs1) vs2)
                [absorb {| role := assistant; content := cleared |}
                   (decoded_chunks (decoder_after td vs1) vs2)]
                (set_resetting (resetting st) (resetChat st)))).
    { cbn [run app]. rewrite step_reset_click.
      rewrite (run_app _ _ _ _ (run_chunks vs1 c td m e _ Ha')).
      cbn [run].
      rewrite (step_reset_ok c _ _ (resetChat st) (resetting st) res eq_refl Hok).
      apply (run_chunks vs2 c _ [] _ (set_resetting (resetting st) (resetChat st)) Ha'). }
    rewrite <- Hst in Hrun. eexists. split; [exact Hrun|].
    cbn [messages sending streaming set_sending setMessages].
    rewrite absorb_assistant. split; [reflexivity|].
    do 3 f_equal. clear. revert td.
    induction vs1 as [|v vs1 IH]; intros td; [reflexivity|apply IH].
Qed.

Lemma reset_during_stream_witness :
  let st := streaming 0 new_TextDecoder
              [{| role := user; content := lit "hello" |};
               {| role := assistant; content := lit "Hi" |}]
              (initial (lit "http://x") (lit "t")) in
  exists st',
    run st (ResetChat :: map chunk_read []
            ++ ResetResolved {| ok := true; status := 200; body := true |}
            :: map chunk_read [lit " there"])
    = Some st'
    /\ messages st'
       = [{| role := assistant; content := cleared ++ lit " there" |}].
Proof.
  intros st.
  destruct (reset_during_stream st 0%nat new_TextDecoder
              [{| role := user; content := lit "hello" |}]
              {| role := assistant; content := lit "Hi" |}
              {| ok := true; status := 200; body := true |}
              [] [lit " there"] eq_refl eq_refl eq_refl eq_refl)
    as (_ & _ & _ & st' & Hrun & Hm & _).
  exists st'. split; [exact Hrun|exact Hm].
Defined.

(** ** Every exit of [send] runs the [finally] block *)

Lemma send_finally_clean (st : State) :
  sending (send_finally st) = None
  /\ isSending (send_finally st) = false
  /\ abortRef (send_finally st) = None
  /\ messages (send_finally st) = messages st
  /\ error (send_finally st) = error st.
Proof. repeat split. Qed.

Lemma send_catch_clean (e : Exn) (st : State) :
  sending (send_catch e st) = None
  /\ isSending (send_catch e st) = false
  /\ abortRef (send_catch e st) = None
  /\ messages (send_catch e st) = messages st.
Proof. unfold send_catch. destruct (negb _); repeat split. Qed.

Lemma send_catch_abort (e : Exn) (st : State) :
  name e = AbortError -> send_catch e st = send_finally st.
Proof.
  intros H. unfold send_catch. rewrite bool_decide_eq_true_2 by exact H.
  reflexivity.
Qed.

Lemma send_catch_other (e : Exn) (st : State) :
  name e <> AbortError ->
  send_catch e st = send_finally (setError (describe e) st).
Proof.
  intros H. unfold send_catch. rewrite bool_decide_eq_false_2 by exact H.
  reflexivity.
Qed.

Lemma send_idle_clean (st : State) : idle_clean st -> idle_clean (send st).
Proof.
  unfold send. destruct (canSend st); cbn [negb]; [|auto].
  intros _ H. discriminate H.
Qed.

Lemma step_idle_clean (st st' : State) (ev : Event) :
  idle_clean st -> step st ev = Some st' -> idle_clean st'.
Proof.
  intros Hinv Hstep.
  destruct ev; cbn [step] in Hstep;
    try (injection Hstep as <-; try exact Hinv).
  - now apply send_idle_clean.
  - unfold onKeyDown. destruct (_ && _); [now apply send_idle_clean|exact Hinv].
  - unfold cancel. destruct (abortRef st); exact Hinv.
  - destruct (sending st) as [[c [|td]]|]; try discriminate.
    destruct (aborted st c); [discriminate|]. injection Hstep as <-.
    unfold send_fetched. destruct (_ || _).
    + intros _. pose proof (send_catch_clean (http_error (status res)) st).
      tauto.
    + intros H. discriminate H.
  - destruct (sending st) as [[c [|td]]|]; try discriminate.
    destruct (may_reject st c e); [|discriminate]. injection Hstep as <-.
    intros _. pose proof (send_catch_clean e st). tauto.
  - destruct (sending st) as [[c [|td]]|]; try discriminate.
    destruct (aborted st c); [discriminate|].
    unfold send_read in Hstep.
    destruct (value r) as [v|].
    + destruct (decode td v) as [td' chunk].
      destruct (updateMessages (appendToLast chunk) st) as [st1|];
        [|discriminate].
      destruct (done r); injection Hstep as <-.
      * intros _. repeat split.
      * intros H. discriminate H.
    + destruct (done r); injection Hstep as <-.
      * intros _. repeat split.
      * intros H. discriminate H.
  - destruct (sending st) as [[c [|td]]|]; try discriminate.
    destruct (may_reject st c e); [|discriminate]. injection Hstep as <-.
    intros _. pose proof (send_catch_clean e st). tauto.
  - destruct (resetting st); [discriminate|]. injection Hstep as <-.
    unfold reset_fetched. destruct (negb (ok res)); exact Hinv.
  - destruct (resetting st); [discriminate|]. injection Hstep as <-.
    exact Hinv.
Qed.

Lemma run_idle_clean (evs : list Event) : forall (st st' : State),
  idle_clean st -> run st evs = Some st' -> idle_clean st'.
Proof.
  induction evs as [|ev evs IH]; intros st st' Hinv Hrun; simpl in Hrun.
  - now injection Hrun as <-.
  - destruct (step st ev) as [st1|] eqn:Hstep; [|discriminate].
    eapply IH; [|exact Hrun]. eapply step_idle_clean; eassumption.
Qed.

Lemma send_started (st : State) :
  canSend st = true ->
  sending (send st)
  = Some {| controller := length (controllers st); phase := AwaitFetch |}
  /\ isSending (send st) = true
  /\ abortRef (send st) = Some (length (controllers st))
  /\ aborted (send st) (length (controllers st)) = false.
Proof.
  intros Hc. unfold send. rewrite Hc. cbn [negb].
  split_and!; try reflexivity.
  unfold aborted. cbn [controllers set_sending issue setIsSending set_abortRef
                       set_controllers setInput setMessages setError].
  now rewrite new_controller_live.
Qed.

Lemma step_read_rejected (c : nat) (td : TextDecoder) (m : list ChatEntry)
    (st : State) (e : Exn) :
  may_reject st c e = true ->
  step (streaming c td m st) (ReadRejected e)
  = Some (send_catch e (streaming c td m st)).
Proof.
  intros H. cbn [step streaming set_sending sending].
  replace (may_reject _ c e) with (may_reject st c e) by reflexivity.
  now rewrite H.
Qed.

Lemma step_read_blocked (c : nat) (td : TextDecoder) (m : list ChatEntry)
    (st : State) :
  aborted st c = true ->
  (forall r, step (streaming c td m st) (ReadResolved r) = None)
  /\ (forall e, name e <> AbortError ->
         step (streaming c td m st) (ReadRejected e) = None).
Proof.
  intros Ha. split.
  - intros r. cbn [step streaming set_sending sending].
    replace (aborted _ c) with (aborted st c) by reflexivity. now rewrite Ha.
  - intros e He. cbn [step streaming set_sending sending].
    replace (may_reject _ c e) with (may_reject st c e) by reflexivity.
    unfold may_reject. rewrite Ha, bool_decide_eq_false_2 by exact He.
    reflexivity.
Qed.

Lemma step_cancel (c : nat) (td : TextDecoder) (m : list ChatEntry)
    (st : State) :
  step (streaming c td m st) Cancel = Some (streaming c td m (cancel st)).
Proof.
  cbn [step]. unfold cancel.
  change (abortRef (streaming c td m st)) with (abortRef st).
  destruct (abortRef st); reflexivity.
Qed.

Lemma cancel_aborts (st : State) (c : nat) :
  abortRef st = Some c -> (c < length (controllers st))%nat ->
  aborted (cancel st) c = true.
Proof.
  intros Hr Hlt. unfold cancel, aborted. rewrite Hr. cbn [controllers set_controllers].
  now rewrite list_lookup_insert_eq.
Qed.

Lemma cancel_frame (st : State) :
  messages (cancel st) = messages st /\ error (cancel st) = error st
  /\ isSending (cancel st) = isSending st
  /\ abortRef (cancel st) = abortRef st
  /\ sending (cancel st) = sending st.
Proof.
  unfold cancel. destruct (abortRef st) eqn:E; split_and!;
    try reflexivity; exact E.
Qed.

Lemma may_reject_abort (st : State) (c : nat) (msg : jsstring) :
  may_reject st c (abort_exn msg) = true.
Proof.
  unfold may_reject. rewrite (bool_decide_eq_true_2 _ eq_refl).
  apply orb_true_r.
Qed.

Lemma may_reject_live (st : State) (c : nat) (e : Exn) :
  aborted st c = false -> may_reject st c e = true.
Proof. intros H. unfold may_reject. now rewrite H. Qed.

(** C4: once a call of [send] has passed the guard, whatever happens next,
    any state in which that call is no longer suspended has the sending
    flag off and [abortRef] cleared; and the call does end, in such a state,
    on each of its paths: end of stream, bad response, rejected [fetch],
    failing read, cancellation during the stream or before the response. *)
Theorem send_always_cleans_up (st : State) :
  canSend st = true ->
  (forall evs st',
      run st (Send :: evs) = Some st' -> sending st' = None ->
      isSending st' = false /\ abortRef st' = None)
  /\ (forall res vs,
        if streamable res
        then exists st',
               run st (Send :: FetchResolved res
                       :: map chunk_read vs ++ [end_of_stream]) = Some st'
               /\ finished st' /\ error st' = []
        else exists st',
               run st [Send; FetchResolved res] = Some st'
               /\ finished st'
               /\ error st' = lit "HTTP " ++ decimal (status res))
  /\ (forall e, exists st',
         run st [Send; FetchRejected e] = Some st' /\ finished st')
  /\ (forall res vs e,
        if streamable res
        then exists st',
               run st (Send :: FetchResolved res
                       :: map chunk_read vs ++ [ReadRejected e]) = Some st'
               /\ finished st'
        else True)
  /\ (forall res vs msg,
        if streamable res
        then exists st',
               run st (Send :: FetchResolved res
                       :: map chunk_read vs
                       ++ [Cancel; ReadRejected (abort_exn msg)]) = Some st'
               /\ finished st' /\ error st' = []
        else True)
  /\ (forall msg, exists st',
         run st [Send; Cancel; FetchRejected (abort_exn msg)] = Some st'
         /\ finished st' /\ error st' = []).
Proof.
  intros Hc.
  destruct (send_started st Hc) as (Hs & Hi & Hr & Ha).
  assert (Hflags : forall evs st',
             run st (Send :: evs) = Some st' -> sending st' = None ->
             isSending st' = false /\ abortRef st' = None).
  { intros evs st' Hrun Hnone. cbn [run step] in Hrun.
    refine (run_idle_clean evs (send st) st' _ Hrun Hnone).
    intros H. rewrite Hs in H. discriminate H. }
  assert (Hfin : forall evs st',
             run st (Send :: evs) = Some st' -> sending st' = None ->
             finished st').
  { intros evs st' Hrun Hnone. split; [exact Hnone|eauto]. }
  split; [exact Hflags|]. split_and!.
  - intros res vs. destruct (streamable res) eqn:Hres.
    + destruct (send_enters_loop st res Hc Hres)
        as (st0 & Hrun & Ha0 & He0 & _).
      assert (Hall :
        run st (Send :: FetchResolved res
                :: map chunk_read vs ++ [end_of_stream])
        = Some (send_finally
                  (setMessages
                     ((messages st ++ [{| role := user; content := input st |}])
                      ++ [absorb {| role := assistant; content := [] |}
                            (decoded_chunks new_TextDecoder vs)]) st0))).
      { change (Send :: FetchResolved res
                :: map chunk_read vs ++ [end_of_stream])
          with ([Send; FetchResolved res]
                ++ map chunk_read vs ++ [end_of_stream]).
        rewrite (run_app _ _ _ _ Hrun), app_assoc.
        rewrite (run_app _ _ _ _ (run_chunks vs _ _ _ _ _ Ha0)).
        cbn [run]. now rewrite step_end by exact Ha0. }
      eexists. split; [exact Hall|]. split; [|exact He0].
      apply (Hfin _ _ Hall). reflexivity.
    + assert (Hall :
        run st [Send; FetchResolved res]
        = Some (send_catch (http_error (status res)) (send st))).
      { cbn [run step]. rewrite Hs, Ha. unfold send_fetched.
        unfold streamable in Hres.
        replace (negb (ok res) || negb (body res)) with true; [reflexivity|].
        destruct (ok res), (body res); try reflexivity; discriminate. }
      eexists. split; [exact Hall|]. split.
      * apply (Hfin _ _ Hall). apply send_catch_clean.
      * unfold send_catch.
        rewrite bool_decide_eq_false_2 by (vm_compute; discriminate).
        reflexivity.
  - intros e.
    assert (Hall : run st [Send; FetchRejected e]
                   = Some (send_catch e (send st))).
    { cbn [run step]. rewrite Hs. now rewrite may_reject_live by exact Ha. }
    eexists. split; [exact Hall|].
    apply (Hfin _ _ Hall). apply send_catch_clean.
  - intros res vs e. destruct (streamable res) eqn:Hres; [|exact I].
    destruct (send_enters_loop st res Hc Hres) as (st0 & Hrun & Ha0 & _).
    eassert (Hall :
      run st (Send :: FetchResolved res
              :: map chunk_read vs ++ [ReadRejected e]) = Some _).
    { change (Send :: FetchResolved res
              :: map chunk_read vs ++ [ReadRejected e])
        with ([Send; FetchResolved res]
              ++ map chunk_read vs ++ [ReadRejected e]).
      rewrite (run_app _ _ _ _ Hrun), app_assoc.
      rewrite (run_app _ _ _ _ (run_chunks vs _ _ _ _ _ Ha0)).
      cbn [run].
      rewrite step_read_rejected by (now apply may_reject_live).
      reflexivity. }
    eexists. split; [exact Hall|].
    apply (Hfin _ _ Hall). apply send_catch_clean.
  - intros res vs msg. destruct (streamable res) eqn:Hres; [|exact I].
    destruct (send_enters_loop st res Hc Hres)
      as (st0 & Hrun & Ha0 & He0 & _).
    eassert (Hall :
      run st (Send :: FetchResolved res
              :: map chunk_read vs
              ++ [Cancel; ReadRejected (abort_exn msg)]) = Some _).
    { change (Send :: FetchResolved res
              :: map chunk_read vs ++ [Cancel; ReadRejected (abort_exn msg)])
        with ([Send; FetchResolved res]
              ++ map chunk_read vs ++ [Cancel; ReadRejected (abort_exn msg)]).
      rewrite (run_app _ _ _ _ Hrun), app_assoc.
      rewrite (run_app _ _ _ _ (run_chunks vs _ _ _ _ _ Ha0)).
      cbn [run]. rewrite step_cancel.
      rewrite step_read_rejected by apply may_reject_abort.
      rewrite send_catch_abort by reflexivity. reflexivity. }
    eexists. split; [exact Hall|]. split.
    + apply (Hfin _ _ Hall). reflexivity.
    + cbn [error send_finally set_sending set_abortRef setIsSending
           streaming setMessages].
      destruct (cancel_frame st0) as (_ & -> & _). exact He0.
  - intros msg.
    assert (Hall : run st [Send; Cancel; FetchRejected (abort_exn msg)]
                   = Some (send_finally (cancel (send st)))).
    { cbn [run step].
      destruct (cancel_frame (send st)) as (_ & _ & _ & _ & ->).
      rewrite Hs, may_reject_abort.
      now rewrite send_catch_abort by reflexivity. }
    eexists. split; [exact Hall|]. split.
    + apply (Hfin _ _ Hall). reflexivity.
    + cbn [error send_finally set_sending set_abortRef setIsSending].
      destruct (cancel_frame (send st)) as (_ & -> & _).
      unfold send. rewrite Hc. reflexivity.
Qed.

Lemma send_always_cleans_up_witness :
  exists st',
    run (setInput (lit "hello") (initial (lit "http://x") (lit "t")))
      [Send; FetchRejected {| name := lit "TypeError";
                              message := lit "Failed to fetch" |}]
    = Some st'
    /\ finished st'.
Proof.
  destruct (send_always_cleans_up
              (setInput (lit "hello") (initial (lit "http://x") (lit "t")))
              eq_refl) as (_ & _ & H & _).
  exact (H {| name := lit "TypeError"; message := lit "Failed to fetch" |}).
Defined.

(** ** Cancellation *)

(** C5: when [cancel] is called after the chunks [vs] of a stream have been
    appended, the transcript is not touched by [cancel]; the pending read can
    then only reject with an [AbortError], no further chunk is applied, and
    on that rejection [send] ends with the transcript as the chunks left it,
    with the error still empty and with the sending flag off. *)
Theorem cancel_mid_stream (st : State) (res : Response) (vs : list bytes) :
  canSend st = true ->
  streamable res = true ->
  exists st1,
    run st (Send :: FetchResolved res :: map chunk_read vs ++ [Cancel])
    = Some st1
    /\ messages st1
       = messages st
         ++ [{| role := user; content := input st |};
             {| role := assistant;
                content := concat (decoded_chunks new_TextDecoder vs) |}]
    /\ error st1 = []
    /\ (forall r, step st1 (ReadResolved r) = None)
    /\ (forall e, name e <> AbortError -> step st1 (ReadRejected e) = None)
    /\ (forall msg, exists st',
           step st1 (ReadRejected (abort_exn msg)) = Some st'
           /\ messages st' = messages st1
           /\ error st' = []
           /\ isSending st' = false
           /\ abortRef st' = None
           /\ sending st' = None).
Proof.
  intros Hc Hres.
  destruct (send_enters_loop st res Hc Hres)
    as (st0 & Hrun & Ha0 & He0 & _ & Hr0 & Hcs0 & _).
  set (c := length (controllers st)) in *.
  set (m := messages st ++ [{| role := user; content := input st |}]) in *.
  set (td := decoder_after new_TextDecoder vs).
  set (e := absorb {| role := assistant; content := [] |}
              (decoded_chunks new_TextDecoder vs)).
  assert (Hall :
    run st (Send :: FetchResolved res :: map chunk_read vs ++ [Cancel])
    = Some (streaming c td (m ++ [e]) (cancel st0))).
  { change (Send :: FetchResolved res :: map chunk_read vs ++ [Cancel])
      with ([Send; FetchResolved res] ++ map chunk_read vs ++ [Cancel]).
    rewrite (run_app _ _ _ _ Hrun), app_assoc.
    rewrite (run_app _ _ _ _ (run_chunks vs _ _ _ _ _ Ha0)).
    cbn [run]. now rewrite step_cancel. }
  assert (Hab : aborted (cancel st0) c = true).
  { apply cancel_aborts; [exact Hr0|].
    rewrite Hcs0, length_app. simpl. unfold c. lia. }
  destruct (cancel_frame st0) as (_ & Herr & _).
  exists (streaming c td (m ++ [e]) (cancel st0)).
  split; [exact Hall|]. split_and!.
  - cbn [messages streaming set_sending setMessages]. unfold m, e.
    rewrite absorb_assistant. cbn [app]. now rewrite <- app_assoc.
  - cbn [error streaming set_sending setMessages]. now rewrite Herr.
  - apply step_read_blocked, Hab.
  - apply step_read_blocked, Hab.
  - intros msg. eexists. split.
    + rewrite step_read_rejected by apply may_reject_abort.
      rewrite send_catch_abort by reflexivity. reflexivity.
    + cbn [messages error isSending abortRef sending send_finally streaming
           set_sending set_abortRef setIsSending setMessages].
      rewrite Herr. split_and!; try reflexivity. exact He0.
Qed.

Lemma cancel_mid_stream_witness :
  exists st1,
    run (setInput (lit "hello") (initial (lit "http://x") (lit "t")))
      (Send :: FetchResolved {| ok := true; status := 200; body := true |}
            :: map chunk_read [lit "Hi"] ++ [Cancel])
    = Some st1
    /\ messages st1
       = [{| role := assistant; content := welcome |};
          {| role := user; content := lit "hello" |};
          {| role := assistant; content := lit "Hi" |}]
    /\ error st1 = [].
Proof.
  destruct (cancel_mid_stream
              (setInput (lit "hello") (initial (lit "http://x") (lit "t")))
              {| ok := true; status := 200; body := true |}
              [lit "Hi"] eq_refl eq_refl) as (st1 & Hrun & Hm & He & _).
  exists st1. split; [exact Hrun|]. split; [exact Hm|exact He].
Defined.

(** ** The UTF-8 decoder on well-formed input *)

Section Bits.

Lemma land_shiftl_low (h x k : Z) :
  0 <= k -> 0 <= x < 2 ^ k -> Z.land (Z.shiftl h k) x = 0.
Proof.
  intros Hk Hx. apply Z.bits_inj'. intros n Hn.
  rewrite Z.land_spec, Z.bits_0.
  destruct (Z.lt_ge_cases n k) as [Hlt|Hge].
  - now rewrite Z.shiftl_spec_low by exact Hlt.
  - rewrite <- (Z.mod_small x (2 ^ k)) by exact Hx.
    rewrite Z.mod_pow2_bits_high by lia. apply andb_false_r.
Qed.

Lemma lor_low (h x k : Z) :
  0 <= k -> 0 <= x < 2 ^ k -> Z.lor (h * 2 ^ k) x = h * 2 ^ k + x.
Proof.
  intros Hk Hx. rewrite <- Z.shiftl_mul_pow2 by exact Hk.
  pose proof (land_shiftl_low h x k Hk Hx) as H0.
  rewrite (Z.add_nocarry_lxor _ _ H0). symmetry. now apply Z.lxor_lor.
Qed.

Lemma land_low (h x k : Z) :
  0 <= k -> 0 <= x < 2 ^ k -> Z.land (h * 2 ^ k + x) (Z.ones k) = x.
Proof.
  intros Hk Hx. rewrite Z.land_ones by exact Hk.
  rewrite Z.add_comm, Z.mod_add by lia. now apply Z.mod_small.
Qed.

(** The payload of a continuation byte. *)
Lemma continuation_payload (b : Z) :
  0 <= b < 64 -> Z.land (0x80 + b) 0x3F = b.
Proof. intros Hb. exact (land_low 2 b 6 ltac:(lia) Hb). Qed.

(** Shifting the accumulator and adding the payload. *)
Lemma accumulate (acc b : Z) :
  0 <= b < 64 ->
  Z.lor (Z.shiftl acc 6) (Z.land (0x80 + b) 0x3F) = acc * 64 + b.
Proof.
  intros Hb. rewrite continuation_payload by exact Hb.
  rewrite Z.shiftl_mul_pow2 by lia. exact (lor_low acc b 6 ltac:(lia) Hb).
Qed.

Lemma continuation_byte (x : Z) :
  Z.lor 0x80 (Z.land x 0x3F) = 0x80 + x mod 64.
Proof.
  change 0x3F with (Z.ones 6). rewrite Z.land_ones by lia.
  apply (lor_low 2 (x mod 64) 6); [lia|]. apply Z.mod_pos_bound. lia.
Qed.

End Bits.

(** Settle the comparisons that guard the conditionals of a goal by linear
    arithmetic, outermost first. *)
Ltac zbool_step :=
  match goal with
  | |- context [if ?c then _ else _] =>
      match c with
      | context [?x <=? ?y] => destruct (Z.leb_spec x y); try lia
      | context [?x <? ?y] => destruct (Z.ltb_spec x y); try lia
      | context [?x =? ?y] => destruct (Z.eqb_spec x y); try lia
      end
  end; cbn [andb orb negb].

Ltac zbool := repeat zbool_step.

Lemma handler_ascii (b : Z) :
  0 <= b < 0x80 -> utf8_handler utf8_new b = (utf8_new, [b]).
Proof.
  intros Hb. unfold utf8_handler, utf8_lead, in_range. cbn [bytes_needed utf8_new].
  zbool. reflexivity.
Qed.

(** A continuation byte within the boundaries. *)
Lemma handler_continuation (d : Utf8Decoder) (b : Z) :
  bytes_needed d <> 0 ->
  lower_boundary d <= 0x80 + b <= upper_boundary d ->
  0 <= b < 64 ->
  utf8_handler d (0x80 + b)
  = if bytes_seen d + 1 =? bytes_needed d
    then (utf8_new, [code_point d * 64 + b])
    else ({| code_point := code_point d * 64 + b;
             bytes_seen := bytes_seen d + 1;
             bytes_needed := bytes_needed d;
             lower_boundary := 0x80; upper_boundary := 0xBF |}, []).
Proof.
  intros Hn Hr Hb. unfold utf8_handler, in_range.
  rewrite accumulate by exact Hb.
  destruct (Z.eqb_spec (bytes_needed d) 0) as [|_]; [contradiction|].
  destruct (Z.leb_spec (lower_boundary d) (0x80 + b)); [|lia].
  destruct (Z.leb_spec (0x80 + b) (upper_boundary d)); [|lia].
  cbn [andb negb].
  destruct (bytes_seen d + 1 =? bytes_needed d); reflexivity.
Qed.

Lemma utf8_run_cons (d d1 : Utf8Decoder) (b : Z) (rest : bytes)
    (out1 : list Z) :
  utf8_handler d b = (d1, out1) ->
  utf8_run d (b :: rest)
  = (fst (utf8_run d1 rest), out1 ++ snd (utf8_run d1 rest)).
Proof.
  intros H. cbn [utf8_run]. rewrite H.
  destruct (utf8_run d1 rest); reflexivity.
Qed.

Lemma lead_two (a : Z) :
  2 <= a < 32 ->
  utf8_handler utf8_new (0xC0 + a)
  = ({| code_point := a; bytes_seen := 0; bytes_needed := 1;
        lower_boundary := 0x80; upper_boundary := 0xBF |}, []).
Proof.
  intros Ha. unfold utf8_handler, utf8_lead, in_range.
  cbn [bytes_needed utf8_new].
  change 0x1F with (Z.ones 5). change 0xC0 with (6 * 2 ^ 5).
  rewrite (land_low 6 a 5) by lia. zbool. reflexivity.
Qed.

Lemma lead_three (a : Z) :
  0 <= a < 16 ->
  utf8_handler utf8_new (0xE0 + a)
  = ({| code_point := a; bytes_seen := 0; bytes_needed := 2;
        lower_boundary := if a =? 0 then 0xA0 else 0x80;
        upper_boundary := if a =? 13 then 0x9F else 0xBF |}, []).
Proof.
  intros Ha. unfold utf8_handler, utf8_lead, in_range.
  cbn [bytes_needed utf8_new].
  change 0xF with (Z.ones 4). change 0xE0 with (14 * 2 ^ 4).
  rewrite (land_low 14 a 4) by lia.
  destruct (Z.eqb_spec a 0); destruct (Z.eqb_spec a 13); try lia;
    zbool; reflexivity.
Qed.

Lemma lead_four (a : Z) :
  0 <= a <= 4 ->
  utf8_handler utf8_new (0xF0 + a)
  = ({| code_point := a; bytes_seen := 0; bytes_needed := 3;
        lower_boundary := if a =? 0 then 0x90 else 0x80;
        upper_boundary := if a =? 4 then 0x8F else 0xBF |}, []).
Proof.
  intros Ha. unfold utf8_handler, utf8_lead, in_range.
  cbn [bytes_needed utf8_new].
  change 0x7 with (Z.ones 3). change 0xF0 with (30 * 2 ^ 3).
  rewrite (land_low 30 a 3) by lia.
  destruct (Z.eqb_spec a 0); destruct (Z.eqb_spec a 4); try lia;
    zbool; reflexivity.
Qed.

Lemma run_two_bytes (a b : Z) :
  2 <= a < 32 -> 0 <= b < 64 ->
  utf8_run utf8_new [0xC0 + a; 0x80 + b] = (utf8_new, [a * 64 + b]).
Proof.
  intros Ha Hb.
  rewrite (utf8_run_cons _ _ _ _ _ (lead_two a Ha)).
  erewrite utf8_run_cons
    by (rewrite handler_continuation by (cbn; lia); reflexivity).
  reflexivity.
Qed.

Lemma run_three_bytes (a b c : Z) :
  0 <= a < 16 -> 0 <= b < 64 -> 0 <= c < 64 ->
  (a = 0 -> 32 <= b) -> (a = 13 -> b < 32) ->
  utf8_run utf8_new [0xE0 + a; 0x80 + b; 0x80 + c]
  = (utf8_new, [(a * 64 + b) * 64 + c]).
Proof.
  intros Ha Hb Hc Hlo Hhi.
  rewrite (utf8_run_cons _ _ _ _ _ (lead_three a Ha)).
  erewrite utf8_run_cons.
  2:{ rewrite handler_continuation; cbn; [reflexivity | lia | | lia].
      destruct (Z.eqb_spec a 0); destruct (Z.eqb_spec a 13); lia. }
  erewrite utf8_run_cons
    by (rewrite handler_continuation by (cbn; lia); reflexivity).
  reflexivity.
Qed.

Lemma run_four_bytes (a b c d : Z) :
  0 <= a <= 4 -> 0 <= b < 64 -> 0 <= c < 64 -> 0 <= d < 64 ->
  (a = 0 -> 16 <= b) -> (a = 4 -> b < 16) ->
  utf8_run utf8_new [0xF0 + a; 0x80 + b; 0x80 + c; 0x80 + d]
  = (utf8_new, [((a * 64 + b) * 64 + c) * 64 + d]).
Proof.
  intros Ha Hb Hc Hd Hlo Hhi.
  rewrite (utf8_run_cons _ _ _ _ _ (lead_four a Ha)).
  erewrite utf8_run_cons.
  2:{ rewrite handler_continuation; cbn; [reflexivity | lia | | lia].
      destruct (Z.eqb_spec a 0); destruct (Z.eqb_spec a 4); lia. }
  erewrite utf8_run_cons
    by (rewrite handler_continuation by (cbn; lia); reflexivity).
  erewrite utf8_run_cons
    by (rewrite handler_continuation by (cbn; lia); reflexivity).
  reflexivity.
Qed.

(** The bytes of [utf8_encode], lead byte and payloads apart. *)
Lemma encode_two (cp : Z) :
  0x80 <= cp < 0x800 ->
  utf8_encode cp = [0xC0 + cp / 64; 0x80 + cp mod 64].
Proof.
  intros H. unfold utf8_encode. zbool.
  rewrite continuation_byte, Z.shiftr_div_pow2 by lia.
  change 0xC0 with (6 * 2 ^ 5). rewrite lor_low; [reflexivity|lia|].
  change (2 ^ 6) with 64. change (2 ^ 5) with 32.
  Z.div_mod_to_equations. lia.
Qed.

Lemma encode_three (cp : Z) :
  0x800 <= cp < 0x10000 ->
  utf8_encode cp
  = [0xE0 + cp / 4096; 0x80 + (cp / 64) mod 64; 0x80 + cp mod 64].
Proof.
  intros H. unfold utf8_encode. zbool.
  rewrite !continuation_byte, !Z.shiftr_div_pow2 by lia.
  change 0xE0 with (14 * 2 ^ 4). rewrite lor_low; [reflexivity|lia|].
  change (2 ^ 12) with 4096. change (2 ^ 4) with 16.
  Z.div_mod_to_equations. lia.
Qed.

Lemma encode_four (cp : Z) :
  0x10000 <= cp <= 0x10FFFF ->
  utf8_encode cp
  = [0xF0 + cp / 262144; 0x80 + (cp / 4096) mod 64;
     0x80 + (cp / 64) mod 64; 0x80 + cp mod 64].
Proof.
  intros H. unfold utf8_encode. zbool.
  rewrite !continuation_byte, !Z.shiftr_div_pow2 by lia.
  change 0xF0 with (30 * 2 ^ 3). rewrite lor_low; [reflexivity|lia|].
  change (2 ^ 18) with 262144. change (2 ^ 3) with 8.
  Z.div_mod_to_equations. lia.
Qed.

(** Decoding the encoding of one scalar value, from a character boundary. *)
Lemma utf8_run_encode (cp : Z) :
  scalar cp -> utf8_run utf8_new (utf8_encode cp) = (utf8_new, [cp]).
Proof.
  intros [Hr Hs].
  destruct (Z.lt_ge_cases cp 0x80) as [H1|H1].
  { unfold utf8_encode. zbool. cbn [utf8_run].
    rewrite handler_ascii by lia. reflexivity. }
  destruct (Z.lt_ge_cases cp 0x800) as [H2|H2].
  { rewrite encode_two, run_two_bytes by (Z.div_mod_to_equations; lia).
    do 2 f_equal. Z.div_mod_to_equations. lia. }
  destruct (Z.lt_ge_cases cp 0x10000) as [H3|H3].
  { rewrite encode_three, run_three_bytes by (Z.div_mod_to_equations; lia).
    do 2 f_equal. Z.div_mod_to_equations. lia. }
  rewrite encode_four, run_four_bytes by (Z.div_mod_to_equations; lia).
  do 2 f_equal. Z.div_mod_to_equations. lia.
Qed.

(** The decoder is a transducer: cutting the input anywhere gives the same
    state and the same output. *)
Lemma utf8_run_app (b1 b2 : bytes) : forall d : Utf8Decoder,
  utf8_run d (b1 ++ b2)
  = (fst (utf8_run (fst (utf8_run d b1)) b2),
     snd (utf8_run d b1) ++ snd (utf8_run (fst (utf8_run d b1)) b2)).
Proof.
  induction b1 as [|b b1 IH]; intros d.
  - cbn. now destruct (utf8_run d b2).
  - cbn [app utf8_run]. destruct (utf8_handler d b) as [d1 o1].
    rewrite IH. destruct (utf8_run d1 b1) as [d2 o2]. cbn [fst snd].
    destruct (utf8_run d2 b2) as [d3 o3]. cbn [fst snd].
    now rewrite app_assoc.
Qed.

Lemma utf8_run_encodes (cps : list Z) :
  Forall scalar cps -> utf8_run utf8_new (utf8_encodes cps) = (utf8_new, cps).
Proof.
  induction 1 as [|cp cps Hcp _ IH]; [reflexivity|].
  unfold utf8_encodes in *. cbn [map concat].
  rewrite utf8_run_app, utf8_run_encode by exact Hcp.
  cbn [fst snd]. now rewrite IH.
Qed.

Lemma utf16s_app (xs ys : list Z) : utf16s (xs ++ ys) = utf16s xs ++ utf16s ys.
Proof. unfold utf16s. now rewrite map_app, concat_app. Qed.

Lemma serialize_app (seen : bool) (o1 o2 : list Z) :
  serialize seen (o1 ++ o2)
  = (fst (serialize (fst (serialize seen o1)) o2),
     snd (serialize seen o1) ++ snd (serialize (fst (serialize seen o1)) o2)).
Proof.
  destruct seen; cbn [serialize fst snd].
  - now rewrite utf16s_app.
  - destruct o1 as [|cp o1]; cbn [app fst snd serialize].
    + now destruct o2.
    + destruct (cp =? BOM).
      * now rewrite utf16s_app.
      * change (cp :: o1 ++ o2) with ((cp :: o1) ++ o2).
        now rewrite utf16s_app.
Qed.

Lemma decode_streams (td : TextDecoder) (v : bytes) :
  do_not_flush (fst (decode td v)) = true.
Proof.
  unfold decode. destruct (utf8_run _ v), (serialize _ _). reflexivity.
Qed.

(** Two calls of [decode] yield, together, what one call yields on the two
    arrays joined. *)
Lemma decode_app (td : TextDecoder) (v1 v2 : bytes) :
  decode td (v1 ++ v2)
  = (fst (decode (fst (decode td v1)) v2),
     snd (decode td v1) ++ snd (decode (fst (decode td v1)) v2)).
Proof.
  unfold decode.
  set (td0 := if do_not_flush td then td else _).
  rewrite utf8_run_app.
  destruct (utf8_run (utf8 td0) v1) as [d1 o1]. cbn [fst snd].
  rewrite serialize_app.
  destruct (serialize (bom_seen td0) o1) as [s1 t1]. cbn [fst snd].
  cbn [do_not_flush utf8 bom_seen].
  destruct (utf8_run d1 v2) as [d2 o2]. cbn [fst snd].
  destruct (serialize s1 o2) as [s2 t2]. reflexivity.
Qed.

(** However the bytes are cut into chunks, the texts of the chunks add up to
    the text of the whole. *)
Lemma chunking_irrelevant (vs : list bytes) : forall td : TextDecoder,
  concat (decoded_chunks td vs) = snd (decode td (concat vs)).
Proof.
  induction vs as [|v vs IH]; intros td.
  - cbn [decoded_chunks concat]. now rewrite decode_nil.
  - cbn [decoded_chunks concat]. rewrite decode_app. cbn [snd].
    destruct (decode td v) as [td1 t1]. cbn [concat fst snd].
    now rewrite IH.
Qed.

Lemma bom_dropped_head (td : TextDecoder) (pre post : list Z) (cp : Z) :
  bom_dropped td (pre ++ cp :: post) = bom_dropped td (pre ++ [cp]).
Proof. destruct pre; reflexivity. Qed.

(** Well-formed input from a character boundary decodes to the code points
    that were encoded, less a leading byte-order mark. *)
Lemma decode_encoded_boundary (td : TextDecoder) (cps : list Z) :
  utf8 td = utf8_new -> Forall scalar cps ->
  snd (decode td (utf8_encodes cps))
  = utf16s (if bom_dropped td cps then tail cps else cps)
  /\ utf8 (fst (decode td (utf8_encodes cps))) = utf8_new.
Proof.
  intros Hu Hs. unfold decode, bom_dropped, bom_pending.
  destruct td as [u f s]. cbn [utf8 do_not_flush bom_seen] in *. subst u.
  destruct f; cbn [utf8 bom_seen andb negb];
    rewrite utf8_run_encodes by exact Hs.
  - destruct s; cbn [serialize negb andb]; [now split|].
    destruct cps as [|cp cps]; [now split|].
    destruct (cp =? BOM); now split.
  - cbn [serialize]. destruct cps as [|cp cps]; [now split|].
    destruct (cp =? BOM); now split.
Qed.

(** The bytes of a character that is not complete yet produce no output. *)
Lemma utf8_run_partial (cp : Z) (b1 b2 : bytes) :
  scalar cp -> utf8_encode cp = b1 ++ b2 -> b2 <> [] ->
  snd (utf8_run utf8_new b1) = [].
Proof.
  intros [Hr Hs] Hsplit Hb2.
  destruct (Z.lt_ge_cases cp 0x80) as [H1|H1].
  { unfold utf8_encode in Hsplit. revert Hsplit. zbool. intros Hsplit.
    destruct b1 as [|x [|y b1]]; [reflexivity| |discriminate].
    destruct b2; [congruence|discriminate]. }
  destruct (Z.lt_ge_cases cp 0x800) as [H2|H2].
  { rewrite encode_two in Hsplit by lia.
    destruct b1 as [|x [|y [|z b1]]]; try discriminate; [reflexivity| |].
    - injection Hsplit as <- _.
      erewrite utf8_run_cons
        by (apply lead_two; Z.div_mod_to_equations; lia).
      reflexivity.
    - destruct b2; [congruence|discriminate]. }
  destruct (Z.lt_ge_cases cp 0x10000) as [H3|H3].
  { rewrite encode_three in Hsplit by lia.
    destruct b1 as [|x [|y [|z [|w b1]]]]; try discriminate; [reflexivity| | |].
    - injection Hsplit as <- _.
      erewrite utf8_run_cons
        by (apply lead_three; Z.div_mod_to_equations; lia).
      reflexivity.
    - injection Hsplit as <- <- _.
      erewrite utf8_run_cons
        by (apply lead_three; Z.div_mod_to_equations; lia).
      erewrite utf8_run_cons.
      2:{ rewrite handler_continuation; cbn;
            [reflexivity | lia | | Z.div_mod_to_equations; lia].
          destruct (Z.eqb_spec (cp / 4096) 0);
            destruct (Z.eqb_spec (cp / 4096) 13);
            Z.div_mod_to_equations; lia. }
      reflexivity.
    - destruct b2; [congruence|discriminate]. }
  rewrite encode_four in Hsplit by lia.
  destruct b1 as [|x [|y [|z [|w [|u b1]]]]]; try discriminate;
    [reflexivity| | | |].
  - injection Hsplit as <- _.
    erewrite utf8_run_cons by (apply lead_four; Z.div_mod_to_equations; lia).
    reflexivity.
  - injection Hsplit as <- <- _.
    erewrite utf8_run_cons by (apply lead_four; Z.div_mod_to_equations; lia).
    erewrite utf8_run_cons.
    2:{ rewrite handler_continuation; cbn;
          [reflexivity | lia | | Z.div_mod_to_equations; lia].
        destruct (Z.eqb_spec (cp / 262144) 0);
          destruct (Z.eqb_spec (cp / 262144) 4);
          Z.div_mod_to_equations; lia. }
    reflexivity.
  - injection Hsplit as <- <- <- _.
    erewrite utf8_run_cons by (apply lead_four; Z.div_mod_to_equations; lia).
    erewrite utf8_run_cons.
    2:{ rewrite handler_continuation; cbn;
          [reflexivity | lia | | Z.div_mod_to_equations; lia].
        destruct (Z.eqb_spec (cp / 262144) 0);
          destruct (Z.eqb_spec (cp / 262144) 4);
          Z.div_mod_to_equations; lia. }
    erewrite utf8_run_cons.
    2:{ rewrite handler_continuation; cbn;
          [reflexivity | lia | Z.div_mod_to_equations; lia
          | Z.div_mod_to_equations; lia]. }
    reflexivity.
  - destruct b2; [congruence|discriminate].
Qed.

Lemma utf8_encodes_app (xs ys : list Z) :
  utf8_encodes (xs ++ ys) = utf8_encodes xs ++ utf8_encodes ys.
Proof. unfold utf8_encodes. now rewrite map_app, concat_app. Qed.

Lemma utf8_encodes_cons (cp : Z) (cps : list Z) :
  utf8_encodes (cp :: cps) = utf8_encode cp ++ utf8_encodes cps.
Proof. reflexivity. Qed.

(** C7 as stated fails for U+FEFF at the start of the response: cut after
    its first byte, it is a three-byte character split across two chunks,
    and the text appended by the two chunks is empty. *)
Lemma split_bom_is_dropped :
  utf8_encode BOM = [0xEF] ++ [0xBB; 0xBF]
  /\ utf16 BOM = [BOM]
  /\ snd (decode new_TextDecoder [0xEF])
     ++ snd (decode (fst (decode new_TextDecoder [0xEF])) [0xBB; 0xBF])
     = []
  /\ (messages <$>
        run (setInput (lit "hello") (initial (lit "http://x") (lit "t")))
          [Send; FetchResolved {| ok := true; status := 200; body := true |};
           chunk_read [0xEF]; chunk_read [0xBB; 0xBF]; end_of_stream])
     = Some [{| role := assistant; content := welcome |};
             {| role := user; content := lit "hello" |};
             {| role := assistant; content := [] |}].
Proof. split_and!; reflexivity. Qed.

(** ** The text of a response

    When every chunk holds whole characters, the assistant entry ends up
    with the text the server sent (a leading byte-order mark apart). *)
Lemma whole_character_chunks (texts : list (list Z)) :
  Forall (Forall scalar) texts ->
  concat (decoded_chunks new_TextDecoder (map utf8_encodes texts))
  = utf16s (if bom_dropped new_TextDecoder (concat texts)
            then tail (concat texts) else concat texts).
Proof.
  intros Hs. rewrite chunking_irrelevant.
  assert (Hcat : concat (map utf8_encodes texts) = utf8_encodes (concat texts)).
  { clear Hs. induction texts as [|t ts IH]; [reflexivity|].
    cbn [map concat]. now rewrite utf8_encodes_app, IH. }
  rewrite Hcat. clear Hcat. apply decode_encoded_boundary; [reflexivity|].
  induction Hs as [|t ts Ht _ IH]; [constructor|].
  cbn [concat]. apply Forall_app. now split.
Qed.

(** ** Characters after an unfinished one *)

Lemma lead_wf (b : Z) : utf8_wf (fst (utf8_lead utf8_new b)).
Proof.
  unfold utf8_lead.
  destruct (in_range 0x00 0x7F b); [now left|].
  destruct (in_range 0xC2 0xDF b); [right; cbn; lia|].
  destruct (in_range 0xE0 0xEF b).
  { right. cbn. destruct (b =? 0xE0), (b =? 0xED); lia. }
  destruct (in_range 0xF0 0xF4 b); [|now left].
  right. cbn. destruct (b =? 0xF0), (b =? 0xF4); lia.
Qed.

Lemma handler_wf (d : Utf8Decoder) (b : Z) :
  utf8_wf d -> utf8_wf (fst (utf8_handler d b)).
Proof.
  intros [->|(Hn & Hl & Hu)].
  - apply lead_wf.
  - unfold utf8_handler.
    destruct (Z.eqb_spec (bytes_needed d) 0) as [|_]; [contradiction|].
    destruct (negb (in_range _ _ b)).
    + pose proof (lead_wf b) as H.
      destruct (utf8_lead utf8_new b) as [d' out]. exact H.
    + destruct (negb (_ =? _)); [right; cbn; lia|now left].
Qed.

Lemma run_wf (bs : bytes) : forall d : Utf8Decoder,
  utf8_wf d -> utf8_wf (fst (utf8_run d bs)).
Proof.
  induction bs as [|b bs IH]; intros d Hd; [exact Hd|].
  cbn [utf8_run]. pose proof (handler_wf d b Hd) as H1.
  destruct (utf8_handler d b) as [d1 o1]. specialize (IH d1 H1).
  destruct (utf8_run d1 bs) as [d2 o2]. exact IH.
Qed.

Lemma decode_wf (td : TextDecoder) (v : bytes) :
  td_wf td -> td_wf (fst (decode td v)).
Proof.
  intros Hwf _. unfold decode.
  set (td0 := if do_not_flush td then td else _).
  assert (H0 : utf8_wf (utf8 td0)).
  { unfold td0. destruct (do_not_flush td) eqn:Hf; [now apply Hwf|now left]. }
  pose proof (run_wf v _ H0) as H1.
  destruct (utf8_run (utf8 td0) v) as [d1 o1].
  destruct (serialize (bom_seen td0) o1). exact H1.
Qed.

(** Every decoder state of a stream is well formed. *)
Lemma decoder_after_wf (vs : list bytes) : forall td : TextDecoder,
  td_wf td -> td_wf (decoder_after td vs).
Proof.
  induction vs as [|v vs IH]; intros td Hwf; [exact Hwf|].
  cbn [decoder_after]. apply IH, decode_wf, Hwf.
Qed.

Lemma new_TextDecoder_wf : td_wf new_TextDecoder.
Proof. intros H. discriminate H. Qed.

(** A byte that cannot continue a character ends the unfinished one with
    U+FFFD and is then read as at a boundary. *)
Lemma handler_resync (d : Utf8Decoder) (x : Z) :
  utf8_wf d -> bytes_needed d <> 0 -> x < 0x80 \/ 0xBF < x ->
  utf8_handler d x
  = (fst (utf8_handler utf8_new x),
     REPLACEMENT :: snd (utf8_handler utf8_new x)).
Proof.
  intros [->|(_ & Hl & Hu)] Hn Hx; [now contradict Hn|].
  unfold utf8_handler at 1.
  destruct (Z.eqb_spec (bytes_needed d) 0) as [|_]; [contradiction|].
  unfold in_range.
  destruct (Z.leb_spec (lower_boundary d) x);
    destruct (Z.leb_spec x (upper_boundary d)); try lia;
    cbn [andb negb];
    change (utf8_handler utf8_new x) with (utf8_lead utf8_new x);
    destruct (utf8_lead utf8_new x); reflexivity.
Qed.

Lemma encode_head (cp : Z) :
  scalar cp ->
  exists x rest, utf8_encode cp = x :: rest /\ (x < 0x80 \/ 0xBF < x).
Proof.
  intros [Hr Hs].
  destruct (Z.lt_ge_cases cp 0x80) as [H1|H1].
  { exists cp, []. split; [|now left]. unfold utf8_encode. zbool. reflexivity. }
  destruct (Z.lt_ge_cases cp 0x800) as [H2|H2].
  { rewrite encode_two by lia. do 2 eexists. split; [reflexivity|].
    right. Z.div_mod_to_equations. lia. }
  destruct (Z.lt_ge_cases cp 0x10000) as [H3|H3].
  { rewrite encode_three by lia. do 2 eexists. split; [reflexivity|].
    right. Z.div_mod_to_equations. lia. }
  rewrite encode_four by lia. do 2 eexists. split; [reflexivity|].
  right. Z.div_mod_to_equations. lia.
Qed.

Lemma utf8_run_encodes_from (d : Utf8Decoder) (cps : list Z) :
  utf8_wf d -> Forall scalar cps -> cps <> [] ->
  utf8_run d (utf8_encodes cps)
  = (utf8_new,
     (if bytes_needed d =? 0 then [] else [REPLACEMENT]) ++ cps).
Proof.
  intros Hd Hs Hne.
  destruct (Z.eqb_spec (bytes_needed d) 0) as [H0|H0].
  { destruct Hd as [->|(Hn & _)]; [|contradiction].
    now rewrite utf8_run_encodes. }
  pose proof (utf8_run_encodes cps Hs) as Hrun.
  destruct cps as [|cp cps]; [contradiction|].
  rewrite utf8_encodes_cons in *.
  destruct (encode_head cp) as (x & rest & He & Hx);
    [now apply Forall_inv in Hs|].
  rewrite He in *. cbn [app utf8_run] in *.
  rewrite (handler_resync d x Hd H0 Hx).
  destruct (utf8_handler utf8_new x) as [d1 o1]. cbn [fst snd].
  destruct (utf8_run d1 (rest ++ utf8_encodes cps)) as [d2 o2].
  cbv beta iota in Hrun. injection Hrun as -> Hout.
  cbn [app]. now rewrite Hout.
Qed.

Lemma resync_boundary (td : TextDecoder) :
  utf8 td = utf8_new -> resync td = [].
Proof.
  intros H. unfold resync. rewrite H. cbn. now rewrite andb_false_r.
Qed.

(** Well-formed input decodes to the code points that were encoded, after
    U+FFFD for a character left unfinished, and less a leading byte-order
    mark. *)
Lemma decode_encoded (td : TextDecoder) (cps : list Z) :
  td_wf td -> Forall scalar cps -> cps <> [] ->
  snd (decode td (utf8_encodes cps))
  = utf16s (if bom_dropped td (resync td ++ cps)
            then tail (resync td ++ cps) else resync td ++ cps)
  /\ utf8 (fst (decode td (utf8_encodes cps))) = utf8_new.
Proof.
  intros Hwf Hs Hne. unfold decode, bom_dropped, bom_pending, resync.
  destruct td as [u f s]. unfold td_wf in Hwf.
  cbn [utf8 do_not_flush bom_seen] in *.
  destruct f; cbn [utf8 bom_seen andb negb].
  - rewrite utf8_run_encodes_from by auto.
    destruct (negb (bytes_needed u =? 0)) eqn:Hneg.
    + apply negb_true_iff in Hneg. rewrite Hneg.
      destruct s; cbn [serialize negb andb app fst snd]; now split.
    + apply negb_false_iff in Hneg. rewrite Hneg. cbn [app].
      destruct s; cbn [serialize negb andb]; [now split|].
      destruct cps as [|cp cps]; [contradiction|].
      destruct (cp =? BOM); now split.
  - rewrite utf8_run_encodes by exact Hs. cbn [serialize app].
    destruct cps as [|cp cps]; [contradiction|].
    destruct (cp =? BOM); now split.
Qed.

Lemma kept_before (td : TextDecoder) (before post : list Z) (cp : Z) :
  match before with [] => bom_dropped td [cp] | _ :: _ => false end = false ->
  kept td (before ++ cp :: post) = kept td before ++ cp :: post.
Proof.
  unfold kept, bom_dropped. destruct before as [|x rest]; cbn [app].
  - intros ->. now rewrite andb_false_r.
  - intros _. now destruct (bom_pending td && (x =? BOM)).
Qed.

Lemma decode_partial (td : TextDecoder) (cp : Z) (b1 b2 : bytes) :
  do_not_flush td = true -> utf8 td = utf8_new ->
  scalar cp -> utf8_encode cp = b1 ++ b2 -> b2 <> [] ->
  snd (decode td b1) = [].
Proof.
  intros Hf Hu Hcp Hsplit Hb2. unfold decode. rewrite Hf, Hu.
  pose proof (utf8_run_partial cp b1 b2 Hcp Hsplit Hb2) as Hout.
  destruct (utf8_run utf8_new b1) as [d1 o1]. cbn [snd] in Hout. subst o1.
  now destruct (bom_seen td).
Qed.

(** C7, amended: a character whose bytes are cut between two consecutive
    chunks comes out whole, unless it is a U+FEFF that the decoder drops as
    the byte-order mark at the start of the response.  After any chunks
    [vs0], let the next chunk hold the characters [pre] and the first bytes
    [b1] of [cp], and the one after it the other bytes [b2] of [cp] and the
    characters [post].  Then the two decoded texts add up to the text of
    what the decoder lets through before [cp], then [cp], then [post]; the
    decoder is back at a character boundary; from a boundary, the first text
    stops before [cp] as long as bytes of [cp] are outstanding; and the last
    entry of the transcript grows by exactly the sum of the two texts. *)
Theorem split_character_decodes (vs0 : list bytes) (pre post : list Z)
    (cp : Z) (b1 b2 : bytes) :
  Forall scalar pre -> scalar cp -> Forall scalar post ->
  utf8_encode cp = b1 ++ b2 ->
  dropped_as_bom (decoder_after new_TextDecoder vs0) pre cp = false ->
  let td := decoder_after new_TextDecoder vs0 in
  let v1 := utf8_encodes pre ++ b1 in
  let v2 := b2 ++ utf8_encodes post in
  let td1 := fst (decode td v1) in
  let td2 := fst (decode td1 v2) in
  let before := kept td (resync td ++ pre) in
  snd (decode td v1) ++ snd (decode td1 v2)
  = utf16s before ++ utf16 cp ++ utf16s post
  /\ utf8 td2 = utf8_new
  /\ (utf8 td = utf8_new -> b2 <> [] -> snd (decode td v1) = utf16s before)
  /\ forall (c : nat) (m : list ChatEntry) (e : ChatEntry) (st : State),
       aborted st c = false ->
       run (streaming c td (m ++ [e]) st) [chunk_read v1; chunk_read v2]
       = Some (streaming c td2
                 (m ++ [{| role := assistant;
                           content := content e
                                      ++ utf16s before ++ utf16 cp
                                      ++ utf16s post |}]) st).
Proof.
  intros Hpre Hcp Hpost Hsplit Hbom td v1 v2 td1 td2 before.
  fold td in Hbom. unfold dropped_as_bom in Hbom.
  assert (Hwf : td_wf td)
    by apply decoder_after_wf, new_TextDecoder_wf.
  assert (Hall : Forall scalar (pre ++ cp :: post)).
  { apply Forall_app. split; [exact Hpre|]. now constructor. }
  assert (Hne : pre ++ cp :: post <> []) by (now destruct pre).
  assert (Hjoin : v1 ++ v2 = utf8_encodes (pre ++ cp :: post)).
  { unfold v1, v2. rewrite utf8_encodes_app, utf8_encodes_cons, Hsplit.
    now rewrite <- !app_assoc. }
  pose proof (decode_app td v1 v2) as Happ. rewrite Hjoin in Happ.
  destruct (decode_encoded td _ Hwf Hall Hne) as [Htext Hstate].
  fold (kept td (resync td ++ pre ++ cp :: post)) in Htext.
  rewrite (app_assoc (resync td) pre (cp :: post)) in Htext.
  rewrite (kept_before td _ post cp Hbom) in Htext. fold before in Htext.
  rewrite utf16s_app in Htext.
  change (utf16s (cp :: post)) with (utf16 cp ++ utf16s post) in Htext.
  rewrite Happ in Htext, Hstate. cbn [fst snd] in Htext, Hstate.
  assert (Hsum : snd (decode td v1) ++ snd (decode td1 v2)
                 = utf16s before ++ utf16 cp ++ utf16s post) by exact Htext.
  split_and!.
  - exact Hsum.
  - exact Hstate.
  - intros Hu Hb2. unfold before. rewrite (resync_boundary td Hu). cbn [app].
    destruct (decode_encoded_boundary td pre Hu Hpre) as [Hp Hup].
    unfold v1. rewrite decode_app. cbn [snd].
    rewrite (decode_partial _ cp b1 b2 (decode_streams td _) Hup
               Hcp Hsplit Hb2).
    now rewrite app_nil_r.
  - intros c m e st Ha. cbn [run].
    rewrite step_chunk by exact Ha.
    rewrite step_chunk by exact Ha.
    cbn [content]. fold td1 td2.
    now rewrite <- app_assoc, Hsum.
Qed.

(** The euro sign, cut after its first byte, at the start of a stream. *)
Lemma split_character_decodes_witness :
  snd (decode new_TextDecoder [0xE2])
  ++ snd (decode (fst (decode new_TextDecoder [0xE2])) [0x82; 0xAC])
  = [0x20AC]
  /\ snd (decode new_TextDecoder [0xE2]) = [].
Proof.
  assert (Hs : scalar 0x20AC) by (unfold scalar; lia).
  destruct (split_character_decodes [] [] [] 0x20AC [0xE2] [0x82; 0xAC]
              (List.Forall_nil scalar) Hs (List.Forall_nil scalar)
              eq_refl eq_refl)
    as (Hsum & _ & Hfirst & _).
  split; [exact Hsum|]. apply Hfirst; [reflexivity|discriminate].
Defined.

Example euro_after_unfinished_character :
  decoded_chunks new_TextDecoder [[0xE2]; [0xE2; 0x82]; [0xAC]]
  = [[]; [REPLACEMENT]; [0x20AC]].
Proof. reflexivity. Qed.


(** ** Reachable states *)

Lemma initial_consistent (base tok : jsstring) : consistent (initial base tok).
Proof. split; [discriminate|]. split; reflexivity. Qed.

Lemma send_consistent (st : State) : consistent st -> consistent (send st).
Proof.
  intros Hc. unfold send. destruct (canSend st); cbn [negb]; [|exact Hc].
  split.
  - cbn [messages set_sending issue setIsSending set_abortRef set_controllers
         setInput setMessages setError].
    now destruct (messages st).
  - cbn. rewrite length_app. cbn. split_and!; try reflexivity. lia.
Qed.

Lemma send_finally_consistent (st : State) :
  messages st <> [] -> consistent (send_finally st).
Proof. intros H. split; [exact H|]. split; reflexivity. Qed.

Lemma send_catch_consistent (e : Exn) (st : State) :
  messages st <> [] -> consistent (send_catch e st).
Proof.
  intros H. unfold send_catch. apply send_finally_consistent.
  now destruct (negb _).
Qed.

Lemma step_consistent (st st' : State) (ev : Event) :
  consistent st -> step st ev = Some st' -> consistent st'.
Proof.
  intros Hc Hstep. pose proof Hc as [Hm Hs].
  destruct ev; cbn [step] in Hstep;
    try (injection Hstep as <-; try exact Hc).
  - now apply send_consistent.
  - unfold onKeyDown. destruct (_ && _); [now apply send_consistent|exact Hc].
  - unfold cancel. destruct (abortRef st) eqn:Hr; [|exact Hc].
    split; [exact Hm|].
    cbn [sending controllers set_controllers isSending abortRef].
    rewrite length_insert, Hr. exact Hs.
  - destruct (sending st) as [[c [|td]]|]; try discriminate.
    destruct (aborted st c); [discriminate|]. injection Hstep as <-.
    unfold send_fetched. destruct (_ || _).
    + now apply send_catch_consistent.
    + split; [exact Hm|]. exact Hs.
  - destruct (sending st) as [[c [|td]]|]; try discriminate.
    destruct (may_reject st c e); [|discriminate]. injection Hstep as <-.
    now apply send_catch_consistent.
  - destruct (sending st) as [[c [|td]]|]; try discriminate.
    destruct (aborted st c); [discriminate|].
    unfold send_read in Hstep.
    assert (Hfin : forall st1, messages st1 <> [] ->
               isSending st1 = isSending st -> abortRef st1 = abortRef st ->
               controllers st1 = controllers st ->
               forall td1,
               consistent (if done r then send_finally st1
                           else set_sending
                                  (Some {| controller := c;
                                           phase := AwaitRead td1 |}) st1)).
    { intros st1 Hm1 Hi Ha Hcs td1. destruct (done r).
      - now apply send_finally_consistent.
      - split; [exact Hm1|]. cbn [sending set_sending isSending abortRef
                                  controllers controller].
        now rewrite Hi, Ha, Hcs. }
    destruct (value r) as [v|].
    + destruct (decode td v) as [td' chunk]. unfold updateMessages in Hstep.
      destruct (appendToLast chunk (messages st)) as [m'|] eqn:Happ;
        [|discriminate].
      assert (Hm' : m' <> []).
      { apply appendToLast_length in Happ. destruct m'; [|discriminate].
        destruct (messages st); [contradiction|discriminate]. }
      specialize (Hfin (setMessages m' st) Hm' eq_refl eq_refl eq_refl td').
      destruct (done r); injection Hstep as <-; exact Hfin.
    + specialize (Hfin st Hm eq_refl eq_refl eq_refl td).
      destruct (done r); injection Hstep as <-; exact Hfin.
  - destruct (sending st) as [[c [|td]]|]; try discriminate.
    destruct (may_reject st c e); [|discriminate]. injection Hstep as <-.
    now apply send_catch_consistent.
  - destruct (resetting st); [discriminate|]. injection Hstep as <-.
    unfold reset_fetched. destruct (negb (ok res)); [exact Hc|].
    split; [discriminate|exact Hs].
  - destruct (resetting st); [discriminate|]. injection Hstep as <-.
    exact Hc.
Qed.

Lemma run_consistent (evs : list Event) : forall st st' : State,
  consistent st -> run st evs = Some st' -> consistent st'.
Proof.
  induction evs as [|ev evs IH]; intros st st' Hc Hrun; simpl in Hrun.
  - now injection Hrun as <-.
  - destruct (step st ev) as [st1|] eqn:Hstep; [|discriminate].
    eapply IH; [|exact Hrun]. eapply step_consistent; eassumption.
Qed.

(** The guard keeps calls of [send] apart: while one is suspended, another
    one returns at once. *)
Lemma one_send_at_a_time (st : State) :
  consistent st -> sending st <> None -> send st = st.
Proof.
  intros [_ Hs] Hsome. destruct (sending st) as [t|]; [|contradiction].
  destruct Hs as (Hi & _). unfold send, canSend. rewrite Hi.
  now rewrite andb_false_r.
Qed.

(** In a reachable state the updater of a chunk never throws: a chunk read
    by a live stream always has a successor state. *)
Lemma chunk_never_throws (st : State) (c : nat) (td : TextDecoder)
    (r : ReadResult) :
  consistent st ->
  sending st = Some {| controller := c; phase := AwaitRead td |} ->
  aborted st c = false ->
  exists st', step st (ReadResolved r) = Some st'.
Proof.
  intros [Hm _] Hs Ha. cbn [step]. rewrite Hs, Ha. unfold send_read.
  destruct (value r) as [v|].
  - destruct (decode td v) as [td' chunk]. unfold updateMessages.
    destruct (messages st) as [|e0 m0] eqn:Hmsg using rev_ind;
      [contradiction|].
    rewrite appendToLast_snoc. destruct (done r); eauto.
  - destruct (done r); eauto.
Qed.


(** ** What every reachable state satisfies *)

Lemma appendToLast_last (chunk : jsstring) (m m' : list ChatEntry) :
  appendToLast chunk m = Some m' -> last_is_assistant m'.
Proof.
  destruct m as [|e0 m0 _] using rev_ind; [discriminate|].
  rewrite appendToLast_snoc. intros [= <-].
  eexists. split; [apply last_snoc|reflexivity].
Qed.

Lemma send_last (st : State) :
  last_is_assistant (messages st) -> last_is_assistant (messages (send st)).
Proof.
  intros H. unfold send. destruct (canSend st); cbn [negb]; [|exact H].
  cbn [messages set_sending issue setIsSending set_abortRef set_controllers
       setInput setMessages setError].
  exists {| role := assistant; content := [] |}. split; [|reflexivity].
  change [{| role := user; content := input st |};
          {| role := assistant; content := [] |}]
    with ([{| role := user; content := input st |}]
          ++ [{| role := assistant; content := [] |}]).
  rewrite app_assoc. apply last_snoc.
Qed.

Lemma send_catch_messages (e : Exn) (st : State) :
  messages (send_catch e st) = messages st.
Proof. apply send_catch_clean. Qed.

Lemma step_last (st st' : State) (ev : Event) :
  last_is_assistant (messages st) -> step st ev = Some st' ->
  last_is_assistant (messages st').
Proof.
  intros Hl Hstep.
  destruct ev; cbn [step] in Hstep;
    try (injection Hstep as <-; try exact Hl).
  - now apply send_last.
  - unfold onKeyDown. destruct (_ && _); [now apply send_last|exact Hl].
  - unfold cancel. destruct (abortRef st); exact Hl.
  - destruct (sending st) as [[c [|td]]|]; try discriminate.
    destruct (aborted st c); [discriminate|]. injection Hstep as <-.
    unfold send_fetched. destruct (_ || _);
      [now rewrite send_catch_messages|exact Hl].
  - destruct (sending st) as [[c [|td]]|]; try discriminate.
    destruct (may_reject st c e); [|discriminate]. injection Hstep as <-.
    now rewrite send_catch_messages.
  - destruct (sending st) as [[c [|td]]|]; try discriminate.
    destruct (aborted st c); [discriminate|].
    unfold send_read in Hstep. destruct (value r) as [v|].
    + destruct (decode td v) as [td' chunk]. unfold updateMessages in Hstep.
      destruct (appendToLast chunk (messages st)) as [m'|] eqn:Happ;
        [|discriminate].
      apply appendToLast_last in Happ.
      destruct (done r); injection Hstep as <-; exact Happ.
    + destruct (done r); injection Hstep as <-; exact Hl.
  - destruct (sending st) as [[c [|td]]|]; try discriminate.
    destruct (may_reject st c e); [|discriminate]. injection Hstep as <-.
    now rewrite send_catch_messages.
  - destruct (resetting st); [discriminate|]. injection Hstep as <-.
    unfold reset_fetched. destruct (negb (ok res)); [exact Hl|].
    eexists. split; reflexivity.
  - destruct (resetting st); [discriminate|]. injection Hstep as <-.
    exact Hl.
Qed.

Lemma run_last (evs : list Event) : forall st st' : State,
  last_is_assistant (messages st) -> run st evs = Some st' ->
  last_is_assistant (messages st').
Proof.
  induction evs as [|ev evs IH]; intros st st' Hl Hrun; simpl in Hrun.
  - now injection Hrun as <-.
  - destruct (step st ev) as [st1|] eqn:Hstep; [|discriminate].
    eapply IH; [|exact Hrun]. eapply step_last; eassumption.
Qed.

Lemma reachable_consistent (st : State) : reachable st -> consistent st.
Proof.
  intros (base & tok & evs & Hrun).
  exact (run_consistent evs _ _ (initial_consistent base tok) Hrun).
Qed.

Lemma reachable_initial (base tok : jsstring) : reachable (initial base tok).
Proof. exists base, tok, []. reflexivity. Qed.

Lemma reachable_run (st st' : State) (evs : list Event) :
  reachable st -> run st evs = Some st' -> reachable st'.
Proof.
  intros (base & tok & evs0 & Hrun0) Hrun.
  exists base, tok, (evs0 ++ evs). now rewrite (run_app _ _ _ _ Hrun0).
Qed.

(** X1: in every reachable state the transcript is not empty and its last
    entry is an assistant entry; the sending flag is on exactly when a call
    of [send] is suspended; and [abortRef] holds a controller exactly then,
    the one of that call, which exists in the heap. *)
Theorem reachable_state_invariants (st : State) :
  reachable st ->
  messages st <> []
  /\ last_is_assistant (messages st)
  /\ (isSending st = true <-> sending st <> None)
  /\ (forall c, abortRef st = Some c
                <-> exists ph, sending st
                               = Some {| controller := c; phase := ph |})
  /\ (forall c, abortRef st = Some c -> (c < length (controllers st))%nat).
Proof.
  intros Hr. pose proof (reachable_consistent st Hr) as [Hm Hs].
  destruct Hr as (base & tok & evs & Hrun).
  assert (Hl : last_is_assistant (messages st)).
  { refine (run_last evs _ _ _ Hrun). eexists. split; reflexivity. }
  split; [exact Hm|]. split; [exact Hl|].
  destruct (sending st) as [[c ph]|]; cbn [controller] in Hs.
  - destruct Hs as (Hi & Ha & Hlt). split_and!.
    + split; [discriminate|intros _; exact Hi].
    + intros c'. rewrite Ha. split.
      * intros [= <-]. now exists ph.
      * intros (ph' & [= -> _]). reflexivity.
    + intros c'. rewrite Ha. intros [= <-]. exact Hlt.
  - destruct Hs as (Hi & Ha). split_and!.
    + split; [rewrite Hi; discriminate|intros H; now contradict H].
    + intros c'. rewrite Ha. split; [discriminate|intros (ph & H); discriminate].
    + intros c'. rewrite Ha. discriminate.
Qed.

Lemma reachable_state_invariants_witness :
  let st := streaming 0 (fst (decode new_TextDecoder (lit "Hi")))
              [{| role := assistant; content := welcome |};
               {| role := user; content := lit "hello" |};
               {| role := assistant; content := lit "Hi" |}]
              (send (setInput (lit "hello")
                       (initial (lit "http://x") (lit "t")))) in
  reachable st
  /\ (isSending st = true <-> sending st <> None)
  /\ last_is_assistant (messages st).
Proof.
  intros st.
  assert (Hr : reachable st).
  { exists (lit "http://x"), (lit "t"),
      [SetInput (lit "hello"); Send;
       FetchResolved {| ok := true; status := 200; body := true |};
       chunk_read (lit "Hi")].
    vm_compute. reflexivity. }
  split; [exact Hr|].
  destruct (reachable_state_invariants st Hr) as (_ & Hl & Hi & _).
  split; [exact Hi|exact Hl].
Defined.

Lemma reachable_example :
  reachable (streaming 0 (fst (decode new_TextDecoder (lit "Hi")))
               [{| role := assistant; content := welcome |};
                {| role := user; content := lit "hello" |};
                {| role := assistant; content := lit "Hi" |}]
               (send (setInput (lit "hello")
                        (initial (lit "http://x") (lit "t"))))).
Proof.
  exists (lit "http://x"), (lit "t"),
    [SetInput (lit "hello"); Send;
     FetchResolved {| ok := true; status := 200; body := true |};
     chunk_read (lit "Hi")].
  vm_compute. reflexivity.
Defined.

Lemma send_blocked_noop_frame (st : State) :
  canSend st = false ->
  step st Send = Some st
  /\ (forall shiftKey, step st (KeyDown (lit "Enter") shiftKey) = Some st).
Proof.
  intros H.
  assert (Hs : send st = st) by (unfold send; rewrite H; reflexivity).
  split.
  - simpl. now rewrite Hs.
  - intros sh. simpl. unfold onKeyDown. destruct (_ && _); now rewrite ?Hs.
Qed.

(** X2: in a reachable state with a call of [send] suspended, the Send
    button and Enter do nothing and issue no request; so a state that
    passes the guard has no suspended call. *)
Theorem second_send_is_blocked (st : State) :
  reachable st ->
  (sending st <> None ->
   step st Send = Some st
   /\ (forall shiftKey, step st (KeyDown (lit "Enter") shiftKey) = Some st)
   /\ issued st Send = [])
  /\ (canSend st = true -> sending st = None).
Proof.
  intros Hr. pose proof (reachable_consistent st Hr) as Hc.
  assert (Hblocked : sending st <> None -> canSend st = false).
  { intros Hs. destruct Hc as [_ Hc]. destruct (sending st); [|contradiction].
    destruct Hc as (Hi & _). unfold canSend. rewrite Hi.
    now rewrite andb_false_r. }
  split.
  - intros Hs. pose proof (Hblocked Hs) as Hcs.
    destruct (send_blocked_noop_frame st Hcs) as (H1 & H2).
    split; [exact H1|]. split; [exact H2|].
    cbn [issued]. now rewrite Hcs.
  - intros Hcs. destruct (sending st) eqn:Hs; [|reflexivity].
    rewrite Hblocked in Hcs by discriminate. discriminate.
Qed.

Lemma second_send_is_blocked_witness :
  let st := streaming 0 (fst (decode new_TextDecoder (lit "Hi")))
              [{| role := assistant; content := welcome |};
               {| role := user; content := lit "hello" |};
               {| role := assistant; content := lit "Hi" |}]
              (send (setInput (lit "hello")
                       (initial (lit "http://x") (lit "t")))) in
  step (setInput (lit "again") st) Send = Some (setInput (lit "again") st).
Proof.
  intros st.
  assert (Hr : reachable (setInput (lit "again") st)).
  { apply (reachable_run st _ [SetInput (lit "again")] reachable_example).
    reflexivity. }
  destruct (second_send_is_blocked _ Hr) as (H & _).
  apply H. discriminate.
Defined.

Lemma reachable_state_invariants_frame (st : State) :
  reachable st ->
  messages st <> []
  /\ exists e, last (messages st) = Some e /\ role e = assistant.
Proof.
  intros Hr. pose proof (reachable_consistent st Hr) as [Hm _].
  destruct Hr as (base & tok & evs & Hrun). split; [exact Hm|].
  refine (run_last evs _ _ _ Hrun). eexists. split; reflexivity.
Qed.

(** X3: in a reachable state, whatever a live stream reads is applied: the
    updater finds a last entry, so it does not throw; the entry keeps its
    role (it is an assistant entry already) and gets the decoded text
    appended, and the entries before it are untouched. *)
Theorem live_stream_applies_reads (st : State) (c : nat) (td : TextDecoder)
    (r : ReadResult) :
  reachable st ->
  sending st = Some {| controller := c; phase := AwaitRead td |} ->
  aborted st c = false ->
  exists st',
    step st (ReadResolved r) = Some st'
    /\ reachable st'
    /\ match value r with
       | Some v =>
           exists m e,
             messages st = m ++ [e]
             /\ messages st'
                = m ++ [{| role := role e;
                           content := content e ++ snd (decode td v) |}]
       | None => messages st' = messages st
       end.
Proof.
  intros Hr Hs Ha.
  destruct (reachable_state_invariants_frame st Hr) as (Hm & e & Hlast & Hrole).
  apply last_Some in Hlast as [m Hmsg].
  assert (Hstep : exists st',
    step st (ReadResolved r) = Some st'
    /\ match value r with
       | Some v =>
           messages st'
           = m ++ [{| role := assistant;
                      content := content e ++ snd (decode td v) |}]
       | None => messages st' = messages st
       end).
  { cbn [step]. rewrite Hs, Ha. unfold send_read.
    destruct (value r) as [v|].
    - destruct (decode td v) as [td' chunk]. unfold updateMessages.
      rewrite Hmsg, appendToLast_snoc. cbn [snd].
      destruct (done r); eexists; (split; [reflexivity|]); reflexivity.
    - destruct (done r); eexists; (split; [reflexivity|]); reflexivity. }
  destruct Hstep as (st' & Hstep & Hres). exists st'.
  split; [exact Hstep|]. split.
  - apply (reachable_run st st' [ReadResolved r] Hr). cbn [run].
    now rewrite Hstep.
  - destruct (value r) as [v|]; [|exact Hres].
    exists m, e. rewrite Hrole. now split.
Qed.

Lemma live_stream_applies_reads_witness :
  let st := streaming 0 (fst (decode new_TextDecoder (lit "Hi")))
              [{| role := assistant; content := welcome |};
               {| role := user; content := lit "hello" |};
               {| role := assistant; content := lit "Hi" |}]
              (send (setInput (lit "hello")
                       (initial (lit "http://x") (lit "t")))) in
  exists st', step st (chunk_read (lit " there")) = Some st'.
Proof.
  intros st.
  destruct (live_stream_applies_reads st 0%nat
              (fst (decode new_TextDecoder (lit "Hi")))
              {| value := Some (lit " there"); done := false |}
              reachable_example eq_refl eq_refl) as (st' & Hstep & _).
  exists st'. exact Hstep.
Defined.

(** ** The history of the transcript *)

Lemma grows_refl (m : list ChatEntry) : m <> [] -> grows m m.
Proof.
  intros Hm. destruct m as [|e h _] using rev_ind; [contradiction|].
  exists h, e, e, []. split_and!; reflexivity.
Qed.

Lemma grows_send (st : State) :
  messages st <> [] -> grows (messages st) (messages (send st)).
Proof.
  intros Hm. unfold send. destruct (canSend st); cbn [negb];
    [|now apply grows_refl].
  cbn [messages set_sending issue setIsSending set_abortRef set_controllers
       setInput setMessages setError].
  destruct (messages st) as [|e h _] using rev_ind; [contradiction|].
  exists h, e, e, [{| role := user; content := input st |};
                   {| role := assistant; content := [] |}].
  split_and!; [reflexivity| |reflexivity]. now rewrite <- app_assoc.
Qed.

Lemma grows_chunk (chunk : jsstring) (m m' : list ChatEntry) :
  appendToLast chunk m = Some m' -> grows m m'.
Proof.
  destruct m as [|e h _] using rev_ind; [discriminate|].
  rewrite appendToLast_snoc. intros [= <-].
  exists h, e, {| role := assistant; content := content e ++ chunk |}, [].
  split_and!; [reflexivity|reflexivity|]. now exists chunk.
Qed.

(** X4: entries are never reordered, removed or rewritten one by one: an
    event either is the success of a reset, which replaces the transcript
    by the confirmation entry, or keeps every entry but the last as it is
    and keeps the text of the last one as a prefix of what stands in its
    place, possibly with new entries after it. *)
Theorem transcript_only_grows (st st' : State) (ev : Event) :
  messages st <> [] ->
  step st ev = Some st' ->
  match ev with
  | ResetResolved res =>
      if ok res
      then messages st' = [{| role := assistant; content := cleared |}]
      else messages st' = messages st
  | _ => grows (messages st) (messages st')
  end.
Proof.
  intros Hm Hstep. pose proof (grows_refl _ Hm) as Hrefl.
  destruct ev; cbn [step] in Hstep;
    try (injection Hstep as <-; try exact Hrefl).
  - now apply grows_send.
  - unfold onKeyDown. destruct (_ && _); [now apply grows_send|exact Hrefl].
  - unfold cancel. destruct (abortRef st); exact Hrefl.
  - destruct (sending st) as [[c [|td]]|]; try discriminate.
    destruct (aborted st c); [discriminate|]. injection Hstep as <-.
    unfold send_fetched. destruct (_ || _);
      [now rewrite send_catch_messages|exact Hrefl].
  - destruct (sending st) as [[c [|td]]|]; try discriminate.
    destruct (may_reject st c e); [|discriminate]. injection Hstep as <-.
    now rewrite send_catch_messages.
  - destruct (sending st) as [[c [|td]]|]; try discriminate.
    destruct (aborted st c); [discriminate|].
    unfold send_read in Hstep. destruct (value r) as [v|].
    + destruct (decode td v) as [td' chunk]. unfold updateMessages in Hstep.
      destruct (appendToLast chunk (messages st)) as [m'|] eqn:Happ;
        [|discriminate].
      apply grows_chunk in Happ.
      destruct (done r); injection Hstep as <-; exact Happ.
    + destruct (done r); injection Hstep as <-; exact Hrefl.
  - destruct (sending st) as [[c [|td]]|]; try discriminate.
    destruct (may_reject st c e); [|discriminate]. injection Hstep as <-.
    now rewrite send_catch_messages.
  - destruct (resetting st); [discriminate|]. injection Hstep as <-.
    unfold reset_fetched. now destruct (ok res).
  - destruct (resetting st); [discriminate|]. injection Hstep as <-.
    exact Hrefl.
Qed.

Lemma transcript_only_grows_witness :
  grows [{| role := assistant; content := welcome |}]
        [{| role := assistant; content := welcome |};
         {| role := user; content := lit "hello" |};
         {| role := assistant; content := [] |}].
Proof.
  exact (transcript_only_grows
           (setInput (lit "hello") (initial (lit "http://x") (lit "t")))
           _ Send ltac:(discriminate) eq_refl).
Defined.

(** ** [cancel] in any reachable state *)

Lemma cancel_idempotent (st : State) : cancel (cancel st) = cancel st.
Proof.
  unfold cancel. destruct (abortRef st) as [c|] eqn:Hr.
  - cbn [abortRef set_controllers]. rewrite Hr.
    cbn [controllers set_controllers]. unfold set_controllers.
    cbn. now rewrite list_insert_insert_eq.
  - now rewrite Hr.
Qed.

(** X5: [cancel] touches neither the transcript, the error, the sending
    flag nor the request log, and calling it twice is calling it once.  In a
    reachable state with no call of [send] suspended it changes nothing at
    all; with one suspended it aborts the controller of that call, after
    which the awaited promise cannot resolve and cannot reject with
    anything but an [AbortError], and on that rejection [send] ends with the
    transcript and the error as they were. *)
Theorem cancel_stops_the_send (st : State) :
  reachable st ->
  cancel (cancel st) = cancel st
  /\ messages (cancel st) = messages st
  /\ error (cancel st) = error st
  /\ isSending (cancel st) = isSending st
  /\ requests (cancel st) = requests st
  /\ match sending st with
     | None => cancel st = st
     | Some t =>
         aborted (cancel st) (controller t) = true
         /\ (forall res, step (cancel st) (FetchResolved res) = None)
         /\ (forall r, step (cancel st) (ReadResolved r) = None)
         /\ (forall e, name e <> AbortError ->
               step (cancel st) (FetchRejected e) = None
               /\ step (cancel st) (ReadRejected e) = None)
         /\ (forall msg, exists st',
               step (cancel st)
                 (match phase t with
                  | AwaitFetch => FetchRejected (abort_exn msg)
                  | AwaitRead _ => ReadRejected (abort_exn msg)
                  end) = Some st'
               /\ messages st' = messages st
               /\ error st' = error st
               /\ finished st')
     end.
Proof.
  intros Hr. pose proof (reachable_consistent st Hr) as [_ Hc].
  destruct (cancel_frame st) as (Hm & He & Hi & Href & Hs).
  split; [apply cancel_idempotent|]. split; [exact Hm|]. split; [exact He|].
  split; [exact Hi|].
  split; [unfold cancel; destruct (abortRef st); reflexivity|].
  destruct (sending st) as [[c ph]|] eqn:Hsend; cbn [controller phase] in *.
  - destruct Hc as (_ & Ha & Hlt).
    pose proof (cancel_aborts st c Ha Hlt) as Hab.
    split; [exact Hab|]. split_and!.
    + intros res. cbn [step]. rewrite Hs.
      destruct ph; [now rewrite Hab|reflexivity].
    + intros r. cbn [step]. rewrite Hs.
      destruct ph; [reflexivity|now rewrite Hab].
    + intros e Hne. cbn [step]. rewrite Hs. unfold may_reject.
      rewrite Hab, bool_decide_eq_false_2 by exact Hne.
      destruct ph; split; reflexivity.
    + intros msg. exists (send_finally (cancel st)).
      split; [|split; [exact Hm|split; [exact He|repeat split]]].
      destruct ph; cbn [step]; rewrite Hs, may_reject_abort;
        now rewrite send_catch_abort by reflexivity.
  - destruct Hc as (_ & Ha). unfold cancel. now rewrite Ha.
Qed.

Lemma cancel_stops_the_send_witness :
  let st := streaming 0 (fst (decode new_TextDecoder (lit "Hi")))
              [{| role := assistant; content := welcome |};
               {| role := user; content := lit "hello" |};
               {| role := assistant; content := lit "Hi" |}]
              (send (setInput (lit "hello")
                       (initial (lit "http://x") (lit "t")))) in
  aborted (cancel st) 0 = true
  /\ step (cancel st) (chunk_read (lit " there")) = None.
Proof.
  intros st.
  destruct (cancel_stops_the_send st reachable_example)
    as (_ & _ & _ & _ & _ & Hab & _ & Hread & _).
  split; [exact Hab|apply Hread].
Defined.

(** ** A send that fails *)

Lemma send_passed (st : State) :
  canSend st = true ->
  messages (send st)
  = messages st ++ [{| role := user; content := input st |};
                    {| role := assistant; content := [] |}]
  /\ error (send st) = []
  /\ input (send st) = [].
Proof. intros Hc. unfold send. rewrite Hc. repeat split. Qed.

Lemma send_catch_error (e : Exn) (st : State) :
  error (send_catch e st)
  = if bool_decide (name e = AbortError) then error st else describe e.
Proof. unfold send_catch. now destruct (bool_decide _). Qed.

Lemma describe_empty (e : Exn) :
  describe e = [] <-> name e = [] /\ message e = [].
Proof.
  unfold describe, Error_toString.
  destruct (message e) as [|c s] eqn:Hm; cbn [truthy negb].
  - destruct (name e) as [|c' s'] eqn:Hn; cbn [truthy negb].
    + split; auto.
    + split; [discriminate|]. intros [H _]. discriminate H.
  - split; [discriminate|]. intros [_ H]. discriminate H.
Qed.

(** X6: a send that fails keeps what it had put in the transcript.  After a
    response that is not ok or has no body (a 204 included), and after a
    rejected [fetch], the user entry and the empty assistant entry stay; after
    a read that fails in the stream, the assistant entry keeps the chunks
    received so far.  The error is [HTTP <status>] for a bad response; for an
    exception it is empty when the exception is named [AbortError], whether
    or not [cancel] was called, and [String(e.message || e)] otherwise, which
    is empty only if the exception has neither name nor message. *)
Theorem failed_send_keeps_entries (st : State) :
  canSend st = true ->
  (forall res,
      if streamable res then True
      else exists st',
             run st [Send; FetchResolved res] = Some st'
             /\ messages st'
                = messages st ++ [{| role := user; content := input st |};
                                  {| role := assistant; content := [] |}]
             /\ error st' = lit "HTTP " ++ decimal (status res))
  /\ (forall e, exists st',
         run st [Send; FetchRejected e] = Some st'
         /\ messages st'
            = messages st ++ [{| role := user; content := input st |};
                              {| role := assistant; content := [] |}]
         /\ error st'
            = if bool_decide (name e = AbortError) then [] else describe e)
  /\ (forall res vs e,
        if streamable res
        then exists st',
               run st (Send :: FetchResolved res
                       :: map chunk_read vs ++ [ReadRejected e]) = Some st'
               /\ messages st'
                  = messages st
                    ++ [{| role := user; content := input st |};
                        {| role := assistant;
                           content :=
                             concat (decoded_chunks new_TextDecoder vs) |}]
               /\ error st'
                  = if bool_decide (name e = AbortError) then []
                    else describe e
        else True)
  /\ (forall e, describe e = [] <-> name e = [] /\ message e = []).
Proof.
  intros Hc.
  destruct (send_started st Hc) as (Hs & _ & _ & Ha).
  destruct (send_passed st Hc) as (Hm & He & _).
  split_and!.
  - intros res. destruct (streamable res) eqn:Hres; [exact I|].
    exists (send_catch (http_error (status res)) (send st)). split_and!.
    + cbn [run step]. rewrite Hs, Ha. unfold send_fetched.
      unfold streamable in Hres.
      replace (negb (ok res) || negb (body res)) with true; [reflexivity|].
      destruct (ok res), (body res); try reflexivity; discriminate.
    + now rewrite send_catch_messages.
    + rewrite send_catch_error.
      rewrite bool_decide_eq_false_2 by (vm_compute; discriminate).
      reflexivity.
  - intros e. exists (send_catch e (send st)). split_and!.
    + cbn [run step]. rewrite Hs. now rewrite may_reject_live by exact Ha.
    + now rewrite send_catch_messages.
    + now rewrite send_catch_error, He.
  - intros res vs e. destruct (streamable res) eqn:Hres; [|exact I].
    destruct (send_enters_loop st res Hc Hres)
      as (st0 & Hrun & Ha0 & He0 & _).
    eexists. split_and!.
    + change (Send :: FetchResolved res
              :: map chunk_read vs ++ [ReadRejected e])
        with ([Send; FetchResolved res]
              ++ map chunk_read vs ++ [ReadRejected e]).
      rewrite (run_app _ _ _ _ Hrun), app_assoc.
      rewrite (run_app _ _ _ _ (run_chunks vs _ _ _ _ _ Ha0)).
      cbn [run].
      rewrite step_read_rejected by (now apply may_reject_live).
      reflexivity.
    + rewrite send_catch_messages.
      cbn [messages streaming set_sending setMessages].
      rewrite absorb_assistant. cbn [app]. now rewrite <- app_assoc.
    + rewrite send_catch_error.
      cbn [error streaming set_sending setMessages]. now rewrite He0.
  - apply describe_empty.
Qed.

Lemma failed_send_keeps_entries_witness :
  exists st',
    run (setInput (lit "hello") (initial (lit "http://x") (lit "t")))
      [Send; FetchResolved {| ok := true; status := 204; body := false |}]
    = Some st'
    /\ messages st'
       = [{| role := assistant; content := welcome |};
          {| role := user; content := lit "hello" |};
          {| role := assistant; content := [] |}]
    /\ error st' = lit "HTTP 204".
Proof.
  destruct (failed_send_keeps_entries
              (setInput (lit "hello") (initial (lit "http://x") (lit "t")))
              eq_refl) as (H & _).
  exact (H {| ok := true; status := 204; body := false |}).
Defined.

(** ** The requests *)

Lemma canSend_true (st : State) :
  canSend st = true ->
  apiBase st <> [] /\ token st <> [] /\ trim (input st) <> [].
Proof.
  unfold canSend. rewrite !andb_true_iff, !truthy_true.
  intros [[[Hb Ht] Hl] _]. split_and!; [exact Hb|exact Ht|].
  intros H. apply length_pos_false in H. congruence.
Qed.

Lemma send_frame (st : State) :
  requests (send st)
  = requests st
    ++ (if canSend st then [generate_request st (length (controllers st))]
        else [])
  /\ controllers (send st)
     = controllers st ++ (if canSend st then [false] else []).
Proof.
  unfold send. destruct (canSend st); cbn [negb].
  - split; reflexivity.
  - now rewrite !app_nil_r.
Qed.

Lemma send_catch_frame (e : Exn) (st : State) :
  requests (send_catch e st) = requests st
  /\ controllers (send_catch e st) = controllers st.
Proof. unfold send_catch. destruct (negb _); split; reflexivity. Qed.

Lemma step_frame (st st' : State) (ev : Event) :
  step st ev = Some st' ->
  requests st' = requests st ++ issued st ev
  /\ length (controllers st')
     = (length (controllers st) + length (omap signal (issued st ev)))%nat.
Proof.
  intros Hstep.
  assert (Hsame : forall s : State,
             requests s = requests st -> controllers s = controllers st ->
             requests s = requests st ++ []
             /\ length (controllers s)
                = (length (controllers st) + 0)%nat).
  { intros s -> ->. rewrite app_nil_r. split; [reflexivity|lia]. }
  assert (Hsend :
    requests (send st)
    = requests st
      ++ (if canSend st then [generate_request st (length (controllers st))]
          else [])
    /\ length (controllers (send st))
       = (length (controllers st)
          + length (omap signal
                      (if canSend st
                       then [generate_request st (length (controllers st))]
                       else [])))%nat).
  { destruct (send_frame st) as [-> ->]. split; [reflexivity|].
    rewrite length_app. now destruct (canSend st). }
  destruct ev; cbn [step issued] in *;
    try (injection Hstep as <-; try (now apply Hsame)).
  - exact Hsend.
  - unfold onKeyDown. destruct (_ && negb _); cbn [andb];
      [exact Hsend|now apply Hsame].
  - unfold cancel. destruct (abortRef st); [|now apply Hsame].
    split; cbn; [now rewrite app_nil_r|rewrite length_insert; lia].
  - split; [reflexivity|]. cbn. lia.
  - destruct (sending st) as [[c [|td]]|]; try discriminate.
    destruct (aborted st c); [discriminate|]. injection Hstep as <-.
    unfold send_fetched. destruct (_ || _); [|now apply Hsame].
    apply Hsame; apply send_catch_frame.
  - destruct (sending st) as [[c [|td]]|]; try discriminate.
    destruct (may_reject st c e); [|discriminate]. injection Hstep as <-.
    apply Hsame; apply send_catch_frame.
  - destruct (sending st) as [[c [|td]]|]; try discriminate.
    destruct (aborted st c); [discriminate|].
    unfold send_read in Hstep. destruct (value r) as [v|].
    + destruct (decode td v) as [td' chunk]. unfold updateMessages in Hstep.
      destruct (appendToLast chunk (messages st)) as [m'|]; [|discriminate].
      destruct (done r); injection Hstep as <-; now apply Hsame.
    + destruct (done r); injection Hstep as <-; now apply Hsame.
  - destruct (sending st) as [[c [|td]]|]; try discriminate.
    destruct (may_reject st c e); [|discriminate]. injection Hstep as <-.
    apply Hsame; apply send_catch_frame.
  - destruct (resetting st); [discriminate|]. injection Hstep as <-.
    unfold reset_fetched. destruct (negb (ok res)); now apply Hsame.
  - destruct (resetting st); [discriminate|]. injection Hstep as <-.
    now apply Hsame.
Qed.

(** X7: the request log only grows, and only three events add to it: the
    Send button and Enter without Shift, each by one POST to
    [/generate_stream] when the guard passes and by nothing when it does
    not, and the reset button, by one POST to [/reset] in any state.  Edits,
    [cancel] and the settling of promises issue nothing. *)
Theorem requests_come_from_send_and_reset (st st' : State) (ev : Event) :
  step st ev = Some st' ->
  requests st' = requests st ++ issued st ev.
Proof. intros Hstep. now apply step_frame. Qed.

Lemma requests_come_from_send_and_reset_witness :
  requests (resetChat (initial [] []))
  = [{| url := lit "/reset"; method := lit "POST";
        headers := [(lit "Authorization", lit "Bearer ")];
        req_body := NoBody; signal := None |}].
Proof.
  exact (requests_come_from_send_and_reset (initial [] []) _ ResetChat
           eq_refl).
Defined.

Lemma issued_shaped (st : State) (ev : Event) :
  Forall (fun r => generate_shaped r \/ reset_shaped r) (issued st ev)
  /\ (omap signal (issued st ev) = []
      \/ omap signal (issued st ev) = [length (controllers st)]).
Proof.
  assert (Hgen : canSend st = true ->
                 generate_shaped
                   (generate_request st (length (controllers st)))).
  { intros Hc. destruct (canSend_true st Hc) as (Hb & Ht & Hi).
    exists (apiBase st), (token st), (input st), (length (controllers st)).
    split_and!; auto. }
  destruct ev; cbn [issued]; try (split; [solve [constructor]|now left]).
  - destruct (canSend st) eqn:Hc; [|split; [constructor|now left]].
    split; [|now right]. constructor; [left; auto|constructor].
  - destruct (_ && negb _); cbn [andb]; [|split; [constructor|now left]].
    destruct (canSend st) eqn:Hc; [|split; [constructor|now left]].
    split; [|now right]. constructor; [left; auto|constructor].
  - split; [|now left]. constructor; [|constructor].
    right. now exists (apiBase st), (token st).
Qed.

Lemma step_log_ok (st st' : State) (ev : Event) :
  log_ok st -> step st ev = Some st' -> log_ok st'.
Proof.
  intros (Hshape & Hlt & Hnd) Hstep.
  destruct (step_frame st st' ev Hstep) as (Hreq & Hlen).
  destruct (issued_shaped st ev) as (Hish & Hsig).
  unfold log_ok. rewrite Hreq, omap_app, Hlen.
  split_and!.
  - apply Forall_app. now split.
  - apply Forall_app. split.
    + eapply Forall_impl; [exact Hlt|]. intros c Hc. cbn in Hc. lia.
    + destruct Hsig as [->| ->]; [constructor|].
      constructor; [cbn; lia|constructor].
  - apply NoDup_app. split_and!; [exact Hnd| |].
    + intros c Hin Hin'. rewrite Forall_forall in Hlt.
      specialize (Hlt c Hin).
      destruct Hsig as [Hs|Hs]; rewrite Hs in Hin'.
      * now apply not_elem_of_nil in Hin'.
      * apply list_elem_of_singleton in Hin'. lia.
    + destruct Hsig as [->| ->]; [constructor|].
      apply NoDup_singleton.
Qed.

Lemma run_log_ok (evs : list Event) : forall st st' : State,
  log_ok st -> run st evs = Some st' -> log_ok st'.
Proof.
  induction evs as [|ev evs IH]; intros st st' Hc Hrun; simpl in Hrun.
  - now injection Hrun as <-.
  - destruct (step st ev) as [st1|] eqn:Hstep; [|discriminate].
    eapply IH; [|exact Hrun]. eapply step_log_ok; eassumption.
Qed.

(** X8: every request the component has ever issued is either a POST to
    [<base>/generate_stream] with a non-empty base, a non-empty bearer
    token, a prompt that is not blank and the signal of a controller, or a
    POST to [<base>/reset] with the bearer header, no body and no signal;
    and no two requests share a controller. *)
Theorem every_request_is_well_formed (st : State) :
  reachable st ->
  Forall (fun r => generate_shaped r \/ reset_shaped r) (requests st)
  /\ NoDup (omap signal (requests st)).
Proof.
  intros (base & tok & evs & Hrun).
  assert (H0 : log_ok (initial base tok)).
  { split_and!; cbn; constructor. }
  destruct (run_log_ok evs _ _ H0 Hrun) as (H1 & _ & H3). now split.
Qed.

Lemma every_request_is_well_formed_witness :
  Forall (fun r => generate_shaped r \/ reset_shaped r)
    (requests (streaming 0 (fst (decode new_TextDecoder (lit "Hi")))
                 [{| role := assistant; content := welcome |};
                  {| role := user; content := lit "hello" |};
                  {| role := assistant; content := lit "Hi" |}]
                 (send (setInput (lit "hello")
                          (initial (lit "http://x") (lit "t")))))).
Proof.
  exact (proj1 (every_request_is_well_formed _ reachable_example)).
Defined.

(** ** What [trim] keeps *)

Lemma trimStart_spec (s : jsstring) :
  exists pre,
    s = pre ++ trimStart s
    /\ Forall (fun c => is_white c = true) pre
    /\ match trimStart s with
       | [] => True
       | c :: _ => is_white c = false
       end.
Proof.
  induction s as [|c s (pre & Heq & Hpre & Hhd)].
  - exists []. repeat split. constructor.
  - cbn [trimStart]. destruct (is_white c) eqn:Hc.
    + exists (c :: pre). split_and!; [cbn; congruence|now constructor|exact Hhd].
    + exists []. split_and!; [reflexivity|constructor|exact Hc].
Qed.

Lemma trimEnd_spec (s : jsstring) :
  exists post,
    s = trimEnd s ++ post
    /\ Forall (fun c => is_white c = true) post
    /\ match last (trimEnd s) with
       | None => True
       | Some c => is_white c = false
       end.
Proof.
  unfold trimEnd.
  destruct (trimStart_spec (rev s)) as (pre & Heq & Hpre & Hhd).
  exists (rev pre). split_and!.
  - rewrite <- rev_app_distr, <- Heq. now rewrite rev_involutive.
  - now apply Forall_rev.
  - destruct (trimStart (rev s)) as [|c r]; [exact I|].
    cbn [rev]. now rewrite last_snoc.
Qed.

Lemma trim_spec (s : jsstring) :
  exists pre post,
    s = pre ++ trim s ++ post
    /\ Forall (fun c => is_white c = true) pre
    /\ Forall (fun c => is_white c = true) post
    /\ match trim s with
       | [] => True
       | c :: _ => is_white c = false
       end
    /\ match last (trim s) with
       | None => True
       | Some c => is_white c = false
       end.
Proof.
  unfold trim.
  destruct (trimStart_spec s) as (pre & Heq & Hpre & Hhd).
  destruct (trimEnd_spec (trimStart s)) as (post & Heq' & Hpost & Hlast).
  exists pre, post. split_and!; try assumption.
  - now rewrite <- Heq'.
  - destruct (trimEnd (trimStart s)) as [|c r] eqn:Ht; [exact I|].
    rewrite Heq' in Hhd. exact Hhd.
Qed.

Lemma trim_empty_iff (s : jsstring) :
  trim s = [] <-> Forall (fun c => is_white c = true) s.
Proof.
  destruct (trim_spec s) as (pre & post & Heq & Hpre & Hpost & Hhd & _).
  split.
  - intros Ht. rewrite Ht in Heq. rewrite Heq. cbn [app].
    apply Forall_app. now split.
  - intros Hall. destruct (trim s) as [|c r]; [reflexivity|].
    rewrite Heq in Hall. apply Forall_app in Hall as [_ Hall].
    apply Forall_app in Hall as [Hall _].
    apply Forall_inv in Hall. congruence.
Qed.

Lemma trim_fixed (s : jsstring) :
  match s with [] => True | c :: _ => is_white c = false end ->
  match last s with None => True | Some c => is_white c = false end ->
  trim s = s.
Proof.
  intros Hhd Hlast.
  assert (Hstart : forall t : jsstring,
             match t with [] => True | c :: _ => is_white c = false end ->
             trimStart t = t).
  { intros [|c t] H; [reflexivity|]. cbn [trimStart]. now rewrite H. }
  unfold trim, trimEnd. rewrite (Hstart s Hhd).
  rewrite Hstart; [apply rev_involutive|].
  destruct s as [|c s _] using rev_ind; [exact I|].
  rewrite rev_app_distr. cbn [rev app]. now rewrite last_snoc in Hlast.
Qed.

(** X9: [trim] removes exactly the white margins: the string is a run of
    white code units, then the trimmed string, then a run of white code
    units, and the trimmed string neither starts nor ends with one; trimming
    twice is trimming once.  So the trimmed input is empty exactly when the
    input holds nothing but white code units, and [canSend] is true exactly
    when base and token are non-empty, the input holds a code unit that is
    not white, and no send is in progress. *)
Theorem blank_input_cannot_be_sent (st : State) :
  (forall s : jsstring,
      (exists pre post,
          s = pre ++ trim s ++ post
          /\ Forall (fun c => is_white c = true) pre
          /\ Forall (fun c => is_white c = true) post
          /\ match trim s with
             | [] => True
             | c :: _ => is_white c = false
             end
          /\ match last (trim s) with
             | None => True
             | Some c => is_white c = false
             end)
      /\ trim (trim s) = trim s)
  /\ (canSend st = true <->
        apiBase st <> [] /\ token st <> []
        /\ Exists (fun c => is_white c = false) (input st)
        /\ isSending st = false).
Proof.
  split.
  - intros s. split; [apply trim_spec|].
    destruct (trim_spec s) as (_ & _ & _ & _ & _ & Hhd & Hlast).
    now apply trim_fixed.
  - assert (Hblank : trim (input st) <> []
                     <-> Exists (fun c => is_white c = false) (input st)).
    { rewrite trim_empty_iff, <- Exists_Forall_neg.
      - split; intros H; (eapply Exists_impl; [exact H|]);
          intros c Hc; destruct (is_white c) eqn:E; congruence.
      - intros c. destruct (is_white c); [left|right]; congruence. }
    rewrite <- Hblank. unfold canSend.
    rewrite !andb_true_iff, negb_true_iff, !truthy_true.
    rewrite <- (not_false_iff_true (0 <? _)), length_pos_false. tauto.
Qed.

(** ** The bytes of a response and the text of its entry *)

Lemma run_whole_send (st : State) (res : Response) (vs : list bytes) :
  canSend st = true -> streamable res = true ->
  exists st',
    run st (Send :: FetchResolved res :: map chunk_read vs ++ [end_of_stream])
    = Some st'
    /\ messages st'
       = messages st
         ++ [{| role := user; content := input st |};
             {| role := assistant;
                content := snd (decode new_TextDecoder (concat vs)) |}]
    /\ forall vs',
         concat vs' = concat vs ->
         run st (Send :: FetchResolved res
                 :: map chunk_read vs' ++ [end_of_stream]) = Some st'.
Proof.
  intros Hc Hres.
  destruct (send_enters_loop st res Hc Hres) as (st0 & Hrun & Ha & _).
  assert (Hall : forall ws,
    run st (Send :: FetchResolved res :: map chunk_read ws ++ [end_of_stream])
    = Some (send_finally
              (setMessages
                 (messages st
                  ++ [{| role := user; content := input st |};
                      {| role := assistant;
                         content := snd (decode new_TextDecoder
                                           (concat ws)) |}]) st0))).
  { intros ws.
    change (Send :: FetchResolved res :: map chunk_read ws ++ [end_of_stream])
      with ([Send; FetchResolved res] ++ map chunk_read ws ++ [end_of_stream]).
    rewrite (run_app _ _ _ _ Hrun), app_assoc.
    rewrite (run_app _ _ _ _ (run_chunks ws _ _ _ _ _ Ha)).
    cbn [run]. rewrite step_end by exact Ha.
    rewrite absorb_assistant, chunking_irrelevant. cbn [app].
    now rewrite <- app_assoc. }
  eexists. split; [apply Hall|]. split; [reflexivity|].
  intros vs' Hcat. now rewrite Hall, Hcat.
Qed.

(** X10: how the network cuts the bytes of a response into chunks does not
    show in the result: two streams with the same bytes, cut differently,
    leave the same state, and the assistant entry holds what one call of the
    decoder gives on all the bytes at once. *)
Theorem chunk_boundaries_do_not_matter (st : State) (res : Response)
    (vs vs' : list bytes) :
  canSend st = true ->
  streamable res = true ->
  concat vs = concat vs' ->
  run st (Send :: FetchResolved res :: map chunk_read vs ++ [end_of_stream])
  = run st (Send :: FetchResolved res :: map chunk_read vs' ++ [end_of_stream])
  /\ exists st',
       run st (Send :: FetchResolved res
               :: map chunk_read vs ++ [end_of_stream]) = Some st'
       /\ messages st'
          = messages st
            ++ [{| role := user; content := input st |};
                {| role := assistant;
                   content := snd (decode new_TextDecoder (concat vs)) |}].
Proof.
  intros Hc Hres Hcat.
  destruct (run_whole_send st res vs Hc Hres) as (st' & Hrun & Hm & Hsame).
  split.
  - rewrite Hrun. symmetry. apply Hsame. now symmetry.
  - exists st'. now split.
Qed.

Lemma chunk_boundaries_do_not_matter_witness :
  run (setInput (lit "hello") (initial (lit "http://x") (lit "t")))
    (Send :: FetchResolved {| ok := true; status := 200; body := true |}
          :: map chunk_read [[0xE2]; [0x82; 0xAC]] ++ [end_of_stream])
  = run (setInput (lit "hello") (initial (lit "http://x") (lit "t")))
      (Send :: FetchResolved {| ok := true; status := 200; body := true |}
            :: map chunk_read [[0xE2; 0x82; 0xAC]] ++ [end_of_stream]).
Proof.
  exact (proj1 (chunk_boundaries_do_not_matter
                  (setInput (lit "hello") (initial (lit "http://x") (lit "t")))
                  {| ok := true; status := 200; body := true |}
                  [[0xE2]; [0x82; 0xAC]] [[0xE2; 0x82; 0xAC]]
                  eq_refl eq_refl eq_refl)).
Defined.

(** X11: the text of a response survives the trip.  When the bytes of the
    stream, however they are cut, are the UTF-8 encoding of a text, the
    assistant entry ends up with that text, less a U+FEFF at its very
    start; a U+FEFF anywhere else is kept. *)
Theorem response_text_round_trip (st : State) (res : Response)
    (vs : list bytes) (text : list Z) :
  canSend st = true ->
  streamable res = true ->
  Forall scalar text ->
  concat vs = utf8_encodes text ->
  exists st',
    run st (Send :: FetchResolved res :: map chunk_read vs ++ [end_of_stream])
    = Some st'
    /\ messages st'
       = messages st
         ++ [{| role := user; content := input st |};
             {| role := assistant;
                content := utf16s (match text with
                                   | cp :: rest =>
                                       if cp =? BOM then rest else text
                                   | [] => []
                                   end) |}].
Proof.
  intros Hc Hres Hs Hcat.
  destruct (run_whole_send st res vs Hc Hres) as (st' & Hrun & Hm & _).
  exists st'. split; [exact Hrun|]. rewrite Hm, Hcat.
  destruct (decode_encoded_boundary new_TextDecoder text eq_refl Hs)
    as [-> _].
  do 4 f_equal. unfold bom_dropped. cbn.
  destruct text as [|cp rest]; [reflexivity|]. now destruct (cp =? BOM).
Qed.

Lemma response_text_round_trip_witness :
  exists st',
    run (setInput (lit "hello") (initial (lit "http://x") (lit "t")))
      (Send :: FetchResolved {| ok := true; status := 200; body := true |}
            :: map chunk_read [[0x48; 0xE2]; [0x82; 0xAC]; [0xEF; 0xBB; 0xBF]]
            ++ [end_of_stream])
    = Some st'
    /\ messages st'
       = [{| role := assistant; content := welcome |};
          {| role := user; content := lit "hello" |};
          {| role := assistant; content := [0x48; 0x20AC; 0xFEFF] |}].
Proof.
  assert (Hs : Forall scalar [0x48; 0x20AC; 0xFEFF])
    by (repeat constructor; lia).
  exact (response_text_round_trip
           (setInput (lit "hello") (initial (lit "http://x") (lit "t")))
           {| ok := true; status := 200; body := true |}
           [[0x48; 0xE2]; [0x82; 0xAC]; [0xEF; 0xBB; 0xBF]]
           [0x48; 0x20AC; 0xFEFF] eq_refl eq_refl Hs eq_refl).
Defined.

(** X12: nothing flushes the decoder when the stream ends.  A response
    that stops in the middle of a character, after the text [text] and the
    first bytes [b1] of the character [cp], leaves the assistant entry with
    [text] alone: the unfinished character is lost without a U+FFFD and
    without an error. *)
Theorem truncated_character_is_lost (st : State) (res : Response)
    (vs : list bytes) (text : list Z) (cp : Z) (b1 b2 : bytes) :
  canSend st = true ->
  streamable res = true ->
  Forall scalar text -> scalar cp ->
  utf8_encode cp = b1 ++ b2 -> b2 <> [] ->
  concat vs = utf8_encodes text ++ b1 ->
  exists st',
    run st (Send :: FetchResolved res :: map chunk_read vs ++ [end_of_stream])
    = Some st'
    /\ messages st'
       = messages st
         ++ [{| role := user; content := input st |};
             {| role := assistant;
                content := utf16s (match text with
                                   | c :: rest =>
                                       if c =? BOM then rest else text
                                   | [] => []
                                   end) |}]
    /\ error st' = []
    /\ finished st'.
Proof.
  intros Hc Hres Hs Hcp Hsplit Hb2 Hcat.
  destruct (send_enters_loop st res Hc Hres) as (st0 & Hrun & Ha & He0 & _).
  eexists. split_and!.
  - change (Send :: FetchResolved res :: map chunk_read vs ++ [end_of_stream])
      with ([Send; FetchResolved res] ++ map chunk_read vs ++ [end_of_stream]).
    rewrite (run_app _ _ _ _ Hrun), app_assoc.
    rewrite (run_app _ _ _ _ (run_chunks vs _ _ _ _ _ Ha)).
    cbn [run]. now rewrite step_end by exact Ha.
  - cbn [messages send_finally set_sending set_abortRef setIsSending
         setMessages].
    rewrite absorb_assistant, chunking_irrelevant, Hcat, decode_app.
    cbn [app snd].
    destruct (decode_encoded_boundary new_TextDecoder text eq_refl Hs)
      as [Htext Hu].
    rewrite (decode_partial _ cp b1 b2 (decode_streams _ _) Hu Hcp Hsplit Hb2).
    rewrite app_nil_r, Htext, <- app_assoc. cbn [app].
    do 4 f_equal. unfold bom_dropped. cbn.
    destruct text as [|c rest]; [reflexivity|]. now destruct (c =? BOM).
  - exact He0.
  - repeat split.
Qed.

Lemma truncated_character_is_lost_witness :
  exists st',
    run (setInput (lit "hello") (initial (lit "http://x") (lit "t")))
      (Send :: FetchResolved {| ok := true; status := 200; body := true |}
            :: map chunk_read [[0x48; 0xE2]; [0x82]] ++ [end_of_stream])
    = Some st'
    /\ messages st'
       = [{| role := assistant; content := welcome |};
          {| role := user; content := lit "hello" |};
          {| role := assistant; content := [0x48] |}].
Proof.
  assert (Hs : Forall scalar [0x48]) by (repeat constructor; lia).
  assert (Hcp : scalar 0x20AC) by (unfold scalar; lia).
  destruct (truncated_character_is_lost
              (setInput (lit "hello") (initial (lit "http://x") (lit "t")))
              {| ok := true; status := 200; body := true |}
              [[0x48; 0xE2]; [0x82]] [0x48] 0x20AC [0xE2; 0x82] [0xAC]
              eq_refl eq_refl Hs Hcp eq_refl ltac:(discriminate) eq_refl)
    as (st' & Hrun & Hm & _).
  exists st'. split; [exact Hrun|exact Hm].
Defined.


(** ** The decoder on arbitrary bytes *)











Example malformed_bytes_become_replacements :
  decoded_chunks new_TextDecoder [[0xED; 0xA0; 0x80]; [0xC0; 0xAF]; [0xFF]]
  = [[0xFFFD; 0xFFFD; 0xFFFD]; [0xFFFD; 0xFFFD]; [0xFFFD]].
Proof. reflexivity. Qed.

(** ** Settings across reloads *)

Module SettingsFacts.
Import LocalStorage Settings.

Lemma persist_store (fault : option Exn) (key : jsstring) (v : JsVal)
    (st : gmap (list Z) (list Z)) :
  snd (persist fault key v st)
  = match fault with
    | Some _ => st
    | None => match stored v with
              | Some s => <[key := s]> st
              | None => delete key st
              end
    end.
Proof.
  unfold persist, persist_body, setItem, removeItem.
  destruct fault; destruct v as [| |[|c s]]; reflexivity.
Qed.

Lemma load_lookup (key : jsstring) (init : JsVal)
    (st : gmap (list Z) (list Z)) :
  load None key init st
  = Returns (match st !! key with Some s => Str s | None => init end).
Proof. unfold load, getItem. now destruct (st !! key). Qed.

Lemma keys_differ : KEY_BASE <> KEY_TOKEN.
Proof. intros H. vm_compute in H. discriminate H. Qed.

(** X14: a setting survives a reload.  What one effect has stored is what
    the next initialiser finds: a non-empty value comes back, a blank one
    gives way to the default; a write that the storage refuses leaves what
    was stored before, so the reload does not see the new value; and a
    write to one key never changes what is loaded for another. *)
Theorem setting_survives_reload (key : jsstring) (init : JsVal)
    (st : gmap (list Z) (list Z)) :
  (forall c s,
      load None key init (snd (persist None key (Str (c :: s)) st))
      = Returns (Str (c :: s)))
  /\ Forall (fun v => load None key init (snd (persist None key v st))
                      = Returns init)
       [Undefined; Null; Str []]
  /\ (forall e v,
        load None key init (snd (persist (Some e) key v st))
        = load None key init st)
  /\ (forall fault v key',
        key' <> key ->
        load None key' init (snd (persist fault key v st))
        = load None key' init st).
Proof.
  split_and!.
  - intros c s. rewrite persist_store, load_lookup. cbn [stored].
    now rewrite lookup_insert_eq.
  - repeat constructor; rewrite persist_store, load_lookup; cbn [stored];
      now rewrite lookup_delete_eq.
  - intros e v. now rewrite persist_store.
  - intros fault v key' Hne. rewrite persist_store, !load_lookup.
    destruct fault; [reflexivity|].
    destruct (stored v);
      [now rewrite lookup_insert_ne|now rewrite lookup_delete_ne].
Qed.

Lemma persist_no_blank (fault : option Exn) (key : jsstring) (v : JsVal)
    (st : gmap (list Z) (list Z)) :
  no_blank st -> no_blank (snd (persist fault key v st)).
Proof.
  intros Hnb k x. rewrite persist_store. destruct fault; [apply Hnb|].
  destruct (stored v) as [s|] eqn:Hv.
  - destruct (decide (key = k)) as [->|Hne].
    + rewrite lookup_insert_eq. intros [= <-].
      destruct v as [| |[|c t]]; try discriminate. now injection Hv as <-.
    + rewrite lookup_insert_ne by exact Hne. apply Hnb.
  - destruct (decide (key = k)) as [->|Hne].
    + now rewrite lookup_delete_eq.
    + rewrite lookup_delete_ne by exact Hne. apply Hnb.
Qed.

(** X15: the effect never stores the empty string: a storage without blank
    values has none after any write, accepted or refused; and from such a
    storage a hook whose default is not blank never starts blank, even when
    the read fails. *)
Theorem stored_settings_are_never_blank (st : gmap (list Z) (list Z)) :
  no_blank st ->
  (forall fault key v, no_blank (snd (persist fault key v st)))
  /\ (forall fault key c s,
        exists c' s', initial_value fault key (Str (c :: s)) st
                      = Str (c' :: s')).
Proof.
  intros Hnb. split.
  - intros fault key v. now apply persist_no_blank.
  - intros fault key c s. unfold initial_value, load, getItem.
    destruct fault; [now exists c, s|].
    destruct (st !! key) as [[|c' s']|] eqn:Hk.
    + now apply Hnb in Hk.
    + now exists c', s'.
    + now exists c, s.
Qed.

Lemma stored_settings_are_never_blank_witness :
  no_blank (snd (persist None KEY_BASE (Str []) ∅)).
Proof.
  assert (H0 : no_blank ∅) by (intros k v H; rewrite lookup_empty in H;
                               discriminate H).
  exact (proj1 (stored_settings_are_never_blank ∅ H0) None KEY_BASE (Str [])).
Defined.

Lemma initial_value_lookup (key : jsstring) (init : JsVal)
    (st : gmap (list Z) (list Z)) :
  initial_value None key init st
  = match st !! key with Some s => Str s | None => init end.
Proof. unfold initial_value. now rewrite load_lookup. Qed.

Lemma persist_mirror (key : jsstring) (v : JsVal)
    (st : gmap (list Z) (list Z)) :
  snd (persist None key v st) !! key = stored v.
Proof.
  rewrite persist_store. destruct (stored v).
  - apply lookup_insert_eq.
  - apply lookup_delete_eq.
Qed.

Lemma persist_other (fault : option Exn) (key key' : jsstring) (v : JsVal)
    (st : gmap (list Z) (list Z)) :
  key <> key' -> snd (persist fault key v st) !! key' = st !! key'.
Proof.
  intros Hne. rewrite persist_store. destruct fault; [reflexivity|].
  destruct (stored v);
    [now rewrite lookup_insert_ne|now rewrite lookup_delete_ne].
Qed.

(** X16: how [App] starts.  A stored value wins over the build-time
    variable, which wins over the built-in default when it is defined and
    not empty; when reading the storage fails the stored value is ignored.
    After the first render the storage mirrors the two values: each is
    stored under its key if it is not blank, and the key is absent if it
    is; so the default base URL is written to the storage on the first
    start.  No other key is touched. *)
Theorem first_render (env : Env) (st : gmap (list Z) (list Z)) :
  let s := mount env None None None None st in
  apiBase s
  = Str (match st !! KEY_BASE with
         | Some v => v
         | None => or_default (VITE_API_BASE env) DEFAULT_BASE
         end)
  /\ token s
     = Str (match st !! KEY_TOKEN with
            | Some v => v
            | None => or_default (VITE_API_TOKEN env) []
            end)
  /\ store s !! KEY_BASE = stored (apiBase s)
  /\ store s !! KEY_TOKEN = stored (token s)
  /\ (forall k, k <> KEY_BASE -> k <> KEY_TOKEN -> store s !! k = st !! k)
  /\ (forall e1 e2 w1 w2,
        apiBase (mount env (Some e1) (Some e2) w1 w2 st)
        = Str (or_default (VITE_API_BASE env) DEFAULT_BASE)
        /\ token (mount env (Some e1) (Some e2) w1 w2 st)
           = Str (or_default (VITE_API_TOKEN env) []))
  /\ store (mount env None None None None ∅) !! KEY_BASE
     = Some (or_default (VITE_API_BASE env) DEFAULT_BASE).
Proof.
  intros s. unfold s, mount. cbn [apiBase token store].
  rewrite !initial_value_lookup. split_and!.
  - now destruct (st !! KEY_BASE).
  - now destruct (st !! KEY_TOKEN).
  - rewrite persist_other by (apply not_eq_sym, keys_differ).
    apply persist_mirror.
  - apply persist_mirror.
  - intros k Hb Ht. rewrite !persist_other by (now apply not_eq_sym).
    reflexivity.
  - intros e1 e2 w1 w2. split; reflexivity.
  - rewrite persist_other by (apply not_eq_sym, keys_differ).
    rewrite persist_mirror, lookup_empty. cbn [stored].
    destruct (VITE_API_BASE env) as [[|c x]|]; reflexivity.
Qed.

Lemma change_base_store (w : option Exn) (s : Saved) :
  store s !! KEY_BASE = None ->
  apiBase (change_base w [] s) = Str []
  /\ token (change_base w [] s) = token s
  /\ store (change_base w [] s) = store s.
Proof.
  intros Hk. unfold change_base.
  destruct (decide (Str [] = apiBase s)) as [He|_]; [now rewrite <- He|].
  cbn [apiBase token store]. split_and!; try reflexivity.
  rewrite persist_store. destruct w; [reflexivity|]. cbn [stored].
  now apply delete_id.
Qed.

Lemma change_token_store (w : option Exn) (s : Saved) :
  store s !! KEY_TOKEN = None ->
  apiBase (change_token w [] s) = apiBase s
  /\ token (change_token w [] s) = Str []
  /\ store (change_token w [] s) = store s.
Proof.
  intros Hk. unfold change_token.
  destruct (decide (Str [] = token s)) as [He|_]; [now rewrite <- He|].
  cbn [apiBase token store]. split_and!; try reflexivity.
  rewrite persist_store. destruct w; [reflexivity|]. cbn [stored].
  now apply delete_id.
Qed.

(** X17: the "Reset" button of the settings bar.  When the storage accepts
    the two removals, both keys are gone and both values are blank,
    whatever the effects of the render that follows meet, and the next
    start finds the defaults again.  The two removals are not guarded: when
    the first one throws, the exception leaves the handler and nothing has
    changed; when the second one throws, the base URL is already gone from
    the storage while both values are still in memory. *)
Theorem reset_button (s : Saved) (w1 w2 : option Exn) :
  (exists s',
      clearSaved None None w1 w2 s = (Returns tt, s')
      /\ apiBase s' = Str [] /\ token s' = Str []
      /\ store s' = delete KEY_TOKEN (delete KEY_BASE (store s))
      /\ forall env,
           apiBase (mount env None None None None (store s'))
           = Str (or_default (VITE_API_BASE env) DEFAULT_BASE)
           /\ token (mount env None None None None (store s'))
              = Str (or_default (VITE_API_TOKEN env) []))
  /\ (forall e r2, clearSaved (Some e) r2 w1 w2 s = (Throws e, s))
  /\ (forall e,
        clearSaved None (Some e) w1 w2 s
        = (Throws e, {| apiBase := apiBase s; token := token s;
                        store := delete KEY_BASE (store s) |})).
Proof.
  split_and!.
  - unfold clearSaved. cbn [removeItem].
    set (s0 := {| apiBase := apiBase s; token := token s;
                  store := delete KEY_TOKEN (delete KEY_BASE (store s)) |}).
    assert (Hb : store s0 !! KEY_BASE = None).
    { unfold s0. cbn [store].
      rewrite lookup_delete_ne by (apply not_eq_sym, keys_differ).
      apply lookup_delete_eq. }
    destruct (change_base_store w1 s0 Hb) as (Hb1 & Hb2 & Hb3).
    assert (Ht : store (change_base w1 [] s0) !! KEY_TOKEN = None).
    { rewrite Hb3. unfold s0. cbn [store]. apply lookup_delete_eq. }
    destruct (change_token_store w2 _ Ht) as (Ht1 & Ht2 & Ht3).
    eexists. split; [reflexivity|].
    rewrite Ht1, Ht2, Ht3, Hb1, Hb3. unfold s0. cbn [store].
    split_and!; try reflexivity.
    intros env. unfold mount. cbn [apiBase token store].
    rewrite !initial_value_lookup. cbn [store].
    rewrite lookup_delete_eq.
    rewrite lookup_delete_ne by (apply not_eq_sym, keys_differ).
    rewrite lookup_delete_eq. now split.
  - intros e r2. unfold clearSaved. cbn [removeItem]. now destruct s.
  - intros e. reflexivity.
Qed.

End SettingsFacts.


(** ** The button of the composer *)

(** X18: in every reachable state the composer shows Cancel exactly when a
    call of [send] is suspended, and then a click aborts the controller of
    that call; it shows an enabled Send exactly when the guard passes, and
    then a click issues one request, empties the input, hides the banner
    and turns the button into Cancel; when Send is shown disabled, Enter
    does nothing either. *)
Theorem composer_button_follows_the_send (st : State) :
  reachable st ->
  (control st = CancelButton <-> sending st <> None)
  /\ match control st with
     | CancelButton =>
         exists t, sending st = Some t
                   /\ click_control st = cancel st
                   /\ aborted (click_control st) (controller t) = true
     | SendButton true =>
         forall shiftKey, step st (KeyDown (lit "Enter") shiftKey) = Some st
     | SendButton false =>
         click_control st = send st
         /\ control (send st) = CancelButton
         /\ banner (send st) = None
         /\ input (send st) = []
         /\ requests (send st)
            = requests st ++ [generate_request st (length (controllers st))]
     end.
Proof.
  intros Hr. pose proof (reachable_consistent st Hr) as [_ Hc].
  unfold click_control, control.
  destruct (sending st) as [t|] eqn:Hs.
  - destruct Hc as (Hi & Ha & Hlt). rewrite Hi.
    split; [split; [discriminate|reflexivity]|].
    exists t. split; [reflexivity|]. split; [reflexivity|].
    now apply cancel_aborts.
  - destruct Hc as (Hi & Ha). rewrite Hi.
    split; [split; [discriminate|intros H; now contradict H]|].
    destruct (canSend st) eqn:Hcs; cbn [negb].
    + destruct (send_started st Hcs) as (_ & Hi' & _).
      destruct (send_passed st Hcs) as (_ & He & Hin).
      destruct (send_frame st) as (Hreq & _). rewrite Hcs in Hreq.
      split_and!; try assumption; try reflexivity.
      * now rewrite Hi'.
      * unfold banner. now rewrite He.
    + apply send_blocked_noop_frame, Hcs.
Qed.

Lemma composer_button_follows_the_send_witness :
  control (streaming 0 (fst (decode new_TextDecoder (lit "Hi")))
             [{| role := assistant; content := welcome |};
              {| role := user; content := lit "hello" |};
              {| role := assistant; content := lit "Hi" |}]
             (send (setInput (lit "hello")
                      (initial (lit "http://x") (lit "t")))))
  = CancelButton.
Proof.
  apply (proj1 (composer_button_follows_the_send _ reachable_example)).
  discriminate.
Defined.

(** ** The prompt in the body of the request *)

Lemma nibble_range (x : Z) : 0 <= Z.land x 0xF < 16.
Proof.
  change 0xF with (Z.ones 4). rewrite Z.land_ones by lia.
  apply Z.mod_pos_bound. lia.
Qed.

Lemma hex_digit_value (n : Z) :
  0 <= n < 16 -> hex_value (hex_digit n) = Some n.
Proof.
  intros Hn. unfold hex_digit, hex_value.
  destruct (Z.ltb_spec n 10); zbool; f_equal; lia.
Qed.

Lemma hex_digit_range (n : Z) : 0 <= n < 16 -> 0x30 <= hex_digit n <= 0x66.
Proof. intros Hn. unfold hex_digit. destruct (Z.ltb_spec n 10); lia. Qed.

Lemma nibbles_value (c : Z) :
  0 <= c < 65536 ->
  ((Z.land (Z.shiftr c 12) 0xF * 16 + Z.land (Z.shiftr c 8) 0xF) * 16
   + Z.land (Z.shiftr c 4) 0xF) * 16 + Z.land c 0xF = c.
Proof.
  intros Hc. change 0xF with (Z.ones 4).
  rewrite !Z.land_ones, !Z.shiftr_div_pow2 by lia.
  change (2 ^ 12) with 4096. change (2 ^ 8) with 256.
  change (2 ^ 4) with 16. Z.div_mod_to_equations. lia.
Qed.

Lemma read_UnicodeEscape (c : Z) (tail : jsstring) :
  0 <= c < 65536 ->
  read_units Plain (UnicodeEscape c ++ tail)
  = cons c <$> read_units Plain tail.
Proof.
  intros Hc. unfold UnicodeEscape. cbn [app read_units].
  change (BACKSLASH =? BACKSLASH) with true.
  change (0x75 =? 0x75) with true. cbv iota.
  rewrite !hex_digit_value by apply nibble_range. cbn [app].
  now rewrite nibbles_value.
Qed.

Lemma read_plain (c : Z) (tail : jsstring) :
  0x20 <= c -> c <> QUOTE -> c <> BACKSLASH ->
  read_units Plain (c :: tail) = cons c <$> read_units Plain tail.
Proof.
  intros H1 H2 H3. cbn [read_units]. unfold QUOTE, BACKSLASH in *.
  zbool. reflexivity.
Qed.

Lemma read_quote_unit (c : Z) (tail : jsstring) :
  0 <= c < 65536 ->
  read_units Plain (quote_unit c ++ tail)
  = cons c <$> read_units Plain tail.
Proof.
  intros Hc. unfold quote_unit, QUOTE, BACKSLASH.
  destruct (Z.eqb_spec c 0x08) as [->|]; [reflexivity|].
  destruct (Z.eqb_spec c 0x09) as [->|]; [reflexivity|].
  destruct (Z.eqb_spec c 0x0A) as [->|]; [reflexivity|].
  destruct (Z.eqb_spec c 0x0C) as [->|]; [reflexivity|].
  destruct (Z.eqb_spec c 0x0D) as [->|]; [reflexivity|].
  destruct (Z.eqb_spec c 0x22) as [->|]; [reflexivity|].
  destruct (Z.eqb_spec c 0x5C) as [->|]; [reflexivity|].
  destruct (Z.ltb_spec c 0x20).
  - now apply read_UnicodeEscape.
  - apply read_plain; unfold QUOTE, BACKSLASH; lia.
Qed.

Lemma quote_units_pair (c d : Z) (s : jsstring) :
  is_lead_surrogate c = true -> is_trail_surrogate d = true ->
  quote_units (c :: d :: s) = c :: d :: quote_units s.
Proof. intros H1 H2. cbn [quote_units]. now rewrite H1, H2. Qed.

Lemma quote_units_lone_lead (c d : Z) (s : jsstring) :
  is_lead_surrogate c = true -> is_trail_surrogate d = false ->
  quote_units (c :: d :: s) = UnicodeEscape c ++ quote_units (d :: s).
Proof. intros H1 H2. cbn [quote_units]. now rewrite H1, H2. Qed.

Lemma quote_units_other (c : Z) (s : jsstring) :
  is_lead_surrogate c = false ->
  quote_units (c :: s)
  = (if is_trail_surrogate c then UnicodeEscape c else quote_unit c)
    ++ quote_units s.
Proof.
  intros H1. cbn [quote_units]. rewrite H1.
  now destruct (is_trail_surrogate c).
Qed.

Lemma read_quote_units (s : jsstring) :
  code_units s ->
  read_units Plain (quote_units s) = Some s
  /\ forall c, 0 <= c < 65536 ->
       read_units Plain (quote_units (c :: s)) = Some (c :: s).
Proof.
  induction s as [|d s IH]; intros Hs.
  - split; [reflexivity|]. intros c Hc. cbn [quote_units].
    destruct (is_lead_surrogate c);
      [|destruct (is_trail_surrogate c)].
    + rewrite <- (app_nil_r (UnicodeEscape c)).
      now rewrite read_UnicodeEscape.
    + now rewrite read_UnicodeEscape.
    + now rewrite read_quote_unit.
  - pose proof (Forall_inv Hs) as Hd. pose proof (Forall_inv_tail Hs) as Hs'.
    cbn beta in Hd. destruct (IH Hs') as [IH1 IH2].
    pose proof (IH2 d Hd) as Hds. split; [exact Hds|].
    intros c Hc.
    destruct (is_lead_surrogate c) eqn:Hlead.
    + destruct (is_trail_surrogate d) eqn:Htrail.
      * rewrite quote_units_pair by assumption.
        unfold is_lead_surrogate in Hlead.
        unfold is_trail_surrogate in Htrail.
        apply andb_true_iff in Hlead as [Hl1 Hl2].
        apply andb_true_iff in Htrail as [Ht1 Ht2].
        apply Z.leb_le in Hl1, Hl2, Ht1, Ht2.
        rewrite read_plain by (unfold QUOTE, BACKSLASH; lia).
        rewrite read_plain by (unfold QUOTE, BACKSLASH; lia).
        now rewrite IH1.
      * rewrite quote_units_lone_lead by assumption.
        rewrite read_UnicodeEscape by exact Hc. now rewrite Hds.
    + rewrite quote_units_other by assumption.
      destruct (is_trail_surrogate c).
      * rewrite read_UnicodeEscape by exact Hc. now rewrite Hds.
      * rewrite read_quote_unit by exact Hc. now rewrite Hds.
Qed.

(** X19: the prompt reaches the server as typed.  The body of the request
    is [{"prompt":] followed by the quoted prompt and [}]; reading the
    quoted characters back as a JSON string gives the prompt, unit for
    unit, whatever it holds (quotes, backslashes, control characters, lone
    surrogates); so two different prompts never give the same body. *)
Theorem prompt_survives_the_body (p : jsstring) :
  code_units p ->
  read_units Plain (quote_units p) = Some p
  /\ forall q, code_units q ->
       body_text (JsonPrompt p) = body_text (JsonPrompt q) -> p = q.
Proof.
  intros Hp.
  destruct (read_quote_units p Hp) as [Hread _]. split; [exact Hread|].
  intros q Hq Heq. destruct (read_quote_units q Hq) as [Hread' _].
  cbn [body_text] in Heq. injection Heq as Heq.
  unfold QuoteJSONString in Heq.
  repeat apply app_inv_head in Heq. do 2 apply app_inv_tail in Heq.
  rewrite Heq in Hread. congruence.
Qed.

Lemma prompt_survives_the_body_witness :
  read_units Plain (quote_units [0x61; 0x22; 0x0A; 0xD83D; 0xDC4B; 0xD800])
  = Some [0x61; 0x22; 0x0A; 0xD83D; 0xDC4B; 0xD800].
Proof.
  assert (H : code_units [0x61; 0x22; 0x0A; 0xD83D; 0xDC4B; 0xD800])
    by (repeat constructor; lia).
  exact (proj1 (prompt_survives_the_body _ H)).
Defined.

Example quoted_prompt :
  quote_units [0x61; 0x22; 0x0A; 0xD83D; 0xDC4B; 0xD800]
  = [0x61; BACKSLASH; QUOTE; BACKSLASH; 0x6E; 0xD83D; 0xDC4B]
    ++ [BACKSLASH] ++ lit "ud800".
Proof. reflexivity. Qed.


(** ** The error banner *)

Lemma send_error (st : State) :
  error (send st) = if canSend st then [] else error st.
Proof. unfold send. now destruct (canSend st). Qed.

(** X20: the life of the error banner.  Typing, editing the settings,
    [cancel] and the arrival of chunks or of the end of the stream never
    change the error; an accepted send and any click on Reset Chat empty
    it; a bad response sets it to [HTTP <status>]; a rejected fetch or read
    of [send] sets it to the text of the exception unless that is named
    [AbortError]; a rejected reset sets it to the text of the exception
    whatever its name. *)
Theorem error_changes_only_on_failure_or_retry (st st' : State) (ev : Event) :
  step st ev = Some st' -> error st' = error_after st ev.
Proof.
  intros Hstep.
  destruct ev; cbn [step error_after] in *;
    try (injection Hstep as <-; try reflexivity).
  - apply send_error.
  - unfold onKeyDown. destruct (_ && negb _); cbn [andb];
      [apply send_error|reflexivity].
  - unfold cancel. now destruct (abortRef st).
  - destruct (sending st) as [[c [|td]]|]; try discriminate.
    destruct (aborted st c); [discriminate|]. injection Hstep as <-.
    unfold send_fetched, streamable.
    destruct (ok res), (body res); cbn [negb orb andb]; try reflexivity;
      rewrite send_catch_error;
      now rewrite bool_decide_eq_false_2 by (vm_compute; discriminate).
  - destruct (sending st) as [[c [|td]]|]; try discriminate.
    destruct (may_reject st c e); [|discriminate]. injection Hstep as <-.
    apply send_catch_error.
  - destruct (sending st) as [[c [|td]]|]; try discriminate.
    destruct (aborted st c); [discriminate|].
    unfold send_read in Hstep. destruct (value r) as [v|].
    + destruct (decode td v) as [td' chunk]. unfold updateMessages in Hstep.
      destruct (appendToLast chunk (messages st)) as [m'|]; [|discriminate].
      destruct (done r); injection Hstep as <-; reflexivity.
    + destruct (done r); injection Hstep as <-; reflexivity.
  - destruct (sending st) as [[c [|td]]|]; try discriminate.
    destruct (may_reject st c e); [|discriminate]. injection Hstep as <-.
    apply send_catch_error.
  - destruct (resetting st); [discriminate|]. injection Hstep as <-.
    unfold reset_fetched. now destruct (ok res).
  - destruct (resetting st); [discriminate|]. now injection Hstep as <-.
Qed.

Lemma error_changes_only_on_failure_or_retry_witness :
  error (send_finally
           (streaming 0 (fst (decode new_TextDecoder (lit "Hi")))
              [{| role := assistant; content := welcome |}]
              (setError (lit "HTTP 500")
                 (initial (lit "http://x") (lit "t")))))
  = lit "HTTP 500".
Proof.
  exact (error_changes_only_on_failure_or_retry
           (streaming 0 (fst (decode new_TextDecoder (lit "Hi")))
              [{| role := assistant; content := welcome |}]
              (setError (lit "HTTP 500")
                 (initial (lit "http://x") (lit "t"))))
           _ end_of_stream eq_refl).
Defined.


(** ** A stream among other events *)

Lemma run_app_inv (evs1 evs2 : list Event) : forall st st' : State,
  run st (evs1 ++ evs2) = Some st' ->
  exists st1, run st evs1 = Some st1 /\ run st1 evs2 = Some st'.
Proof.
  induction evs1 as [|ev evs1 IH]; intros st st' Hrun.
  - exists st. now split.
  - cbn [app run] in *. destruct (step st ev) as [s1|]; [|discriminate].
    now apply IH.
Qed.

Lemma blocked_while_sending (st : State) :
  isSending st = true -> send st = st.
Proof.
  intros Hi. unfold send, canSend. rewrite Hi.
  now rewrite andb_false_r.
Qed.

Lemma bystander_keeps (c : nat) (ph : SendPhase) (m : list ChatEntry)
    (st st' : State) (ev : Event) :
  in_flight c ph m st -> bystander ev = true -> step st ev = Some st' ->
  in_flight c ph m st'.
Proof.
  intros (Hs & Hi & Hm) Hb Hstep. unfold in_flight.
  destruct ev; try discriminate Hb; cbn [step] in Hstep.
  - injection Hstep as <-. now split_and!.
  - injection Hstep as <-. now split_and!.
  - injection Hstep as <-. now split_and!.
  - injection Hstep as <-. now split_and!.
  - injection Hstep as <-. rewrite blocked_while_sending by exact Hi.
    now split_and!.
  - injection Hstep as <-. unfold onKeyDown.
    destruct (_ && _); rewrite ?blocked_while_sending by exact Hi;
      now split_and!.
  - injection Hstep as <-.
    destruct (cancel_frame st) as (-> & _ & -> & _ & ->). now split_and!.
  - injection Hstep as <-. now split_and!.
  - destruct (resetting st); [discriminate|]. injection Hstep as <-.
    unfold bystander in Hb. cbn in Hb. apply negb_true_iff in Hb.
    unfold reset_fetched. rewrite Hb. now split_and!.
  - destruct (resetting st); [discriminate|]. injection Hstep as <-.
    now split_and!.
Qed.

Lemma bystanders_keep (gap : list Event) : forall (c : nat) (ph : SendPhase)
    (m : list ChatEntry) (st st' : State),
  in_flight c ph m st ->
  Forall (fun ev => bystander ev = true) gap ->
  run st gap = Some st' ->
  in_flight c ph m st'.
Proof.
  induction gap as [|ev gap IH]; intros c ph m st st' Hin Hall Hrun.
  - cbn in Hrun. now injection Hrun as <-.
  - cbn [run] in Hrun. destruct (step st ev) as [s1|] eqn:Hstep;
      [|discriminate].
    apply (IH c ph m s1 st'); [|now apply Forall_inv_tail in Hall|exact Hrun].
    eapply bystander_keeps; [exact Hin| |exact Hstep].
    now apply Forall_inv in Hall.
Qed.

Lemma user_edit_bystander (ev : Event) :
  user_edit ev = true -> bystander ev = true.
Proof. now destruct ev. Qed.

Lemma user_edit_runs (c : nat) (ph : SendPhase) (m : list ChatEntry)
    (st : State) (ev : Event) :
  in_flight c ph m st -> aborted st c = false -> user_edit ev = true ->
  exists st', step st ev = Some st' /\ aborted st' c = false.
Proof.
  intros (Hs & Hi & Hm) Ha Hu.
  destruct ev; try discriminate Hu; cbn [step];
    try (eexists; split; [reflexivity|exact Ha]).
  - rewrite blocked_while_sending by exact Hi. now exists st.
  - unfold onKeyDown.
    destruct (_ && _); rewrite ?blocked_while_sending by exact Hi;
      now exists st.
Qed.

Lemma user_edits_run (gap : list Event) : forall (c : nat) (ph : SendPhase)
    (m : list ChatEntry) (st : State),
  in_flight c ph m st -> aborted st c = false ->
  Forall (fun ev => user_edit ev = true) gap ->
  exists st', run st gap = Some st'
              /\ in_flight c ph m st' /\ aborted st' c = false.
Proof.
  induction gap as [|ev gap IH]; intros c ph m st Hin Ha Hall.
  - exists st. now split_and!.
  - pose proof (Forall_inv Hall) as Hev. cbn beta in Hev.
    destruct (user_edit_runs c ph m st ev Hin Ha Hev) as (s1 & Hstep & Ha1).
    pose proof (bystander_keeps c ph m st s1 ev Hin
                  (user_edit_bystander ev Hev) Hstep) as Hin1.
    destruct (IH c ph m s1 Hin1 Ha1 (Forall_inv_tail Hall))
      as (st' & Hrun & Hin' & Ha').
    exists st'. cbn [run]. rewrite Hstep. now split_and!.
Qed.

(** The three kinds of event of a stream, from a state with [send] in
    flight. *)
Lemma fetched_in_flight (c : nat) (m : list ChatEntry) (res : Response)
    (st : State) :
  in_flight c AwaitFetch m st -> streamable res = true ->
  (forall st', step st (FetchResolved res) = Some st' ->
               in_flight c (AwaitRead new_TextDecoder) m st')
  /\ (aborted st c = false ->
      exists st', step st (FetchResolved res) = Some st'
                  /\ aborted st' c = false).
Proof.
  intros (Hs & Hi & Hm) Hres. unfold streamable in Hres.
  apply andb_true_iff in Hres as [Hok Hbody].
  cbn [step]. rewrite Hs. unfold send_fetched. rewrite Hok, Hbody.
  cbn [negb orb]. split.
  - destruct (aborted st c); [discriminate|]. intros st' [= <-].
    now split_and!.
  - intros Ha. rewrite Ha. eexists. split; [reflexivity|exact Ha].
Qed.

Lemma chunk_in_flight (c : nat) (td : TextDecoder) (m : list ChatEntry)
    (x : jsstring) (v : bytes) (st : State) :
  in_flight c (AwaitRead td)
    (m ++ [{| role := assistant; content := x |}]) st ->
  (forall st', step st (chunk_read v) = Some st' ->
               in_flight c (AwaitRead (fst (decode td v)))
                 (m ++ [{| role := assistant;
                           content := x ++ snd (decode td v) |}]) st')
  /\ (aborted st c = false ->
      exists st', step st (chunk_read v) = Some st'
                  /\ aborted st' c = false).
Proof.
  intros (Hs & Hi & Hm).
  assert (Hstep : forall b, aborted st c = b ->
    step st (chunk_read v)
    = if b then None
      else Some (set_sending
                   (Some {| controller := c;
                            phase := AwaitRead (fst (decode td v)) |})
                   (setMessages
                      (m ++ [{| role := assistant;
                                content := x ++ snd (decode td v) |}]) st))).
  { intros b Hb. unfold chunk_read. cbn [step]. rewrite Hs, Hb.
    destruct b; [reflexivity|]. unfold send_read. cbn [value done].
    destruct (decode td v) as [td' chunk]. unfold updateMessages.
    rewrite Hm, appendToLast_snoc. reflexivity. }
  split.
  - intros st'. rewrite (Hstep _ eq_refl).
    destruct (aborted st c); [discriminate|]. intros [= <-].
    now split_and!.
  - intros Ha. rewrite (Hstep false Ha). eexists. split; [reflexivity|].
    exact Ha.
Qed.

Lemma end_in_flight (c : nat) (td : TextDecoder) (m : list ChatEntry)
    (st : State) :
  in_flight c (AwaitRead td) m st ->
  (forall st', step st end_of_stream = Some st' ->
               messages st' = m /\ sending st' = None)
  /\ (aborted st c = false -> exists st', step st end_of_stream = Some st').
Proof.
  intros (Hs & Hi & Hm). unfold end_of_stream. cbn [step]. rewrite Hs.
  split.
  - destruct (aborted st c); [discriminate|]. intros st' [= <-].
    now split.
  - intros ->. now eexists.
Qed.

Lemma woven_chunks (vs : list bytes) : forall (gaps : list (list Event))
    (c : nat) (td : TextDecoder) (m : list ChatEntry) (x : jsstring)
    (st : State),
  in_flight c (AwaitRead td)
    (m ++ [{| role := assistant; content := x |}]) st ->
  Forall (Forall (fun ev => bystander ev = true)) gaps ->
  (forall st',
      run st (weave gaps (map chunk_read vs ++ [end_of_stream])) = Some st' ->
      messages st'
      = m ++ [{| role := assistant;
                 content := x ++ concat (decoded_chunks td vs) |}]
      /\ sending st' = None)
  /\ (aborted st c = false ->
      Forall (Forall (fun ev => user_edit ev = true)) gaps ->
      exists st',
        run st (weave gaps (map chunk_read vs ++ [end_of_stream])) = Some st').
Proof.
  induction vs as [|v vs IH]; intros gaps c td m x st Hin Hby.
  - cbn [map app weave decoded_chunks concat]. rewrite app_nil_r.
    destruct gaps as [|gap gaps]; cbn [run].
    + destruct (end_in_flight c td _ st Hin) as [Hend Hex]. split.
      * intros st'. destruct (step st end_of_stream) as [s1|] eqn:Hstep;
          [|discriminate].
        intros [= <-]. now apply Hend.
      * intros Ha _. destruct (Hex Ha) as (s1 & Hstep).
        exists s1. now rewrite Hstep.
    + pose proof (Forall_inv Hby) as Hgap. split.
      * intros st' Hrun. apply run_app_inv in Hrun as (s1 & Hrun1 & Hrun2).
        pose proof (bystanders_keep gap _ _ _ _ _ Hin Hgap Hrun1) as Hin1.
        cbn [run] in Hrun2.
        destruct (step s1 end_of_stream) as [s2|] eqn:Hstep; [|discriminate].
        injection Hrun2 as <-.
        now apply (proj1 (end_in_flight c td _ s1 Hin1)).
      * intros Ha Hus.
        destruct (user_edits_run gap _ _ _ _ Hin Ha (Forall_inv Hus))
          as (s1 & Hrun1 & Hin1 & Ha1).
        destruct (proj2 (end_in_flight c td _ s1 Hin1) Ha1) as (s2 & Hstep).
        exists s2. rewrite (run_app _ _ _ _ Hrun1). cbn [run].
        now rewrite Hstep.
  - cbn [map app weave decoded_chunks concat].
    assert (Hnext : forall (gaps' : list (list Event)) (s1 : State),
      Forall (Forall (fun ev => bystander ev = true)) gaps' ->
      in_flight c (AwaitRead td)
        (m ++ [{| role := assistant; content := x |}]) s1 ->
      (forall st',
          run s1 (chunk_read v
                  :: weave gaps' (map chunk_read vs ++ [end_of_stream]))
          = Some st' ->
          messages st'
          = m ++ [{| role := assistant;
                     content := x ++ concat (decoded_chunks td (v :: vs)) |}]
          /\ sending st' = None)
      /\ (aborted s1 c = false ->
          Forall (Forall (fun ev => user_edit ev = true)) gaps' ->
          exists st',
            run s1 (chunk_read v
                    :: weave gaps' (map chunk_read vs ++ [end_of_stream]))
            = Some st')).
    { intros gaps' s1 Hby' Hin1.
      destruct (chunk_in_flight c td m x v s1 Hin1) as [Hchunk Hex].
      cbn [decoded_chunks]. destruct (decode td v) as [td1 t1] eqn:Hd.
      cbn [fst snd concat] in *. cbn [run]. split.
      - intros st'. destruct (step s1 (chunk_read v)) as [s2|] eqn:Hstep;
          [|discriminate].
        intros Hrun. specialize (Hchunk s2 eq_refl).
        destruct (IH gaps' c td1 m (x ++ t1) s2 Hchunk Hby') as [Hres _].
        rewrite app_assoc. now apply Hres.
      - intros Ha Hus. destruct (Hex Ha) as (s2 & Hstep & Ha2).
        rewrite Hstep in *. specialize (Hchunk s2 eq_refl).
        destruct (IH gaps' c td1 m (x ++ t1) s2 Hchunk Hby') as [_ Hgo].
        now apply Hgo. }
    destruct gaps as [|gap gaps].
    + apply Hnext; [constructor|exact Hin].
    + pose proof (Forall_inv Hby) as Hgap.
      pose proof (Forall_inv_tail Hby) as Hby'. split.
      * intros st' Hrun. apply run_app_inv in Hrun as (s1 & Hrun1 & Hrun2).
        pose proof (bystanders_keep gap _ _ _ _ _ Hin Hgap Hrun1) as Hin1.
        now apply (proj1 (Hnext gaps s1 Hby' Hin1)).
      * intros Ha Hus.
        destruct (user_edits_run gap _ _ _ _ Hin Ha (Forall_inv Hus))
          as (s1 & Hrun1 & Hin1 & Ha1).
        destruct (proj2 (Hnext gaps s1 Hby' Hin1) Ha1 (Forall_inv_tail Hus))
          as (st' & Hrun').
        exists st'. now rewrite (run_app _ _ _ _ Hrun1).
Qed.

(** C1, amended: whatever falls between the events of the stream of a send,
    other than the success of a [resetChat] (edits of the input and of the
    settings, Send and Enter, Reset Chat clicks, resets that fail), once
    the stream ends the transcript is the entries that were there, the user
    entry, and an assistant entry whose content is the concatenation of the
    chunks in the order of arrival; and with user events other than
    [cancel] in between, the stream does run to its end. *)
Theorem stream_concatenates_unless_reset (st : State) (res : Response)
    (vs : list bytes) (gaps : list (list Event)) :
  canSend st = true ->
  streamable res = true ->
  Forall (Forall (fun ev => bystander ev = true)) gaps ->
  (forall st',
      run st (Send :: weave gaps (FetchResolved res
                                  :: map chunk_read vs ++ [end_of_stream]))
      = Some st' ->
      messages st'
      = messages st
        ++ [{| role := user; content := input st |};
            {| role := assistant;
               content := concat (decoded_chunks new_TextDecoder vs) |}]
      /\ sending st' = None)
  /\ (Forall (Forall (fun ev => user_edit ev = true)) gaps ->
      exists st',
        run st (Send :: weave gaps (FetchResolved res
                                    :: map chunk_read vs ++ [end_of_stream]))
        = Some st').
Proof.
  intros Hc Hres Hby.
  destruct (send_started st Hc) as (Hs & Hi & _ & Ha).
  destruct (send_passed st Hc) as (Hm & _).
  set (c := length (controllers st)) in *.
  set (m := messages st ++ [{| role := user; content := input st |}]).
  assert (Hin : in_flight c AwaitFetch
                  (m ++ [{| role := assistant; content := [] |}]) (send st)).
  { split_and!; [exact Hs|exact Hi|]. rewrite Hm. unfold m.
    now rewrite <- app_assoc. }
  assert (Hgoal : forall x : jsstring,
             m ++ [{| role := assistant; content := [] ++ x |}]
             = messages st
               ++ [{| role := user; content := input st |};
                   {| role := assistant; content := x |}]).
  { intros x. unfold m. now rewrite <- app_assoc. }
  assert (Hnext : forall (gaps' : list (list Event)) (s1 : State),
    Forall (Forall (fun ev => bystander ev = true)) gaps' ->
    in_flight c AwaitFetch
      (m ++ [{| role := assistant; content := [] |}]) s1 ->
    (forall st',
        run s1 (FetchResolved res
                :: weave gaps' (map chunk_read vs ++ [end_of_stream]))
        = Some st' ->
        messages st'
        = messages st
          ++ [{| role := user; content := input st |};
              {| role := assistant;
                 content := concat (decoded_chunks new_TextDecoder vs) |}]
        /\ sending st' = None)
    /\ (aborted s1 c = false ->
        Forall (Forall (fun ev => user_edit ev = true)) gaps' ->
        exists st',
          run s1 (FetchResolved res
                  :: weave gaps' (map chunk_read vs ++ [end_of_stream]))
          = Some st')).
  { intros gaps' s1 Hby' Hin1.
    destruct (fetched_in_flight c _ res s1 Hin1 Hres) as [Hf Hex].
    cbn [run]. split.
    - intros st'.
      destruct (step s1 (FetchResolved res)) as [s2|] eqn:Hstep;
        [|discriminate].
      intros Hrun. specialize (Hf s2 eq_refl).
      destruct (woven_chunks vs gaps' c new_TextDecoder m [] s2 Hf Hby')
        as [Hgo _].
      rewrite <- Hgoal. now apply Hgo.
    - intros Ha1 Hus. destruct (Hex Ha1) as (s2 & Hstep & Ha2).
      rewrite Hstep in *. specialize (Hf s2 eq_refl).
      destruct (woven_chunks vs gaps' c new_TextDecoder m [] s2 Hf Hby')
        as [_ Hgo].
      now apply Hgo. }
  cbn [weave run step].
  destruct gaps as [|gap gaps].
  - destruct (Hnext [] (send st) ltac:(constructor) Hin) as [H1 H2].
    split; [exact H1|]. intros _. apply H2; [exact Ha|constructor].
  - pose proof (Forall_inv Hby) as Hgap.
    pose proof (Forall_inv_tail Hby) as Hby'. split.
    + intros st' Hrun. apply run_app_inv in Hrun as (s1 & Hrun1 & Hrun2).
      pose proof (bystanders_keep gap _ _ _ _ _ Hin Hgap Hrun1) as Hin1.
      now apply (proj1 (Hnext gaps s1 Hby' Hin1)).
    + intros Hus.
      destruct (user_edits_run gap _ _ _ _ Hin Ha (Forall_inv Hus))
        as (s1 & Hrun1 & Hin1 & Ha1).
      destruct (proj2 (Hnext gaps s1 Hby' Hin1) Ha1 (Forall_inv_tail Hus))
        as (st' & Hrun').
      exists st'. now rewrite (run_app _ _ _ _ Hrun1).
Qed.

(** A stream of two chunks among an edit, a blocked Send, and a reset that
    fails. *)
Lemma stream_concatenates_unless_reset_witness :
  exists st',
    run (setInput (lit "hello") (initial (lit "http://x") (lit "t")))
      (Send :: weave [[SetInput (lit "next")];
                      [ResetChat; Send];
                      [ResetResolved {| ok := false; status := 500;
                                        body := true |}]]
                 (FetchResolved {| ok := true; status := 200; body := true |}
                  :: map chunk_read [lit "Hi"; lit " there"]
                  ++ [end_of_stream]))
    = Some st'
    /\ messages st'
       = [{| role := assistant; content := welcome |};
          {| role := user; content := lit "hello" |};
          {| role := assistant; content := lit "Hi there" |}].
Proof.
  assert (Hby : Forall (Forall (fun ev => bystander ev = true))
                  [[SetInput (lit "next")];
                   [ResetChat; Send];
                   [ResetResolved {| ok := false; status := 500;
                                     body := true |}]])
    by (repeat constructor).
  destruct (stream_concatenates_unless_reset
              (setInput (lit "hello") (initial (lit "http://x") (lit "t")))
              {| ok := true; status := 200; body := true |}
              [lit "Hi"; lit " there"]
              [[SetInput (lit "next")];
               [ResetChat; Send];
               [ResetResolved {| ok := false; status := 500; body := true |}]]
              eq_refl eq_refl Hby) as [H _].
  eexists. split; [vm_compute; reflexivity|].
  refine (proj1 (H _ _)). vm_compute. reflexivity.
Defined.

(** C1 as stated fails when a [resetChat] succeeds while the stream is
    active: the chunks [Hi] and [ there] are delivered in order and the
    stream ends, but the assistant entry the send had appended is gone and
    the only entry left holds the confirmation text followed by the second
    chunk. *)
Lemma reset_success_breaks_concatenation :
  decoded_chunks new_TextDecoder [lit "Hi"; lit " there"]
  = [lit "Hi"; lit " there"]
  /\ (messages <$>
        run (setInput (lit "hello") (initial (lit "http://x") (lit "t")))
          [Send; FetchResolved {| ok := true; status := 200; body := true |};
           chunk_read (lit "Hi");
           ResetChat;
           ResetResolved {| ok := true; status := 200; body := true |};
           chunk_read (lit " there"); end_of_stream])
     = Some [{| role := assistant; content := cleared ++ lit " there" |}]
  /\ ~ In {| role := assistant; content := lit "Hi there" |}
         [{| role := assistant; content := cleared ++ lit " there" |}].
Proof.
  split_and!; [reflexivity|reflexivity|].
  intros [H|[]]. vm_compute in H. discriminate H.
Qed.
